(** * pi-spi-sdk: the build scripts, the error mapper and the query builder

    A shallow embedding of
    - [scripts/pre-generate.js]  (the OpenAPI spec normalizer),
    - [scripts/post-generate.js] (the generated-model patcher),
    - [src/error-handler.ts]     ([handleApiError]),
    - [src/query-builder.ts]     ([QueryBuilder]),
    followed by the properties the specification states about them. *)

From Stdlib Require Import ZArith List Ascii String Bool Lia.
From Stdlib Require Import Numbers.DecimalString.
From stdpp Require Import base option gmap strings.
Import ListNotations.

Local Open Scope string_scope.

(* ===================================================================== *)
(** * JavaScript values *)
(* ===================================================================== *)

Module JS.

(** Strings are held as their UTF-8 bytes.  Case mapping is the ASCII one:
    it is exact wherever the scripts compare against ASCII words (the HTTP
    method names), and for path segments that start with an ASCII
    character, which is what URI path templates are made of. *)

Definition dquote : ascii := ascii_of_nat 34.
Definition backslash : ascii := ascii_of_nat 92.
Definition newline : ascii := ascii_of_nat 10.

Definition str1 (c : ascii) : string := String c EmptyString.

Definition is_lower (c : ascii) : bool :=
  (97 <=? nat_of_ascii c)%nat && (nat_of_ascii c <=? 122)%nat.
Definition is_upper (c : ascii) : bool :=
  (65 <=? nat_of_ascii c)%nat && (nat_of_ascii c <=? 90)%nat.
Definition is_digit (c : ascii) : bool :=
  (48 <=? nat_of_ascii c)%nat && (nat_of_ascii c <=? 57)%nat.

Definition upper_char (c : ascii) : ascii :=
  if is_lower c then ascii_of_nat (nat_of_ascii c - 32) else c.
Definition lower_char (c : ascii) : ascii :=
  if is_upper c then ascii_of_nat (nat_of_ascii c + 32) else c.

Fixpoint map_string (f : ascii -> ascii) (s : string) : string :=
  match s with
  | EmptyString => EmptyString
  | String c r => String (f c) (map_string f r)
  end.

(** [s.toLowerCase()] and [s.toUpperCase()] *)
Definition toLowerCase : string -> string := map_string lower_char.
Definition toUpperCase : string -> string := map_string upper_char.

(** [s.charAt(0)]: the empty string when [s] is empty *)
Definition charAt0 (s : string) : string :=
  match s with
  | EmptyString => EmptyString
  | String c _ => str1 c
  end.

(** [s.slice(1)] *)
Definition slice1 (s : string) : string :=
  match s with
  | EmptyString => EmptyString
  | String _ r => r
  end.

(** [s.startsWith(p)] *)
Fixpoint startsWith (s p : string) : bool :=
  match p, s with
  | EmptyString, _ => true
  | String _ _, EmptyString => false
  | String a p', String b s' => Ascii.eqb a b && startsWith s' p'
  end.

(** [s.split(sep)] for a separator of one character: never the empty
    list, [[""]] for the empty string *)
Fixpoint split (sep : ascii) (s : string) : list string :=
  match s with
  | EmptyString => [EmptyString]
  | String c r =>
      if Ascii.eqb c sep then EmptyString :: split sep r
      else match split sep r with
           | h :: t => String c h :: t
           | [] => [str1 c]
           end
  end.

(** [parts.join('')] *)
Fixpoint join (parts : list string) : string :=
  match parts with
  | [] => EmptyString
  | p :: r => p +:+ join r
  end.

(** [parts.join(sep)] *)
Fixpoint join_with (sep : string) (parts : list string) : string :=
  match parts with
  | [] => EmptyString
  | [p] => p
  | p :: r => p +:+ sep +:+ join_with sep r
  end.

(** [list.includes(s)] on a list of strings *)
Definition includes (l : list string) (s : string) : bool :=
  existsb (String.eqb s) l.

(** ** Numbers

    A finite double is held by the decimal [m * 10^e] that
    [Number::toString] prints for it (its shortest round-trip digits);
    [-0] is folded into [0], from which nothing in these programs can tell
    it apart. *)
Inductive number :=
| NaN
| Inf (negative : bool)
| Fin (m e : Z).

Definition Int (z : Z) : number := Fin z 0.

#[local] Unset Elimination Schemes.
Inductive jsval :=
| VUndefined
| VNull
| VBool (b : bool)
| VNum (n : number)
| VStr (s : string)
| VArr (elems : list jsval) (extra : list (string * jsval))
    (** an array, and the non-index properties assigned to it *)
| VObj (props : list (string * jsval)).
    (** a plain object: its own properties in enumeration order *)
#[local] Set Elimination Schemes.

Definition number_truthy (n : number) : bool :=
  match n with
  | NaN => false
  | Inf _ => true
  | Fin m _ => negb (m =? 0)%Z
  end.

(** ToBoolean *)
Definition truthy (v : jsval) : bool :=
  match v with
  | VUndefined | VNull => false
  | VBool b => b
  | VNum n => number_truthy n
  | VStr s => negb (String.eqb s EmptyString)
  | VArr _ _ | VObj _ => true
  end.

Inductive jstype := TUndefined | TObject | TBoolean | TNumber | TString.

(** [typeof v] *)
Definition typeof (v : jsval) : jstype :=
  match v with
  | VUndefined => TUndefined
  | VNull | VArr _ _ | VObj _ => TObject
  | VBool _ => TBoolean
  | VNum _ => TNumber
  | VStr _ => TString
  end.

Definition is_object_type (v : jsval) : bool :=
  match typeof v with TObject => true | _ => false end.

(** [Array.isArray(v)] *)
Definition isArray (v : jsval) : bool :=
  match v with VArr _ _ => true | _ => false end.

(** Own-property lookup, first match *)
Fixpoint lookup_own (k : string) (ps : list (string * jsval)) : option jsval :=
  match ps with
  | [] => None
  | (k', v) :: r => if String.eqb k k' then Some v else lookup_own k r
  end.

(** [k in v] for an object [v] and a name [k] that is neither an index,
    nor [length], nor a member of a built-in prototype *)
Definition has_prop (v : jsval) (k : string) : bool :=
  match v with
  | VObj ps | VArr _ ps => bool_decide (is_Some (lookup_own k ps))
  | _ => false
  end.

(** [v.k] for such a name, where [v] is neither [null] nor [undefined];
    on a primitive the lookup goes to the prototype and finds nothing *)
Definition get (v : jsval) (k : string) : jsval :=
  match v with
  | VObj ps | VArr _ ps => default VUndefined (lookup_own k ps)
  | _ => VUndefined
  end.

(** [v?.k] *)
Definition get_opt (v : jsval) (k : string) : jsval :=
  match v with
  | VUndefined | VNull => VUndefined
  | _ => get v k
  end.

(** [obj[k] = x] on own properties: an existing property keeps its place,
    a new one goes last *)
Fixpoint set_own (k : string) (x : jsval) (ps : list (string * jsval))
  : list (string * jsval) :=
  match ps with
  | [] => [(k, x)]
  | (k', v) :: r =>
      if String.eqb k k' then (k', x) :: r else (k', v) :: set_own k x r
  end.

(** [v.k = x] for an object or array [v] *)
Definition set (v : jsval) (k : string) (x : jsval) : jsval :=
  match v with
  | VObj ps => VObj (set_own k x ps)
  | VArr es ps => VArr es (set_own k x ps)
  | _ => v
  end.

(** [a || b] *)
Definition or_else (a b : jsval) : jsval := if truthy a then a else b.

(** ** Number::toString *)

Definition digits (z : Z) : string :=
  NilEmpty.string_of_uint (N.to_uint (Z.to_N z)).

Fixpoint zeros (n : nat) : string :=
  match n with
  | O => EmptyString
  | S k => String "0" (zeros k)
  end.

(** Drop the trailing zeros of the digit string [m], raising the exponent *)
Fixpoint strip10 (fuel : nat) (m e : Z) : Z * Z :=
  match fuel with
  | O => (m, e)
  | S f =>
      if (m =? 0)%Z then (m, e)
      else if (m mod 10 =? 0)%Z then strip10 f (m / 10)%Z (e + 1)%Z
      else (m, e)
  end.

Definition finite_to_string (m e : Z) : string :=
  if (m =? 0)%Z then "0" else
  let '(m', e') := strip10 (S (Z.to_nat (Z.log2 (Z.abs m)))) (Z.abs m) e in
  let ds := digits m' in
  let k := Z.of_nat (String.length ds) in
  let n := (k + e')%Z in
  let body :=
    if (k <=? n)%Z && (n <=? 21)%Z then ds +:+ zeros (Z.to_nat (n - k))
    else if (0 <? n)%Z && (n <=? 21)%Z then
      substring 0 (Z.to_nat n) ds +:+ "." +:+
      substring (Z.to_nat n) (Z.to_nat (k - n)) ds
    else if (-6 <? n)%Z && (n <=? 0)%Z then
      "0." +:+ zeros (Z.to_nat (- n)) +:+ ds
    else
      let ex := (n - 1)%Z in
      let es := (if (ex <? 0)%Z then "-" else "+") +:+ digits (Z.abs ex) in
      if (k =? 1)%Z then ds +:+ "e" +:+ es
      else substring 0 1 ds +:+ "." +:+
           substring 1 (Z.to_nat (k - 1)) ds +:+ "e" +:+ es in
  (if (m <? 0)%Z then "-" else EmptyString) +:+ body.

(** [String(n)], [n.toString()] *)
Definition number_to_string (n : number) : string :=
  match n with
  | NaN => "NaN"
  | Inf false => "Infinity"
  | Inf true => "-Infinity"
  | Fin m e => finite_to_string m e
  end.

(** ** JSON.stringify(v, null, 2) *)

Definition hex_digit (n : nat) : ascii :=
  if (n <? 10)%nat then ascii_of_nat (48 + n) else ascii_of_nat (87 + n).

Definition quote_char (c : ascii) : string :=
  let n := nat_of_ascii c in
  if Ascii.eqb c dquote then String backslash (str1 dquote)
  else if Ascii.eqb c backslash then String backslash (str1 backslash)
  else if (n =? 8)%nat then String backslash "b"
  else if (n =? 9)%nat then String backslash "t"
  else if (n =? 10)%nat then String backslash "n"
  else if (n =? 12)%nat then String backslash "f"
  else if (n =? 13)%nat then String backslash "r"
  else if (n <? 32)%nat then
    String backslash ("u00" +:+ String (hex_digit (n / 16))
                                  (str1 (hex_digit (n mod 16))))
  else str1 c.

Fixpoint quote_body (s : string) : string :=
  match s with
  | EmptyString => EmptyString
  | String c r => quote_char c +:+ quote_body r
  end.

(** QuoteJSONString *)
Definition quote (s : string) : string :=
  String dquote (quote_body s +:+ str1 dquote).

Definition gap : string := "  ".

(** The members of an array or object, one per line at [indent] *)
Definition block (opening closing stepback indent : string)
    (items : list string) : string :=
  match items with
  | [] => opening +:+ closing
  | _ =>
      opening +:+ str1 newline +:+ indent +:+
      join_with ("," +:+ str1 newline +:+ indent) items +:+
      str1 newline +:+ stepback +:+ closing
  end.

(** The members of an object, [f] printing a value: a property whose
    value prints as [undefined] is left out *)
Fixpoint members_of (f : jsval -> option string)
    (ps : list (string * jsval)) : list string :=
  match ps with
  | [] => []
  | (k, x) :: r =>
      match f x with
      | Some t => (quote k +:+ ": " +:+ t) :: members_of f r
      | None => members_of f r
      end
  end.

(** SerializeJSONProperty: [None] stands for [undefined].  An array prints
    its elements only; a property holding [undefined] is left out, an array
    element holding it prints as [null], and so does a number that is not
    finite. *)
Fixpoint ser (stepback : string) (v : jsval) : option string :=
  let indent := stepback +:+ gap in
  match v with
  | VUndefined => None
  | VNull => Some "null"
  | VBool true => Some "true"
  | VBool false => Some "false"
  | VNum (Fin m e) => Some (finite_to_string m e)
  | VNum _ => Some "null"
  | VStr s => Some (quote s)
  | VArr es _ =>
      Some (block "[" "]" stepback indent
              (map (fun e => default "null" (ser indent e)) es))
  | VObj ps =>
      Some (block "{" "}" stepback indent (members_of (ser indent) ps))
  end.

Definition JSON_stringify (v : jsval) : option string := ser EmptyString v.

(** The properties that are read back, [f] reading back a value *)
Fixpoint reload_members (f : jsval -> jsval) (ps : list (string * jsval))
  : list (string * jsval) :=
  match ps with
  | [] => []
  | (k, VUndefined) :: r => reload_members f r
  | (k, x) :: r => (k, f x) :: reload_members f r
  end.

(** What [JSON.parse] returns on the text [JSON.stringify] printed for
    [v]: the same tree, where arrays have lost the properties assigned to
    them, properties holding [undefined] are gone, and [undefined] elements
    and non-finite numbers have become [null]. *)
Fixpoint reload (v : jsval) : jsval :=
  match v with
  | VUndefined => VNull
  | VNum (Fin m e) => VNum (Fin m e)
  | VNum _ => VNull
  | VArr es _ => VArr (map reload es) []
  | VObj ps => VObj (reload_members reload ps)
  | _ => v
  end.

End JS.

(* ===================================================================== *)
(** * scripts/pre-generate.js: the spec normalizer *)
(* ===================================================================== *)

Module PreGenerate.
Import JS.

(** What the [try] block can throw *)
Inductive exn :=
| Error (message : string)   (** [throw new Error(message)] *)
| TypeError.                 (** raised by the runtime *)

Inductive completion (A : Type) :=
| Normal (a : A)
| Throw (e : exn).
Arguments Normal {A} a.
Arguments Throw {A} e.

#[global] Instance completion_ret : MRet completion := @Normal.
#[global] Instance completion_bind : MBind completion :=
  fun A B f m => match m with Normal a => f a | Throw e => Throw e end.

(** [v.k] as a statement of the script: reading a property of [null] or
    [undefined] raises a TypeError *)
Definition read (v : jsval) (k : string) : completion jsval :=
  match v with
  | VUndefined | VNull => Throw TypeError
  | _ => Normal (get v k)
  end.

Definition missing (field : string) : string :=
  "Missing " +:+ quote field +:+ " field".
Definition missing_or_invalid (field : string) : string :=
  "Missing or invalid " +:+ quote field +:+ " field".

(** Lines 24-38: the four top-level checks *)
Definition validate (spec : jsval) : completion unit :=
  openapi ← read spec "openapi";
  if negb (truthy openapi) then Throw (Error (missing "openapi")) else
  info ← read spec "info";
  if negb (truthy info) then Throw (Error (missing "info")) else
  paths ← read spec "paths";
  if negb (truthy paths) || negb (is_object_type paths)
  then Throw (Error (missing_or_invalid "paths")) else
  components ← read spec "components";
  if negb (truthy components) || negb (is_object_type components)
  then Throw (Error (missing_or_invalid "components")) else
  Normal tt.

(** Lines 40-44 *)
Definition ensureTags (spec : jsval) : jsval :=
  if negb (truthy (get spec "tags")) || negb (isArray (get spec "tags"))
  then set spec "tags" (VArr [] [])
  else spec.

Definition httpMethods : list string :=
  ["get"; "post"; "put"; "delete"; "patch"; "options"; "head"].

Record counters := { fixedPaths : nat; removedNullOps : nat }.

Definition count_fixed (c : counters) : counters :=
  {| fixedPaths := S (fixedPaths c); removedNullOps := removedNullOps c |}.
Definition count_removed (c : counters) : counters :=
  {| fixedPaths := fixedPaths c; removedNullOps := S (removedNullOps c) |}.

(** Lines 80-83 *)
Definition pathParts (path : string) : list string :=
  List.filter
    (fun p => negb (String.eqb p EmptyString) && negb (startsWith p "{"))
         (split "/" path).

Definition operationIdFor (key path : string) : string :=
  toLowerCase key +:+
  join (map (fun p => toUpperCase (charAt0 p) +:+ slice1 p) (pathParts path)).

(** [value.tags.length === 0], once [value.tags] is known to be an array *)
Definition empty_array (v : jsval) : bool :=
  match v with VArr [] _ => true | _ => false end.

(** Lines 70-86, on an operation [value] whose [typeof] is ['object'] *)
Definition fixOperation (path key : string) (value : jsval) (c : counters)
  : jsval * counters :=
  let tags := get value "tags" in
  let '(value, c) :=
    if negb (truthy tags) || negb (isArray tags) || empty_array tags
    then (set value "tags" (VArr [VStr "Default"] []), count_fixed c)
    else (value, c) in
  let value :=
    if negb (truthy (get value "operationId"))
    then set value "operationId" (VStr (operationIdFor key path))
    else value in
  (value, c).

(** Lines 53-88: the loop over the entries of one path item.  The entries
    are those the item had when the loop started; a deleted key drops out
    of the item, an operation repaired in place stays where it was. *)
Fixpoint fixEntries (path : string) (entries : list (string * jsval))
    (c : counters) : list (string * jsval) * counters :=
  match entries with
  | [] => ([], c)
  | (key, value) :: rest =>
      if includes httpMethods (toLowerCase key) then
        match value with
        | VNull | VUndefined => fixEntries path rest (count_removed c)
        | _ =>
            if negb (is_object_type value) then
              let '(rest', c') := fixEntries path rest c in
              ((key, value) :: rest', c')
            else
              let '(value', c1) := fixOperation path key value c in
              let '(rest', c2) := fixEntries path rest c1 in
              ((key, value') :: rest', c2)
        end
      else
        let '(rest', c') := fixEntries path rest c in
        ((key, value) :: rest', c')
  end.

(** Lines 52-89.  The keys [Object.entries] lists for an array are its
    indices, none of which is a method name, and then the names of the
    properties assigned to it. *)
Definition fixPathItem (path : string) (pathItem : jsval) (c : counters)
  : jsval * counters :=
  if truthy pathItem && is_object_type pathItem then
    match pathItem with
    | VObj ps =>
        let '(ps', c') := fixEntries path ps c in (VObj ps', c')
    | VArr es extra =>
        let '(extra', c') := fixEntries path extra c in (VArr es extra', c')
    | _ => (pathItem, c)
    end
  else (pathItem, c).

Fixpoint fixPathEntries (entries : list (string * jsval)) (c : counters)
  : list (string * jsval) * counters :=
  match entries with
  | [] => ([], c)
  | (path, pathItem) :: rest =>
      let '(pathItem', c1) := fixPathItem path pathItem c in
      let '(rest', c2) := fixPathEntries rest c1 in
      ((path, pathItem') :: rest', c2)
  end.

(** The elements of an array [spec.paths], listed under their indices *)
Fixpoint fixPathElems (index : nat) (elems : list jsval) (c : counters)
  : list jsval * counters :=
  match elems with
  | [] => ([], c)
  | pathItem :: rest =>
      let '(pathItem', c1) :=
        fixPathItem (number_to_string (Int (Z.of_nat index))) pathItem c in
      let '(rest', c2) := fixPathElems (S index) rest c1 in
      (pathItem' :: rest', c2)
  end.

(** Lines 51-90: [spec.paths] is an object or an array here *)
Definition fixPaths (paths : jsval) (c : counters) : jsval * counters :=
  match paths with
  | VObj ps =>
      let '(ps', c') := fixPathEntries ps c in (VObj ps', c')
  | VArr es extra =>
      let '(es', c1) := fixPathElems 0 es c in
      let '(extra', c2) := fixPathEntries extra c1 in
      (VArr es' extra', c2)
  | _ => (paths, c)
  end.

Definition no_fixes : counters := {| fixedPaths := 0; removedNullOps := 0 |}.

(** Lines 22-98: the document as it stands in memory before it is written
    back, and the two counters.  The path items are repaired in place, so
    the repaired items are what [spec.paths] holds afterwards. *)
Definition normalize (spec : jsval) : completion (jsval * counters) :=
  validate spec ;;
  let spec := ensureTags spec in
  let '(paths', c) := fixPaths (get spec "paths") no_fixes in
  Normal (set spec "paths" paths', c).

(** Lines 100-101: [writeFileSync] refuses [undefined] *)
Definition serialize (spec : jsval) : completion string :=
  match JSON_stringify spec with
  | Some text => Normal text
  | None => Throw TypeError
  end.

Record outcome := {
  exit_code : Z;
  written : option string;     (** the bytes [writeFileSync] wrote, if it ran *)
  diagnostic : option exn;     (** what [console.error] printed *)
  counts : option counters;
  document : option jsval      (** [spec] when the [try] block ended *)
}.

(** The whole script, given what [JSON.parse] returned for the spec file *)
Definition pre_generate (spec : jsval) : outcome :=
  match normalize spec ≫= (fun '(spec', c) =>
          text ← serialize spec'; Normal (spec', c, text)) with
  | Normal (spec', c, text) =>
      {| exit_code := 0; written := Some text; diagnostic := None;
         counts := Some c; document := Some spec' |}
  | Throw e =>
      {| exit_code := 1; written := None; diagnostic := Some e;
         counts := None; document := None |}
  end.

(** The spec file after the script has run on a file holding [before] *)
Definition file_after (before : string) (o : outcome) : string :=
  default before (written o).

(** A second run reads the file the first run wrote *)
Definition run_again (o : outcome) : option outcome :=
  match document o with
  | Some spec' => Some (pre_generate (reload spec'))
  | None => None
  end.

End PreGenerate.

(* ===================================================================== *)
(** * scripts/post-generate.js: the generated-model patcher *)
(* ===================================================================== *)

Module PostGenerate.
Import JS.

(** Generated model files are taken to be ASCII text, so that an index
    into the text is the same in characters and in code units, and [\s]
    and [\w] are the ASCII classes. *)

Definition lines (l : list string) : string := join_with (str1 newline) l.

(** The three entries of [emptyTypeFixes] *)
Definition CompteTransfertIntraRequest_body : string :=
  lines [ "{";
          "    txId: string;";
          "    montant: number;";
          "    motif?: string;";
          "    payeurNumero?: string;";
          "    payeNumero?: string;";
          "    payeurAlias?: string;";
          "    payeAlias?: string;";
          "}" ].

Definition WebhookModificationRequest_body : string :=
  lines [ "{";
          "    callbackUrl?: string;";
          "    alias?: string;";
          "}" ].

Definition remise_body : string :=
  lines [ "{";
          "    montant?: number;";
          "    taux?: number;";
          "}" ].

Definition emptyTypeFixes : list (string * string) :=
  [ ("CompteTransfertIntraRequest", CompteTransfertIntraRequest_body);
    ("WebhookModificationRequest", WebhookModificationRequest_body);
    ("remise", remise_body) ].

Fixpoint assoc (k : string) (l : list (string * string)) : option string :=
  match l with
  | [] => None
  | (k', v) :: r => if String.eqb k k' then Some v else assoc k r
  end.

(** The methods every object literal inherits from [Object.prototype] *)
Definition inherited_methods : list string :=
  [ "constructor"; "__defineGetter__"; "__defineSetter__"; "hasOwnProperty";
    "__lookupGetter__"; "__lookupSetter__"; "isPrototypeOf";
    "propertyIsEnumerable"; "toString"; "valueOf"; "toLocaleString" ].

(** [emptyTypeFixes[typeName]], as the text a template literal makes of
    it; [None] when the value is [undefined].  The table is an object
    literal, so a name it does not hold is looked up in [Object.prototype],
    whose members are all truthy: a native function prints as its source
    text, the prototype itself as [[object Object]]. *)
Definition lookup_fix (typeName : string) : option string :=
  match assoc typeName emptyTypeFixes with
  | Some body => Some body
  | None =>
      if String.eqb typeName "__proto__" then Some "[object Object]"
      else if includes inherited_methods typeName then
        Some ("function " +:+
              (if String.eqb typeName "constructor" then "Object"
               else typeName) +:+
              "() { [native code] }")
      else None
  end.

(** ** Regular expressions *)

(** [\w] *)
Definition is_word (c : ascii) : bool :=
  is_lower c || is_upper c || is_digit c || Ascii.eqb c "_".

(** [\s] *)
Definition is_space (c : ascii) : bool :=
  let n := nat_of_ascii c in
  ((9 <=? n)%nat && (n <=? 13)%nat) || (n =? 32)%nat.

(** The longest prefix made of characters of a class, and what follows *)
Fixpoint span (p : ascii -> bool) (s : string) : string * string :=
  match s with
  | EmptyString => (EmptyString, EmptyString)
  | String c r =>
      if p c then let '(a, b) := span p r in (String c a, b)
      else (EmptyString, s)
  end.

(** [s] without the literal [p] it starts with *)
Fixpoint strip_prefix (p s : string) : option string :=
  match p, s with
  | EmptyString, _ => Some s
  | String _ _, EmptyString => None
  | String a p', String b s' =>
      if Ascii.eqb a b then strip_prefix p' s' else None
  end.

Fixpoint drop (n : nat) (s : string) : string :=
  match n, s with
  | O, _ => s
  | S _, EmptyString => EmptyString
  | S k, String _ r => drop k r
  end.

(** [/export type (\w+) = \s*;/] at the start of [s]: the captured name
    and the text after the match.  Each greedy class is followed by a
    literal outside the class, so the longest run is the only candidate. *)
Definition match_emptyType (s : string) : option (string * string) :=
  rest ← strip_prefix "export type " s;
  let '(name, rest) := span is_word rest in
  if String.eqb name EmptyString then None else
  rest ← strip_prefix " = " rest;
  let '(_, rest) := span is_space rest in
  rest ← strip_prefix ";" rest;
  Some (name, rest).

(** The leftmost match in [s], which starts at index [pos] of the content:
    the name and the index after the match *)
Fixpoint search_emptyType (s : string) (pos : nat) : option (string * nat) :=
  match match_emptyType s with
  | Some (name, rest) =>
      Some (name, pos + (String.length s - String.length rest))
  | None =>
      match s with
      | EmptyString => None
      | String _ r => search_emptyType r (S pos)
      end
  end.

(** [emptyTypePattern.exec(content)] with the pattern's [lastIndex]: the
    captured name and the new [lastIndex], or [None] for [null] *)
Definition exec_emptyType (content : string) (lastIndex : nat)
  : option (string * nat) :=
  if (String.length content <? lastIndex)%nat then None
  else search_emptyType (drop lastIndex content) lastIndex.

(** [s.replace(needle, replacement)] for strings: the first occurrence
    only.  No replacement text here holds a [$]. *)
Fixpoint replace_first (needle replacement s : string) : string :=
  match strip_prefix needle s with
  | Some rest => replacement +:+ rest
  | None =>
      match s with
      | EmptyString => EmptyString
      | String c r => String c (replace_first needle replacement r)
      end
  end.

(** [s.includes(needle)] *)
Fixpoint str_includes (needle s : string) : bool :=
  match strip_prefix needle s with
  | Some _ => true
  | None =>
      match s with
      | EmptyString => false
      | String _ r => str_includes needle r
      end
  end.

(** [/(\s+)(remise)\??:\s*;/] at the start of [s]: group 1 and the text
    after the match *)
Definition match_remiseField (s : string) : option (string * string) :=
  let '(ws, rest) := span is_space s in
  if String.eqb ws EmptyString then None else
  rest ← strip_prefix "remise" rest;
  let rest := default rest (strip_prefix "?" rest) in
  rest ← strip_prefix ":" rest;
  let '(_, rest) := span is_space rest in
  rest ← strip_prefix ";" rest;
  Some (ws, rest).

(** [remisePattern.test(content)], the pattern being fresh *)
Fixpoint test_remiseField (s : string) : bool :=
  match match_remiseField s with
  | Some _ => true
  | None =>
      match s with
      | EmptyString => false
      | String _ r => test_remiseField r
      end
  end.

(** The replacement [`$1$2?: ${emptyTypeFixes['remise']}`] *)
Definition remiseField_replacement (group1 : string) : string :=
  group1 +:+ "remise" +:+ "?: " +:+ remise_body.

(** [content.replace(remisePattern, ...)]: every match, left to right,
    the search resuming after each match *)
Fixpoint replace_remiseField_upto (fuel : nat) (s : string) : string :=
  match fuel with
  | O => s
  | S fuel =>
      match match_remiseField s with
      | Some (ws, rest) =>
          remiseField_replacement ws +:+ replace_remiseField_upto fuel rest
      | None =>
          match s with
          | EmptyString => EmptyString
          | String c r => String c (replace_remiseField_upto fuel r)
          end
      end
  end.

Definition replace_remiseField (s : string) : string :=
  replace_remiseField_upto (S (String.length s)) s.

(** [/remise:\s*;/] at the start of [s] *)
Definition match_remiseType (s : string) : option string :=
  rest ← strip_prefix "remise:" s;
  let '(_, rest) := span is_space rest in
  strip_prefix ";" rest.

Fixpoint replace_remiseType_upto (fuel : nat) (s : string) : string :=
  match fuel with
  | O => s
  | S fuel =>
      match match_remiseType s with
      | Some rest =>
          "remise: " +:+ remise_body +:+ replace_remiseType_upto fuel rest
      | None =>
          match s with
          | EmptyString => EmptyString
          | String c r => String c (replace_remiseType_upto fuel r)
          end
      end
  end.

Definition replace_remiseType (s : string) : string :=
  replace_remiseType_upto (S (String.length s)) s.

(** ** The per-file pass *)

Record pass := {
  content : string;     (** the text of the file as it stands *)
  fixedCount : nat;     (** fixes counted so far *)
  modified : bool
}.

Definition declaration (typeName body : string) : string :=
  "export type " +:+ typeName +:+ " = " +:+ body +:+ ";".

(** Lines 167-180: the [while] loop over the matches of
    [emptyTypePattern]; [None] when [fuel] iterations were not enough *)
Fixpoint emptyTypeLoop (fuel : nat) (lastIndex : nat) (st : pass)
  : option pass :=
  match fuel with
  | O => None
  | S fuel =>
      match exec_emptyType (content st) lastIndex with
      | None => Some st
      | Some (typeName, lastIndex') =>
          match lookup_fix typeName with
          | Some body =>
              emptyTypeLoop fuel lastIndex'
                {| content :=
                     replace_first (declaration typeName EmptyString)
                       (declaration typeName body) (content st);
                   fixedCount := S (fixedCount st);
                   modified := true |}
          | None => emptyTypeLoop fuel lastIndex' st
          end
      end
  end.

(** Lines 182-190 *)
Definition fixRemiseFields (st : pass) : pass :=
  if test_remiseField (content st) then
    {| content := replace_remiseField (content st);
       fixedCount := S (fixedCount st);
       modified := true |}
  else st.

(** Lines 192-198 *)
Definition fixRemiseTypes (st : pass) : pass :=
  if str_includes "remise: ;" (content st) then
    {| content := replace_remiseType (content st);
       fixedCount := S (fixedCount st);
       modified := true |}
  else st.

(** Lines 159-202 for one file, entered with the fix count so far *)
Definition fixFile (fuel : nat) (text : string) (fixedCount : nat)
  : option pass :=
  st ← emptyTypeLoop fuel 0
         {| content := text; fixedCount := fixedCount; modified := false |};
  Some (fixRemiseTypes (fixRemiseFields st)).

(** Iterations granted to the loop of a file: one for each character the
    scan can move on by, and one to see the final [null] *)
Definition fuel_for (text : string) : nat := S (String.length text).

(** [file.endsWith('.ts')] *)
Fixpoint endsWith_ts (file : string) : bool :=
  match file with
  | EmptyString => false
  | String _ r => String.eqb file ".ts" || endsWith_ts r
  end.

(** [fixEmptyTypes()] over the files of the models directory: the
    directory afterwards and the total count.  A file is written only when
    [modified] is set. *)
Fixpoint fixEmptyTypes (files : list (string * string)) (fixedCount : nat)
  : option (list (string * string) * nat) :=
  match files with
  | [] => Some ([], fixedCount)
  | (file, text) :: rest =>
      if negb (endsWith_ts file) then
        '(rest', n) ← fixEmptyTypes rest fixedCount;
        Some ((file, text) :: rest', n)
      else
        st ← fixFile (fuel_for text) text fixedCount;
        '(rest', n) ← fixEmptyTypes rest (PostGenerate.fixedCount st);
        Some ((file, if modified st then content st else text) :: rest', n)
  end.

(** What the patcher does to one model file on its own *)
Record report := {
  fixes : nat;                  (** fixes counted for the file *)
  rewritten : option string     (** what [writeFileSync] wrote, if it ran *)
}.

Definition patch (text : string) : option report :=
  st ← fixFile (fuel_for text) text 0;
  Some {| fixes := PostGenerate.fixedCount st;
          rewritten := if modified st then Some (content st) else None |}.

Definition on_disk (text : string) (r : report) : string :=
  default text (rewritten r).

(** ** The base configuration file *)

(** [.] matches anything but a line terminator *)
Definition is_line_terminator (c : ascii) : bool :=
  (nat_of_ascii c =? 10)%nat || (nat_of_ascii c =? 13)%nat.

Definition not_line_terminator (c : ascii) : bool :=
  negb (is_line_terminator c).

Definition apostrophe : ascii := ascii_of_nat 39.

(** What follows the last apostrophe of [line]; [None] when it has none *)
Fixpoint after_last_apostrophe (line : string) : option string :=
  match line with
  | EmptyString => None
  | String c r =>
      match after_last_apostrophe r with
      | Some t => Some t
      | None => if Ascii.eqb c apostrophe then Some r else None
      end
  end.

(** [/KEY: '.*'/] at the start of [s], for [KEY] one of [BASE] and
    [VERSION]: the text after the match.  The greedy [.*] runs to the end
    of the line and gives back down to the last apostrophe of the line. *)
Definition match_assignment (key s : string) : option string :=
  r ← strip_prefix (key +:+ ": " +:+ str1 apostrophe) s;
  let '(line, after) := span not_line_terminator r in
  t ← after_last_apostrophe line;
  Some (t +:+ after).

(** [s.replace(/KEY: '.*'/, replacement)]: the first match only *)
Fixpoint replace_assignment (key replacement s : string) : string :=
  match match_assignment key s with
  | Some rest => replacement +:+ rest
  | None =>
      match s with
      | EmptyString => EmptyString
      | String c r => String c (replace_assignment key replacement r)
      end
  end.

Definition BASE_assignment : string :=
  "BASE: " +:+ str1 apostrophe +:+ "https://sandbox.api.pi-bceao.com/piz/v1"
  +:+ str1 apostrophe.
Definition VERSION_assignment : string :=
  "VERSION: " +:+ str1 apostrophe +:+ "1.0.0" +:+ str1 apostrophe.

(** Lines 216-224: what is written back to [OpenAPI.ts] *)
Definition updateOpenAPI (content : string) : string :=
  replace_assignment "VERSION" VERSION_assignment
    (replace_assignment "BASE" BASE_assignment content).

(** The whole script: [None] is a file, or the models directory, that
    cannot be read, which is caught and only warned about; a directory in
    [None] on the way out stands for a loop out of fuel *)
Definition post_generate (openapi : option string)
    (models : option (list (string * string)))
  : option string * option (option (list (string * string) * nat)) :=
  (updateOpenAPI <$> openapi,
   (fun files => fixEmptyTypes files 0) <$> models).

End PostGenerate.

(* ===================================================================== *)
(** * src/errors.ts and src/error-handler.ts *)
(* ===================================================================== *)

Module ErrorHandler.
Import JS.

(** The five error classes, by the [name] their constructor sets *)
Inductive error_class :=
| PiSpiError
| PiSpiValidationError
| PiSpiAuthError
| PiSpiNotFoundError
| PiSpiRateLimitError.

(** An instance of one of them.  [message] is the value handed on to
    [Error], which keeps it as a string. *)
Record sdk_error := {
  name : error_class;
  message : jsval;
  statusCode : jsval;
  statusText : jsval;
  type : jsval;
  detail : jsval;
  instance : jsval;
  errors : jsval;        (** PiSpiValidationError only *)
  retryAfter : jsval     (** PiSpiRateLimitError only *)
}.

(** [new PiSpiError(message, statusCode, statusText, type, detail, instance)] *)
Definition new_PiSpiError
    (message statusCode statusText type detail instance : jsval) : sdk_error :=
  {| name := PiSpiError; message := message; statusCode := statusCode;
     statusText := statusText; type := type; detail := detail;
     instance := instance; errors := VUndefined; retryAfter := VUndefined |}.

(** [this.name = n], [this.errors = x], [this.retryAfter = x] after [super] *)
Definition set_name (n : error_class) (e : sdk_error) : sdk_error :=
  {| name := n; message := message e; statusCode := statusCode e;
     statusText := statusText e; type := type e; detail := detail e;
     instance := instance e; errors := errors e; retryAfter := retryAfter e |}.
Definition set_errors (x : jsval) (e : sdk_error) : sdk_error :=
  {| name := name e; message := message e; statusCode := statusCode e;
     statusText := statusText e; type := type e; detail := detail e;
     instance := instance e; errors := x; retryAfter := retryAfter e |}.
Definition set_retryAfter (x : jsval) (e : sdk_error) : sdk_error :=
  {| name := name e; message := message e; statusCode := statusCode e;
     statusText := statusText e; type := type e; detail := detail e;
     instance := instance e; errors := errors e; retryAfter := x |}.

(** [new PiSpiValidationError(message, statusCode, statusText, errors, type, detail)] *)
Definition new_PiSpiValidationError
    (message statusCode statusText errors type detail : jsval) : sdk_error :=
  set_errors errors
    (set_name PiSpiValidationError
       (new_PiSpiError message statusCode statusText type detail VUndefined)).

(** [new PiSpiAuthError(message, statusCode, statusText)] *)
Definition new_PiSpiAuthError (message statusCode statusText : jsval)
  : sdk_error :=
  set_name PiSpiAuthError
    (new_PiSpiError message statusCode statusText
       VUndefined VUndefined VUndefined).

(** [new PiSpiNotFoundError(message, statusCode, statusText)] *)
Definition new_PiSpiNotFoundError (message statusCode statusText : jsval)
  : sdk_error :=
  set_name PiSpiNotFoundError
    (new_PiSpiError message statusCode statusText
       VUndefined VUndefined VUndefined).

(** [new PiSpiRateLimitError(message, statusCode, statusText, retryAfter)] *)
Definition new_PiSpiRateLimitError
    (message statusCode statusText retryAfter : jsval) : sdk_error :=
  set_retryAfter retryAfter
    (set_name PiSpiRateLimitError
       (new_PiSpiError message statusCode statusText
          VUndefined VUndefined VUndefined)).

(** What a call ends with *)
Inductive thrown :=
| Raised (e : sdk_error)     (** a new SDK error *)
| Rethrown (error : jsval).  (** [throw error]: the value that came in *)

Inductive result :=
| Returns (v : jsval)
| Throws (t : thrown).

(** The number [n] is the integer [z] *)
Definition number_is (n : number) (z : Z) : bool :=
  match n with
  | Fin m e =>
      if (0 <=? e)%Z then (m * 10 ^ e =? z)%Z else (m =? z * 10 ^ (- e))%Z
  | _ => false
  end.

(** [v === z] for an integer literal [z] *)
Definition strict_eq_int (v : jsval) (z : Z) : bool :=
  match v with
  | VNum n => number_is n z
  | _ => false
  end.

Definition isApiError (error : jsval) : bool :=
  truthy error && is_object_type error &&
  has_prop error "status" && has_prop error "statusText" &&
  has_prop error "body".

Definition handleApiError (error : jsval) : result :=
  if isApiError error then
    let apiError := error in
    let status := get apiError "status" in
    let body := get apiError "body" in
    let type := get_opt body "type" in
    let title := or_else (get_opt body "title") (get apiError "statusText") in
    let detail := or_else (get_opt body "detail") (get apiError "message") in
    let instance := get_opt body "instance" in
    if strict_eq_int status 400 then
      let invalidParams :=
        or_else (get_opt body "invalidParams") (get_opt body "errors") in
      Throws (Raised (new_PiSpiValidationError
        (or_else detail (or_else title (VStr "Validation error")))
        status (get apiError "statusText") invalidParams type detail))
    else if strict_eq_int status 401 then
      Throws (Raised (new_PiSpiAuthError
        (or_else detail (or_else title (VStr "Authentication failed")))
        status (get apiError "statusText")))
    else if strict_eq_int status 403 then
      Throws (Raised (new_PiSpiError
        (or_else detail (or_else title (VStr "Forbidden")))
        status (get apiError "statusText") type detail instance))
    else if strict_eq_int status 404 then
      Throws (Raised (new_PiSpiNotFoundError
        (or_else detail (or_else title (VStr "Resource not found")))
        status (get apiError "statusText")))
    else if strict_eq_int status 429 then
      Throws (Raised (new_PiSpiRateLimitError
        (or_else detail (or_else title (VStr "Rate limit exceeded")))
        status (get apiError "statusText") VUndefined))
    else
      Throws (Raised (new_PiSpiError
        (or_else detail
           (or_else title (or_else (get apiError "message") (VStr "API error"))))
        status (get apiError "statusText") type detail instance))
  else Throws (Rethrown error).

(** An instance as the object it is: the properties [Error] and the
    constructors of src/errors.ts assign, which are there even when they
    hold [undefined] ([stack] is left out; [message] is shown as the
    constructor received it) *)
Definition class_name (n : error_class) : string :=
  match n with
  | PiSpiError => "PiSpiError"
  | PiSpiValidationError => "PiSpiValidationError"
  | PiSpiAuthError => "PiSpiAuthError"
  | PiSpiNotFoundError => "PiSpiNotFoundError"
  | PiSpiRateLimitError => "PiSpiRateLimitError"
  end.

Definition to_object (e : sdk_error) : jsval :=
  VObj ([ ("message", message e); ("name", VStr (class_name (name e)));
          ("statusCode", statusCode e); ("statusText", statusText e);
          ("type", type e); ("detail", detail e); ("instance", instance e) ]
        ++ match name e with
           | PiSpiValidationError => [ ("errors", errors e) ]
           | PiSpiRateLimitError => [ ("retryAfter", retryAfter e) ]
           | _ => []
           end).

(** How the promise of an operation settles *)
Inductive settled :=
| Fulfilled (v : jsval)
| Rejected (error : jsval).

(** [BaseService.execute(operation)]: [await operation()] inside a [try]
    whose [catch] hands the error to [handleApiError] *)
Definition execute (operation : settled) : result :=
  match operation with
  | Fulfilled v => Returns v
  | Rejected error => handleApiError error
  end.

(** The body of every service method before code generation *)
Definition not_generated : jsval :=
  VObj [ ("message",
          VStr ("Service not yet generated. Run " +:+ quote "pnpm run generate"
                +:+ " first.")) ].

End ErrorHandler.

(* ===================================================================== *)
(** * src/query-builder.ts *)
(* ===================================================================== *)

Module QueryBuilder.
Import JS.

(** [string | number | boolean | string[]]: what a filter is given *)
Inductive arg :=
| AStr (s : string)
| ANum (n : number)
| ABool (b : bool)
| AList (l : list string).

(** A value of [QueryParams] *)
Inductive param_value :=
| PStr (s : string)
| PNum (n : number).

Inductive sort_order := asc | desc.

(** [FilterOptions]; the operator is kept as it was passed *)
Record FilterOptions := { operator : arg; value : arg }.

Record builder := {
  params : gmap string param_value;
  filters : list (string * FilterOptions);   (** a [Map], in insertion order *)
  sortField : option string;
  sortOrder : sort_order
}.

(** [new QueryBuilder()] *)
Definition new : builder :=
  {| params := ∅; filters := []; sortField := None; sortOrder := asc |}.

(** A method returns [this] or throws an [Error] *)
Inductive outcome (A : Type) :=
| Ok (a : A)
| Failed (message : string).
Arguments Ok {A} a.
Arguments Failed {A} message.

#[global] Instance outcome_ret : MRet outcome := @Ok.
#[global] Instance outcome_bind : MBind outcome :=
  fun A B f m => match m with Ok a => f a | Failed e => Failed e end.

Definition operators : list string :=
  [ "eq"; "ne"; "gt"; "gte"; "lt"; "lte"; "in"; "contains"; "notContains";
    "beginsWith"; "endsWith"; "exists" ].

Definition isOperator (value : string) : bool := includes operators value.

(** [Map.prototype.set]: a key already present keeps its place *)
Fixpoint map_set (k : string) (o : FilterOptions)
    (m : list (string * FilterOptions)) : list (string * FilterOptions) :=
  match m with
  | [] => [(k, o)]
  | (k', o') :: r =>
      if String.eqb k k' then (k', o) :: r else (k', o') :: map_set k o r
  end.

Fixpoint map_get (k : string) (m : list (string * FilterOptions))
  : option FilterOptions :=
  match m with
  | [] => None
  | (k', o) :: r => if String.eqb k k' then Some o else map_get k r
  end.

Definition with_filter (field : string) (o : FilterOptions) (b : builder)
  : builder :=
  {| params := params b; filters := map_set field o (filters b);
     sortField := sortField b; sortOrder := sortOrder b |}.

(** [filter(field, operatorOrValue, value?)]; [None] is a [value] left out
    or [undefined] *)
Definition filter (field : string) (operatorOrValue : arg)
    (value : option arg) (b : builder) : outcome builder :=
  match value with
  | None =>
      match operatorOrValue with
      | AStr s =>
          if isOperator s then Failed "Filter operator requires a value"
          else Ok (with_filter field
                     {| operator := AStr "eq"; value := operatorOrValue |} b)
      | _ => Ok (with_filter field
                   {| operator := AStr "eq"; value := operatorOrValue |} b)
      end
  | Some filterValue =>
      Ok (with_filter field
            {| operator := operatorOrValue; value := filterValue |} b)
  end.

(** [sort(field, order = 'asc')] *)
Definition sort (field : string) (order : option sort_order) (b : builder)
  : outcome builder :=
  Ok {| params := params b; filters := filters b;
        sortField := Some field; sortOrder := default asc order |}.

Definition with_param (key : string) (v : param_value) (b : builder)
  : builder :=
  {| params := <[key := v]> (params b); filters := filters b;
     sortField := sortField b; sortOrder := sortOrder b |}.

(** [page(page: number | string)] *)
Definition page (page : param_value) (b : builder) : outcome builder :=
  Ok (with_param "page"
        (match page with
         | PStr s => PStr s
         | PNum n => PStr (number_to_string n)
         end) b).

(** [a < z] for an integer literal [z] *)
Definition lt_int (a : number) (z : Z) : bool :=
  match a with
  | NaN => false
  | Inf negative => negative
  | Fin m e =>
      if (0 <=? e)%Z then (m * 10 ^ e <? z)%Z else (m <? z * 10 ^ (- e))%Z
  end.

(** [a > z] for an integer literal [z] *)
Definition gt_int (a : number) (z : Z) : bool :=
  match a with
  | NaN => false
  | Inf negative => negb negative
  | Fin m e =>
      if (0 <=? e)%Z then (z <? m * 10 ^ e)%Z else (z * 10 ^ (- e) <? m)%Z
  end.

(** [size(size: number)] *)
Definition size (size : number) (b : builder) : outcome builder :=
  if lt_int size 1 then Failed "Page size must be at least 1"
  else if gt_int size 100 then Failed "Page size cannot exceed 100"
  else Ok (with_param "size" (PNum size) b).

(** [String(value)], and [value.join(',')] for an array, which is what
    [String] makes of an array of strings too *)
Definition String_of (a : arg) : string :=
  match a with
  | AStr s => s
  | ANum n => number_to_string n
  | ABool true => "true"
  | ABool false => "false"
  | AList l => join_with "," l
  end.

Definition is_str (a : arg) (s : string) : bool :=
  match a with
  | AStr s' => String.eqb s' s
  | _ => false
  end.

(** The loop of [build] over [this.filters.entries()] *)
Fixpoint add_filters (fs : list (string * FilterOptions))
    (result : gmap string param_value) : gmap string param_value :=
  match fs with
  | [] => result
  | (field, {| operator := operator; value := value |}) :: rest =>
      add_filters rest
        (if is_str operator "eq" then
           <[field := PStr (String_of value)]> result
         else if is_str operator "exists" then
           <[field +:+ "[exists]" := PStr (String_of value)]> result
         else
           <[field +:+ "[" +:+ String_of operator +:+ "]" :=
               PStr (match value with
                     | AList l => join_with "," l
                     | _ => String_of value
                     end)]> result)
  end.

(** [build()] *)
Definition build (b : builder) : gmap string param_value :=
  let result := add_filters (filters b) (params b) in
  match sortField b with
  | Some f =>
      if String.eqb f EmptyString then result
      else <["sort" := PStr (match sortOrder b with
                             | desc => "-" +:+ f
                             | asc => f
                             end)]> result
  | None => result
  end.

(** The other methods of the class.  They sit in a module of their own
    because [eq], [lt] and the like are names the standard library has
    too. *)
Module Methods.

(** [eq(field, value)] and the other shorthands: [filter] with three
    arguments *)
Definition eq (field : string) (value : arg) (b : builder) : outcome builder :=
  filter field (AStr "eq") (Some value) b.
Definition ne (field : string) (value : arg) (b : builder) : outcome builder :=
  filter field (AStr "ne") (Some value) b.
Definition gt (field : string) (value : arg) (b : builder) : outcome builder :=
  filter field (AStr "gt") (Some value) b.
Definition gte (field : string) (value : arg) (b : builder) : outcome builder :=
  filter field (AStr "gte") (Some value) b.
Definition lt (field : string) (value : arg) (b : builder) : outcome builder :=
  filter field (AStr "lt") (Some value) b.
Definition lte (field : string) (value : arg) (b : builder) : outcome builder :=
  filter field (AStr "lte") (Some value) b.
Definition in_ (field : string) (values : list string) (b : builder)
  : outcome builder :=
  filter field (AStr "in") (Some (AList values)) b.
Definition contains (field : string) (value : string) (b : builder)
  : outcome builder :=
  filter field (AStr "contains") (Some (AStr value)) b.

(** [sortDesc(field)] *)
Definition sortDesc (field : string) (b : builder) : outcome builder :=
  sort field (Some desc) b.

(** [param(key, value)] *)
Definition param (key : string) (value : param_value) (b : builder)
  : outcome builder :=
  Ok (with_param key value b).

(** [reset()] *)
Definition reset (b : builder) : outcome builder := Ok new.

End Methods.

End QueryBuilder.

(* ===================================================================== *)
(** * src/utils/index.ts *)
(* ===================================================================== *)

Module Utils.
Import JS.

(** As for the model files, the strings are taken to be ASCII: [\s] and
    [\d] are the ASCII classes. *)

(** [/^[A-Z]{2,3}\d{19,22}$/.test(accountNumber)].  Letters and digits
    do not overlap, so each run is taken whole. *)
Definition isValidAccountNumber (accountNumber : string) : bool :=
  let '(letters, rest) := PostGenerate.span is_upper accountNumber in
  let '(digits, tail) := PostGenerate.span is_digit rest in
  (2 <=? String.length letters)%nat && (String.length letters <=? 3)%nat &&
  (19 <=? String.length digits)%nat && (String.length digits <=? 22)%nat &&
  String.eqb tail EmptyString.

(** [[0-9a-f]] under the [i] flag *)
Definition is_hex (c : ascii) : bool :=
  let n := nat_of_ascii c in
  is_digit c || ((97 <=? n)%nat && (n <=? 102)%nat)
             || ((65 <=? n)%nat && (n <=? 70)%nat).

(** [n] characters of a class at the start of [s]: what follows them *)
Fixpoint take (p : ascii -> bool) (n : nat) (s : string) : option string :=
  match n with
  | O => Some s
  | S k =>
      match s with
      | EmptyString => None
      | String c r => if p c then take p k r else None
      end
  end.

(** [uuidRegex.test(alias)]: groups of 8, 4, 4, 4 and 12 hexadecimal
    digits with hyphens between them *)
Definition isValidShidAlias (alias : string) : bool :=
  match
    r ← take is_hex 8 alias; r ← PostGenerate.strip_prefix "-" r;
    r ← take is_hex 4 r; r ← PostGenerate.strip_prefix "-" r;
    r ← take is_hex 4 r; r ← PostGenerate.strip_prefix "-" r;
    r ← take is_hex 4 r; r ← PostGenerate.strip_prefix "-" r;
    take is_hex 12 r
  with
  | Some EmptyString => true
  | _ => false
  end.

(** [[\s-]] *)
Definition is_separator (c : ascii) : bool :=
  PostGenerate.is_space c || Ascii.eqb c "-".

(** [s.replace(/[\s-]/g, '')] *)
Fixpoint remove_separators (s : string) : string :=
  match s with
  | EmptyString => EmptyString
  | String c r =>
      if is_separator c then remove_separators r
      else String c (remove_separators r)
  end.

Definition is_nonzero_digit (c : ascii) : bool :=
  (49 <=? nat_of_ascii c)%nat && (nat_of_ascii c <=? 57)%nat.

(** [/^\+?[1-9]\d{8,12}$/] *)
Definition phoneRegex_test (s : string) : bool :=
  match default s (PostGenerate.strip_prefix "+" s) with
  | EmptyString => false
  | String c r =>
      let '(digits, tail) := PostGenerate.span is_digit r in
      is_nonzero_digit c &&
      (8 <=? String.length digits)%nat && (String.length digits <=? 12)%nat &&
      String.eqb tail EmptyString
  end.

Definition isValidPhoneNumber (phoneNumber : string) : bool :=
  phoneRegex_test (remove_separators phoneNumber).

Definition countryMap : list (string * string) :=
  [ ("CI", "Côte d'Ivoire"); ("SN", "Senegal"); ("BJ", "Benin");
    ("BF", "Burkina Faso"); ("ML", "Mali"); ("NE", "Niger"); ("TG", "Togo");
    ("GW", "Guinea-Bissau") ].

(** [countryMap[accountNumber.substring(0, 2)] || null]; no name of two
    characters or fewer is inherited from [Object.prototype] *)
Definition getCountryFromAccount (accountNumber : string) : option string :=
  PostGenerate.assoc (substring 0 2 accountNumber) countryMap.

(** ** retryWithBackoff *)

(** What a call of [fn] can reject with: an [Error], held by its message,
    or any other value, held by what [String] makes of it *)
Inductive rejection :=
| AnError (message : string)
| Another (text : string).

Inductive attempt (T : Type) :=
| Resolves (v : T)
| Rejects (error : rejection).
Arguments Resolves {T} v.
Arguments Rejects {T} error.

(** [error instanceof Error ? error : new Error(String(error))], as the
    message of the [Error] *)
Definition as_error (error : rejection) : string :=
  match error with
  | AnError message => message
  | Another text => text
  end.

Record run (T : Type) := {
  settles : T + string;  (** the value resolved with, or the message of the
                             [Error] rejected with *)
  calls : nat;           (** how many times [fn] was called *)
  sleeps : list Z        (** the delays slept, in milliseconds, in order *)
}.
Arguments settles {T} r.
Arguments calls {T} r.
Arguments sleeps {T} r.

(** The [for] loop from its iteration [i] on, with [remaining] iterations
    to go; [fn k] is what the call number [k] of [fn] settles with *)
Fixpoint attempts {T : Type} (fn : nat -> attempt T)
    (maxRetries initialDelay : Z) (remaining i : nat)
    (lastError : option string) : run T :=
  match remaining with
  | O =>
      {| settles := inr (default "Retry failed with unknown error" lastError);
         calls := i; sleeps := [] |}
  | S remaining' =>
      match fn i with
      | Resolves v => {| settles := inl v; calls := S i; sleeps := [] |}
      | Rejects error =>
          let r := attempts fn maxRetries initialDelay remaining' (S i)
                     (Some (as_error error)) in
          if (Z.of_nat i <? maxRetries - 1)%Z then
            {| settles := settles r; calls := calls r;
               sleeps := (initialDelay * 2 ^ Z.of_nat i)%Z :: sleeps r |}
          else r
      end
  end.

(** [retryWithBackoff(fn, maxRetries = 3, initialDelay = 1000)], for a
    whole number of retries *)
Definition retryWithBackoff {T : Type} (fn : nat -> attempt T)
    (maxRetries initialDelay : option Z) : run T :=
  let maxRetries := default 3%Z maxRetries in
  let initialDelay := default 1000%Z initialDelay in
  attempts fn maxRetries initialDelay (Z.to_nat maxRetries) 0 None.

End Utils.

(* ===================================================================== *)
(** * The vocabulary of the specification *)
(* ===================================================================== *)

Module Spec.
Import JS.

(** ** Error mapper *)

(** The thrown value is shaped like an HTTP failure *)
Definition http_shaped (error : jsval) : Prop :=
  has_prop error "status" = true /\ has_prop error "statusText" = true /\
  has_prop error "body" = true.

(** Status code to error kind, every other status being generic *)
Definition kinds : list (Z * ErrorHandler.error_class) :=
  [ (400, ErrorHandler.PiSpiValidationError);
    (401, ErrorHandler.PiSpiAuthError);
    (403, ErrorHandler.PiSpiError);
    (404, ErrorHandler.PiSpiNotFoundError);
    (429, ErrorHandler.PiSpiRateLimitError) ]%Z.

Definition kind_of (status : jsval) : ErrorHandler.error_class :=
  match List.find (fun '(z, _) => ErrorHandler.strict_eq_int status z) kinds with
  | Some (_, k) => k
  | None => ErrorHandler.PiSpiError
  end.

Definition not_found_failure : jsval :=
  VObj [ ("status", VNum (Int 404)); ("statusText", VStr "Not Found");
         ("body", VObj [("detail", VStr "missing")]) ].

(** ** Query builder *)

Definition contract_chain : QueryBuilder.outcome QueryBuilder.builder :=
  b ← QueryBuilder.filter "montant" (QueryBuilder.AStr "gte")
         (Some (QueryBuilder.ANum (Int 10000))) QueryBuilder.new;
  b ← QueryBuilder.filter "statut" (QueryBuilder.AStr "eq")
         (Some (QueryBuilder.AStr "IRREVOCABLE")) b;
  b ← QueryBuilder.sort "dateCreation" (Some QueryBuilder.desc) b;
  b ← QueryBuilder.page (QueryBuilder.PNum (Int 1)) b;
  QueryBuilder.size (Int 50) b.

Definition contract_mapping : gmap string QueryBuilder.param_value :=
  <["page" := QueryBuilder.PStr "1"]>
    (<["size" := QueryBuilder.PNum (Int 50)]>
      (<["montant[gte]" := QueryBuilder.PStr "10000"]>
        (<["statut" := QueryBuilder.PStr "IRREVOCABLE"]>
          (<["sort" := QueryBuilder.PStr "-dateCreation"]> ∅)))).

(** [x] is a string that names an operator *)
Definition operator_name (x : QueryBuilder.arg) : Prop :=
  exists s, x = QueryBuilder.AStr s /\
    In s [ "eq"; "ne"; "gt"; "gte"; "lt"; "lte"; "in"; "contains";
           "notContains"; "beginsWith"; "endsWith"; "exists" ].

(** ** Normalizer *)

(** The document has no property [k] (nor has [null], nor a primitive) *)
Definition absent (spec : jsval) (k : string) : Prop :=
  get_opt spec k = VUndefined.

(** Not an object in the sense of [typeof], for which an array is one *)
Definition not_an_object (v : jsval) : Prop :=
  v = VNull \/ typeof v <> TObject.

Definition structurally_invalid (spec : jsval) : Prop :=
  absent spec "openapi" \/ absent spec "info" \/
  absent spec "paths" \/ not_an_object (get_opt spec "paths") \/
  absent spec "components" \/ not_an_object (get_opt spec "components").

Definition no_openapi : jsval :=
  VObj [ ("info", VObj []); ("paths", VObj []); ("components", VObj []) ].

(** An object or an array: what can carry properties *)
Definition has_properties (v : jsval) : Prop :=
  match v with VObj _ | VArr _ _ => True | _ => False end.

(** The key is an HTTP method name, in any case *)
Definition method_key (key : string) : Prop :=
  In (toLowerCase key)
     [ "get"; "post"; "put"; "delete"; "patch"; "options"; "head" ].

(** A segment with its first character in upper case *)
Definition capitalize (segment : string) : string :=
  match segment with
  | EmptyString => EmptyString
  | String c r => String (upper_char c) r
  end.

(** A segment that is not empty and does not start with a brace *)
Definition plain_segment (segment : string) : bool :=
  match segment with
  | EmptyString => false
  | String c _ => negb (Ascii.eqb c "{")
  end.

(** The identifier the specification gives an operation that has none *)
Definition synthesized (method path : string) : string :=
  toLowerCase method +:+
  List.fold_right String.append EmptyString
    (map capitalize (List.filter plain_segment (split "/" path))).

(** The values [Object.values] lists for an object or an array *)
Definition own_values (v : jsval) : list jsval :=
  match v with
  | VObj ps => map snd ps
  | VArr es extra => es ++ map snd extra
  | _ => []
  end.

(** The entries [Object.entries] lists, less those of an array's elements,
    whose keys are indices *)
Definition named_entries (v : jsval) : list (string * jsval) :=
  match v with
  | VObj ps | VArr _ ps => ps
  | _ => []
  end.

Definition nonempty_array (v : jsval) : Prop :=
  exists e es extra, v = VArr (e :: es) extra.

Definition nonempty_string (v : jsval) : Prop :=
  exists s, v = VStr s /\ s <> EmptyString.

(** The invariant as the specification words it *)
Definition operations_complete (spec : jsval) : Prop :=
  isArray (get spec "tags") = true /\
  forall pathItem key value,
    In pathItem (own_values (get spec "paths")) ->
    In (key, value) (named_entries pathItem) -> method_key key ->
    value <> VNull /\ value <> VUndefined /\
    nonempty_array (get_opt value "tags") /\
    nonempty_string (get_opt value "operationId").

(** The invariant the script establishes: it is the operations that are
    objects that get their tags and identifier, and an identifier that was
    there is kept whatever it is *)
Definition operations_repaired (spec : jsval) : Prop :=
  isArray (get spec "tags") = true /\
  forall pathItem key value,
    In pathItem (own_values (get spec "paths")) ->
    In (key, value) (named_entries pathItem) -> method_key key ->
    value <> VNull /\ value <> VUndefined /\
    forall fields, value = VObj fields ->
      nonempty_array (get value "tags") /\
      truthy (get value "operationId") = true /\
      (forall s, get value "operationId" = VStr s -> s <> EmptyString).

(** What a method key is left with after the loop over a path item *)
Definition repaired_value (value : jsval) : Prop :=
  value <> VNull /\ value <> VUndefined /\
  (has_properties value ->
     nonempty_array (get value "tags") /\
     truthy (get value "operationId") = true).

Definition spec_with (paths : list (string * jsval)) : jsval :=
  VObj [ ("openapi", VStr "3.0.0"); ("info", VObj []);
         ("paths", VObj paths); ("components", VObj []) ].

(** [{"/a": {"get": 5}}]: a method key on a value that is no object *)
Definition number_operation : jsval :=
  spec_with [ ("/a", VObj [ ("get", VNum (Int 5)) ]) ].

(** [{"/a": {"get": {"operationId": 7}}}]: an identifier that is a number,
    and the document once normalized *)
Definition numeric_operationId : jsval :=
  spec_with [ ("/a", VObj [ ("get", VObj [ ("operationId", VNum (Int 7)) ]) ]) ].

Definition numeric_operationId_normalized : jsval :=
  VObj [ ("openapi", VStr "3.0.0"); ("info", VObj []);
         ("paths",
          VObj [ ("/a",
                  VObj [ ("get",
                          VObj [ ("operationId", VNum (Int 7));
                                 ("tags", VArr [VStr "Default"] []) ]) ]) ]);
         ("components", VObj []); ("tags", VArr [] []) ].

(** [{"/a": {"get": []}}]: a method key on an array *)
Definition array_operation : jsval :=
  spec_with [ ("/a", VObj [ ("get", VArr [] []) ]) ].

(** [{"/comptes/{numero}/transferts": {"post": {}}}] *)
Definition transfert_operation : jsval :=
  spec_with [ ("/comptes/{numero}/transferts", VObj [ ("post", VObj []) ]) ].

(** [{"/a": {"get": 1e999}}]: a number beyond the range of a double *)
Definition overflowing_operation : jsval :=
  spec_with [ ("/a", VObj [ ("get", VNum (Inf false)) ]) ].

(** A value [JSON.parse] returns, all of whose numbers are finite *)
Fixpoint json (v : jsval) : bool :=
  match v with
  | VUndefined => false
  | VNull | VBool _ | VStr _ => true
  | VNum (Fin _ _) => true
  | VNum _ => false
  | VArr es extra =>
      forallb json es && match extra with [] => true | _ => false end
  | VObj ps => forallb (fun p => json p.2) ps
  end.

(** No HTTP-method key of a path item holds an array *)
Definition no_array_operation (spec : jsval) : Prop :=
  forall pathItem key value,
    In pathItem (own_values (get spec "paths")) ->
    In (key, value) (named_entries pathItem) -> method_key key ->
    isArray value = false.

(** ** Patcher *)

(** A member of an object type, as the correction table describes it *)
Record member := {
  member_name : string;
  member_required : bool;
  member_type : string
}.

Definition required (name type : string) : member :=
  {| member_name := name; member_required := true; member_type := type |}.
Definition optional (name type : string) : member :=
  {| member_name := name; member_required := false; member_type := type |}.

Definition member_line (m : member) : string :=
  "    " +:+ member_name m +:+
  (if member_required m then EmptyString else "?") +:+
  ": " +:+ member_type m +:+ ";".

(** The text of an object type, one member per line *)
Definition object_type (members : list member) : string :=
  PostGenerate.lines ("{" :: map member_line members ++ ["}"]).

Definition CompteTransfertIntraRequest_members : list member :=
  [ required "txId" "string"; required "montant" "number";
    optional "motif" "string"; optional "payeurNumero" "string";
    optional "payeNumero" "string"; optional "payeurAlias" "string";
    optional "payeAlias" "string" ].

Definition empty_CompteTransfertIntraRequest : string :=
  "export type CompteTransfertIntraRequest = ;".

Definition repaired_CompteTransfertIntraRequest : string :=
  "export type CompteTransfertIntraRequest = " +:+
  object_type CompteTransfertIntraRequest_members +:+ ";".

Definition empty_SomeUnknownType : string :=
  "export type SomeUnknownType = ;".

(** The names of the empty type aliases of a text: what
    [/export type (\w+) = \s*;/] captures, wherever it matches *)
Fixpoint emptyTypeNames (text : string) : list string :=
  match PostGenerate.match_emptyType text with
  | Some (name, _) => [name]
  | None => []
  end ++
  match text with
  | EmptyString => []
  | String _ rest => emptyTypeNames rest
  end.

(** An inline [remise] field with an empty body, as it stands in a file:
    the white space before it, whether it carries a [?], and the white
    space between the colon and the semicolon *)
Record remise_field := {
  leading : string;
  question_mark : bool;
  inner : string
}.

Fixpoint all_space (s : string) : bool :=
  match s with
  | EmptyString => true
  | String c r => PostGenerate.is_space c && all_space r
  end.

Definition well_formed (f : remise_field) : Prop :=
  leading f <> EmptyString /\ all_space (leading f) = true /\
  all_space (inner f) = true.

(** The field as written: [remise: ;] or [remise?: ;] after white space *)
Definition field_text (f : remise_field) : string :=
  leading f +:+ "remise" +:+
  (if question_mark f then "?" else EmptyString) +:+ ":" +:+ inner f +:+ ";".

(** The field once repaired: always with the [?] *)
Definition field_repaired (f : remise_field) : string :=
  leading f +:+ "remise?: " +:+
  object_type [ optional "montant" "number"; optional "taux" "number" ].

(** A text cut at its fields: what comes before each of them, and what
    comes after the last *)
Fixpoint assemble (render : remise_field -> string)
    (pieces : list (string * remise_field)) (rest : string) : string :=
  match pieces with
  | [] => rest
  | (before, f) :: more => before +:+ render f +:+ assemble render more rest
  end.

(** The text holds such a field somewhere *)
Definition has_field (text : string) : Prop :=
  exists before f after,
    well_formed f /\ text = before +:+ field_text f +:+ after.

(** [t] differs from the literal [p] at a character both have: whatever
    follows [t], [p] does not start there *)
Fixpoint clash (p t : string) : bool :=
  match p, t with
  | String a p', String b t' => if Ascii.eqb a b then clash p' t' else true
  | _, _ => false
  end.

(** No [remise:] can start inside [s], whatever text follows *)
Fixpoint inert (s : string) : bool :=
  match s with
  | EmptyString => true
  | String _ r => clash "remise:" s && inert r
  end.

(** The character [w] occurs nowhere in [p] *)
Fixpoint avoids (w : ascii) (p : string) : bool :=
  match p with
  | EmptyString => true
  | String a p' => negb (Ascii.eqb a w) && avoids w p'
  end.

(** The same fields, in the same order *)
Definition same_fields (a b : list (string * remise_field)) : Prop :=
  map snd a = map snd b.

(** Two fields, one required and one optional *)
Definition two_remise_fields : string :=
  PostGenerate.lines
    [ "export type Frais = {"; "    remise: ;"; "    remise?:  ;"; "};" ].

Definition two_remise_fields_repaired : string :=
  "export type Frais = {" +:+
  field_repaired {| leading := str1 newline +:+ "    ";
                    question_mark := false; inner := " " |} +:+
  field_repaired {| leading := str1 newline +:+ "    ";
                    question_mark := true; inner := "  " |} +:+
  str1 newline +:+ "};".

(** [transfert_operation] once normalized *)
Definition transfert_operation_repaired : jsval :=
  VObj [ ("openapi", VStr "3.0.0"); ("info", VObj []);
         ("paths",
          VObj [ ("/comptes/{numero}/transferts",
                  VObj [ ("post",
                          VObj [ ("tags", VArr [VStr "Default"] []);
                                 ("operationId",
                                  VStr "postComptesTransferts") ]) ]) ]);
         ("components", VObj []); ("tags", VArr [] []) ].

End Spec.

(* ===================================================================== *)
(** * Further vocabulary *)
(* ===================================================================== *)

Module Behaviour.
Import JS.

(** ** Query builder *)

(** The key [build] renders a filter under *)
Definition filter_key (field : string) (o : QueryBuilder.FilterOptions)
  : string :=
  if QueryBuilder.is_str (QueryBuilder.operator o) "eq" then field
  else field +:+ "[" +:+ QueryBuilder.String_of (QueryBuilder.operator o)
             +:+ "]".

(** The [sort] entry, when a sort field that is not empty is set *)
Definition sort_entry (b : QueryBuilder.builder) : option string :=
  match QueryBuilder.sortField b with
  | None => None
  | Some f =>
      if String.eqb f EmptyString then None
      else Some (match QueryBuilder.sortOrder b with
                 | QueryBuilder.desc => "-" +:+ f
                 | QueryBuilder.asc => f
                 end)
  end.

(** The last of the filters that is rendered under the key [k] *)
Fixpoint last_filter (k : string)
    (fs : list (string * QueryBuilder.FilterOptions))
  : option QueryBuilder.FilterOptions :=
  match fs with
  | [] => None
  | (field, o) :: rest =>
      match last_filter k rest with
      | Some o' => Some o'
      | None => if String.eqb (filter_key field o) k then Some o else None
      end
  end.

(** What the built mapping holds under [k]: the sort entry first, then the
    last filter rendered there, then the parameter *)
Definition built (b : QueryBuilder.builder) (k : string)
  : option QueryBuilder.param_value :=
  match (if String.eqb k "sort" then sort_entry b else None) with
  | Some s => Some (QueryBuilder.PStr s)
  | None =>
      match last_filter k (QueryBuilder.filters b) with
      | Some o =>
          Some (QueryBuilder.PStr
                  (QueryBuilder.String_of (QueryBuilder.value o)))
      | None => QueryBuilder.params b !! k
      end
  end.

(** A step of a chain of calls *)
Inductive call :=
| CFilter (field : string) (operatorOrValue : QueryBuilder.arg)
    (value : option QueryBuilder.arg)
| CSort (field : string) (order : option QueryBuilder.sort_order)
| CPage (page : QueryBuilder.param_value)
| CSize (size : number)
| CParam (key : string) (value : QueryBuilder.param_value)
| CReset.

Definition perform (c : call) (b : QueryBuilder.builder)
  : QueryBuilder.outcome QueryBuilder.builder :=
  match c with
  | CFilter field x value => QueryBuilder.filter field x value b
  | CSort field order => QueryBuilder.sort field order b
  | CPage page => QueryBuilder.page page b
  | CSize size => QueryBuilder.size size b
  | CParam key value => QueryBuilder.Methods.param key value b
  | CReset => QueryBuilder.Methods.reset b
  end.

(** ** Error mapper *)

(** The first truthy value of a list, else [fallback] *)
Fixpoint first_truthy (vs : list jsval) (fallback : jsval) : jsval :=
  match vs with
  | [] => fallback
  | v :: rest => if truthy v then v else first_truthy rest fallback
  end.

(** The text a class of error falls back on *)
Definition fallback_message (status : jsval) : string :=
  if ErrorHandler.strict_eq_int status 400 then "Validation error"
  else if ErrorHandler.strict_eq_int status 401 then "Authentication failed"
  else if ErrorHandler.strict_eq_int status 403 then "Forbidden"
  else if ErrorHandler.strict_eq_int status 404 then "Resource not found"
  else if ErrorHandler.strict_eq_int status 429 then "Rate limit exceeded"
  else "API error".

(** ** Normalizer *)

(** The key is one of the method names, in any case *)
Definition is_method (key : string) : bool :=
  includes PreGenerate.httpMethods (toLowerCase key).

Definition nullish (v : jsval) : bool :=
  match v with VNull | VUndefined => true | _ => false end.

(** An entry of a path item that the normalizer removes *)
Definition null_operation (e : string * jsval) : bool :=
  is_method e.1 && nullish e.2.

(** An operation without a list of tags that is not empty *)
Definition untagged (v : jsval) : bool :=
  negb (truthy (get v "tags")) || negb (isArray (get v "tags")) ||
  PreGenerate.empty_array (get v "tags").

(** An entry of a path item that is given the default tag *)
Definition untagged_operation (e : string * jsval) : bool :=
  is_method e.1 && negb (nullish e.2) && is_object_type e.2 && untagged e.2.

(** How many entries of the path items of [paths] satisfy [p] *)
Definition tally (p : string * jsval -> bool) (paths : jsval) : nat :=
  list_sum
    (map (fun pathItem =>
            List.length (List.filter p (Spec.named_entries pathItem)))
         (Spec.own_values paths)).

(** The entries that are not null operations, and those whose key is not a
    method name *)
Definition kept (es : list (string * jsval)) : list (string * jsval) :=
  List.filter (fun e => negb (null_operation e)) es.
Definition other_entries (es : list (string * jsval))
  : list (string * jsval) :=
  List.filter (fun e => negb (is_method e.1)) es.

(** [es'] has the keys of [es] in their order, less the null operations,
    and the entries of [es] that are not operations *)
Definition layout_kept (es es' : list (string * jsval)) : Prop :=
  map fst es' = map fst (kept es) /\ other_entries es' = other_entries es.

Definition same_layout (pathItem pathItem' : jsval) : Prop :=
  match pathItem with
  | VObj es => exists es', pathItem' = VObj es' /\ layout_kept es es'
  | VArr elems es =>
      exists es', pathItem' = VArr elems es' /\ layout_kept es es'
  | _ => pathItem' = pathItem
  end.

(** No [/] in a string *)
Fixpoint no_slash (s : string) : bool :=
  match s with
  | EmptyString => true
  | String c r => negb (Ascii.eqb c "/") && no_slash r
  end.

(** The end of a path, or the start of its next segment *)
Definition at_boundary (s : string) : bool :=
  match s with
  | EmptyString => true
  | String c _ => Ascii.eqb c "/"
  end.

(** A path parameter: [{name}] *)
Definition parameter (name : string) : string := "{" +:+ name +:+ "}".

(** ** Utilities *)

(** Every character of [s] is of the class [p] *)
Fixpoint all_of (p : ascii -> bool) (s : string) : bool :=
  match s with
  | EmptyString => true
  | String c r => p c && all_of p r
  end.

(** The delays slept before the calls 1 to [n] of a retried function *)
Definition delays (initialDelay : Z) (n : nat) : list Z :=
  map (fun i => (initialDelay * 2 ^ Z.of_nat i)%Z) (seq 0 n).

(** ** Patcher *)

(** The text up to the first line terminator *)
Definition line_of (s : string) : string :=
  (PostGenerate.span PostGenerate.not_line_terminator s).1.

(** [KEY: '], what the pattern of an assignment starts with *)
Definition assignment_start (key : string) : string :=
  key +:+ ": " +:+ str1 PostGenerate.apostrophe.

(** What [/(\s+)(remise)\??:\s*;/] asks for after its white space: the
    text after the match *)
Definition remiseField_tail (s : string) : option string :=
  rest ← PostGenerate.strip_prefix "remise" s;
  let rest := default rest (PostGenerate.strip_prefix "?" rest) in
  rest ← PostGenerate.strip_prefix ":" rest;
  let '(_, rest) := PostGenerate.span PostGenerate.is_space rest in
  PostGenerate.strip_prefix ";" rest.

(** What [/remise:\s*;/] asks for after [remise:] *)
Definition remiseType_tail (s : string) : option string :=
  let '(_, rest) := PostGenerate.span PostGenerate.is_space s in
  PostGenerate.strip_prefix ";" rest.

(** The text is empty or starts with a character that is no white space *)
Definition starts_black (s : string) : bool :=
  match s with
  | EmptyString => true
  | String c _ => negb (PostGenerate.is_space c)
  end.

Definition black (c : ascii) : bool := negb (PostGenerate.is_space c).
Definition not_r (c : ascii) : bool := negb (Ascii.eqb "r" c).

(** A pass entered with [n] fixes counted before *)
Definition counted_from (n : nat) (st : PostGenerate.pass) : PostGenerate.pass :=
  {| PostGenerate.content := PostGenerate.content st;
     PostGenerate.fixedCount := PostGenerate.fixedCount st + n;
     PostGenerate.modified := PostGenerate.modified st |}.

(** A file of the models directory after the patcher has run on it alone,
    and the fixes counted for it *)
Definition patched (e : string * string) : string * string :=
  (e.1,
   if PostGenerate.endsWith_ts e.1
   then default e.2 (PostGenerate.on_disk e.2 <$> PostGenerate.patch e.2)
   else e.2).
Definition fixes_in (e : string * string) : nat :=
  if PostGenerate.endsWith_ts e.1
  then default 0%nat (PostGenerate.fixes <$> PostGenerate.patch e.2)
  else 0%nat.

(** The loop over the empty types of the file comes to its end *)
Definition patchable (e : string * string) : Prop :=
  PostGenerate.endsWith_ts e.1 = true -> is_Some (PostGenerate.patch e.2).

End Behaviour.

(* ===================================================================== *)
(** * Properties *)
(* ===================================================================== *)

Section ErrorMapper.
Import JS ErrorHandler Spec.

Lemma isApiError_shaped (error : jsval) :
  isApiError error = true <-> http_shaped error.
Proof.
  unfold isApiError, http_shaped. split.
  - intros H. repeat (apply andb_prop in H as [H ?]). auto.
  - intros (Hs & Ht & Hb). rewrite Hs, Ht, Hb.
    destruct error; simpl in *; try discriminate; reflexivity.
Qed.

Lemma kind_of_cases (status : jsval) :
  kind_of status =
    if strict_eq_int status 400 then PiSpiValidationError
    else if strict_eq_int status 401 then PiSpiAuthError
    else if strict_eq_int status 403 then PiSpiError
    else if strict_eq_int status 404 then PiSpiNotFoundError
    else if strict_eq_int status 429 then PiSpiRateLimitError
    else PiSpiError.
Proof.
  unfold kind_of, kinds; simpl.
  repeat (destruct (strict_eq_int status _); [reflexivity|]). reflexivity.
Qed.

(** C6. [handleApiError] never returns.  A thrown value that has [status],
    [statusText] and [body] is answered with a new SDK error whose class
    follows the status: validation for 400, authentication for 401, the
    generic class for 403, not-found for 404, rate-limit for 429 and the
    generic class for anything else; the failure
    [{status: 404, statusText: 'Not Found', body: {detail: 'missing'}}]
    raises a PiSpiNotFoundError with message ['missing'].  Any other value
    is thrown again as it came. *)
Theorem handleApiError_classifies_or_rethrows (error : jsval) :
  (exists t, handleApiError error = Throws t) /\
  (http_shaped error ->
     exists e, handleApiError error = Throws (Raised e) /\
               name e = kind_of (get error "status") /\
               statusCode e = get error "status") /\
  (~ http_shaped error -> handleApiError error = Throws (Rethrown error)) /\
  (exists e, handleApiError not_found_failure = Throws (Raised e) /\
             name e = PiSpiNotFoundError /\ message e = VStr "missing").
Proof.
  split; [|split; [|split]].
  - unfold handleApiError.
    repeat match goal with
           | |- context [if ?b then _ else _] => destruct b
           end; eexists; reflexivity.
  - intros Hs. apply isApiError_shaped in Hs.
    unfold handleApiError. rewrite Hs, kind_of_cases.
    repeat match goal with
           | |- context [strict_eq_int ?s ?z] => destruct (strict_eq_int s z)
           end; eexists; (split; [reflexivity|split; reflexivity]).
  - intros Hn. unfold handleApiError.
    destruct (isApiError error) eqn:E; [|reflexivity].
    apply isApiError_shaped in E. contradiction.
  - eexists. split; [vm_compute; reflexivity|]. split; reflexivity.
Qed.

Lemma handleApiError_classifies_or_rethrows_witness :
  http_shaped not_found_failure /\ ~ http_shaped (VStr "boom") /\
  (exists e, handleApiError not_found_failure = Throws (Raised e) /\
             name e = PiSpiNotFoundError) /\
  handleApiError (VStr "boom") = Throws (Rethrown (VStr "boom")).
Proof.
  assert (Hs : http_shaped not_found_failure) by (repeat split).
  assert (Hn : ~ http_shaped (VStr "boom")) by (intros [H _]; discriminate H).
  split; [exact Hs|]. split; [exact Hn|]. split.
  - destruct (handleApiError_classifies_or_rethrows not_found_failure)
      as (_ & H & _ & _).
    destruct (H Hs) as (e & He & Hk & _). exists e. split; [exact He|].
    rewrite Hk. reflexivity.
  - destruct (handleApiError_classifies_or_rethrows (VStr "boom"))
      as (_ & _ & H & _).
    exact (H Hn).
Defined.

End ErrorMapper.

Section QueryBuilderFacts.
Import JS QueryBuilder Spec.

Lemma isOperator_spec (s : string) :
  isOperator s = true <-> operator_name (AStr s).
Proof.
  unfold isOperator, includes, operators, operator_name. split.
  - intros H. exists s. split; [reflexivity|].
    apply existsb_exists in H as (x & Hin & Heq).
    apply String.eqb_eq in Heq. subst x. exact Hin.
  - intros (s' & [= <-] & Hin). apply existsb_exists.
    exists s. split; [exact Hin|apply String.eqb_refl].
Qed.

Lemma map_get_set (k : string) (o : FilterOptions)
    (m : list (string * FilterOptions)) :
  map_get k (map_set k o m) = Some o.
Proof.
  induction m as [|[k' o'] m IH]; simpl.
  - rewrite String.eqb_refl. reflexivity.
  - destruct (String.eqb k k') eqn:E; simpl; rewrite E; [reflexivity|exact IH].
Qed.

(** C7. The chain [filter('montant','gte',10000)],
    [filter('statut','eq','IRREVOCABLE')], [sort('dateCreation','desc')],
    [page(1)], [size(50)] builds exactly the mapping
    [{ page: "1", size: 50, "montant[gte]": "10000", statut: "IRREVOCABLE",
       sort: "-dateCreation" }]: the [eq] filter is a bare entry, the [gte]
    filter is bracketed with its value as a string, the page is a string,
    the size a number, and the descending sort one [sort] entry that
    starts with [-]. *)
Theorem build_contract_chain :
  (b ← contract_chain; Ok (build b)) = Ok contract_mapping /\
  map_to_list contract_mapping ≡ₚ
    [ ("page", PStr "1"); ("size", PNum (Int 50));
      ("montant[gte]", PStr "10000"); ("statut", PStr "IRREVOCABLE");
      ("sort", PStr "-dateCreation") ].
Proof.
  split; [vm_compute; reflexivity|].
  unfold contract_mapping.
  repeat (rewrite map_to_list_insert by (vm_compute; reflexivity)).
  rewrite map_to_list_empty. reflexivity.
Qed.

(** C10. A call [filter(field, x)] with two arguments throws
    ['Filter operator requires a value'] when [x] is a string that is one
    of the twelve operator names; in every other case it stores [x] as the
    value of an [eq] filter on [field].  So a filter made by such a call
    never has an operator name for its value. *)
Theorem filter_two_arguments (field : string) (x : arg) (b : builder) :
  (operator_name x ->
     filter field x None b = Failed "Filter operator requires a value") /\
  (~ operator_name x ->
     exists b', filter field x None b = Ok b' /\
       map_get field (filters b') =
         Some {| operator := AStr "eq"; value := x |} /\
       params b' = params b /\ sortField b' = sortField b /\
       sortOrder b' = sortOrder b) /\
  (forall b', filter field x None b = Ok b' ->
     exists o, map_get field (filters b') = Some o /\
       value o = x /\ ~ operator_name (value o)).
Proof.
  assert (Hok : ~ operator_name x ->
    filter field x None b =
      Ok (with_filter field {| operator := AStr "eq"; value := x |} b)).
  { intros Hn. unfold filter. destruct x as [s| | |]; try reflexivity.
    destruct (isOperator s) eqn:E; [|reflexivity].
    apply isOperator_spec in E. contradiction. }
  assert (Hfail : operator_name x ->
    filter field x None b = Failed "Filter operator requires a value").
  { intros (s & -> & Hin). unfold filter.
    assert (E : isOperator s = true)
      by (apply isOperator_spec; exists s; split; [reflexivity|exact Hin]).
    rewrite E. reflexivity. }
  split; [exact Hfail|]. split.
  - intros Hn. eexists. split; [apply Hok, Hn|].
    simpl. rewrite map_get_set. repeat split.
  - intros b' Hb'.
    assert (Hn : ~ operator_name x).
    { intros Hop. rewrite (Hfail Hop) in Hb'. discriminate Hb'. }
    rewrite (Hok Hn) in Hb'. injection Hb' as <-.
    eexists. simpl. rewrite map_get_set.
    split; [reflexivity|]. split; [reflexivity|exact Hn].
Qed.

Lemma filter_two_arguments_witness :
  filter "statut" (AStr "gte") None new =
    Failed "Filter operator requires a value" /\
  (exists b', filter "statut" (AStr "IRREVOCABLE") None new = Ok b' /\
     map_get "statut" (filters b') =
       Some {| operator := AStr "eq"; value := AStr "IRREVOCABLE" |}) /\
  (exists o, map_get "montant"
               (filters (with_filter "montant"
                  {| operator := AStr "eq"; value := ANum (Int 10000) |} new))
             = Some o /\ value o = ANum (Int 10000)).
Proof.
  assert (Hop : operator_name (AStr "gte")).
  { exists "gte". split; [reflexivity|]. simpl. tauto. }
  assert (Hn : ~ operator_name (AStr "IRREVOCABLE")).
  { intros (s & [= <-] & Hin). simpl in Hin.
    repeat (destruct Hin as [Hin|Hin]; [discriminate Hin|]). exact Hin. }
  split; [|split].
  - exact (proj1 (filter_two_arguments "statut" (AStr "gte") new) Hop).
  - destruct (proj1 (proj2 (filter_two_arguments "statut"
                              (AStr "IRREVOCABLE") new)) Hn)
      as (b' & Hb & Hg & _).
    exists b'. split; [exact Hb|exact Hg].
  - destruct (proj2 (proj2 (filter_two_arguments "montant"
                              (ANum (Int 10000)) new)) _ eq_refl)
      as (o & Ho & Hv & _).
    exists o. split; [exact Ho|exact Hv].
Defined.

End QueryBuilderFacts.

Section Normalizer.
Import JS PreGenerate Spec.

Lemma lookup_set_own_same (k : string) (x : jsval) ps :
  lookup_own k (set_own k x ps) = Some x.
Proof.
  induction ps as [|[k' v] ps IH]; simpl.
  - rewrite String.eqb_refl. reflexivity.
  - destruct (String.eqb k k') eqn:E; simpl; rewrite E; [reflexivity|exact IH].
Qed.

Lemma lookup_set_own_other (k k' : string) (x : jsval) ps :
  k <> k' -> lookup_own k' (set_own k x ps) = lookup_own k' ps.
Proof.
  intros Hne. induction ps as [|[k0 v] ps IH]; simpl.
  - destruct (String.eqb k' k) eqn:E; [|reflexivity].
    apply String.eqb_eq in E. congruence.
  - destruct (String.eqb k k0) eqn:E; simpl.
    + apply String.eqb_eq in E. subst k0.
      destruct (String.eqb k' k) eqn:E'; [|reflexivity].
      apply String.eqb_eq in E'. congruence.
    + destruct (String.eqb k' k0); [reflexivity|exact IH].
Qed.

Lemma get_set_same (v : jsval) (k : string) (x : jsval) :
  has_properties v -> get (set v k x) k = x.
Proof.
  destruct v; simpl; try contradiction; intros _;
    rewrite lookup_set_own_same; reflexivity.
Qed.

Lemma get_set_other (v : jsval) (k k' : string) (x : jsval) :
  k <> k' -> get (set v k x) k' = get v k'.
Proof.
  intros Hne. destruct v; simpl; try reflexivity;
    rewrite (lookup_set_own_other k k') by exact Hne; reflexivity.
Qed.

Lemma set_has_properties (v : jsval) (k : string) (x : jsval) :
  has_properties v -> has_properties (set v k x).
Proof. destruct v; simpl; auto. Qed.

Lemma validate_passes (spec : jsval) :
  validate spec = Normal tt ->
  has_properties spec /\
  truthy (get spec "openapi") = true /\ truthy (get spec "info") = true /\
  truthy (get spec "paths") = true /\
  is_object_type (get spec "paths") = true /\
  truthy (get spec "components") = true /\
  is_object_type (get spec "components") = true.
Proof.
  unfold validate, read.
  destruct spec; simpl; try discriminate;
    repeat match goal with
           | |- context [truthy ?v] => destruct (truthy v) eqn:?
           | |- context [is_object_type ?v] => destruct (is_object_type v) eqn:?
           end; simpl; try discriminate; intros _; repeat split; assumption.
Qed.



Lemma method_key_includes (key : string) :
  includes httpMethods (toLowerCase key) = true <-> method_key key.
Proof.
  unfold includes, httpMethods, method_key. rewrite existsb_exists. split.
  - intros (x & Hin & Heq). apply String.eqb_eq in Heq. subst x. exact Hin.
  - intros Hin. exists (toLowerCase key). split; [exact Hin|].
    apply String.eqb_refl.
Qed.

Lemma plain_segment_test (p : string) :
  negb (String.eqb p EmptyString) && negb (startsWith p "{") = plain_segment p.
Proof.
  destruct p as [|c p]; [reflexivity|].
  cbn [plain_segment startsWith String.eqb negb andb].
  rewrite Ascii.eqb_sym. destruct (Ascii.eqb c "{"); [|reflexivity].
  destruct p; reflexivity.
Qed.

Lemma capitalize_charAt_slice (p : string) :
  toUpperCase (charAt0 p) +:+ slice1 p = capitalize p.
Proof. destruct p; reflexivity. Qed.

Lemma synthesized_operationIdFor (key path : string) :
  operationIdFor key path = synthesized key path.
Proof.
  unfold operationIdFor, synthesized, pathParts. f_equal.
  rewrite (List.filter_ext _ _ plain_segment_test).
  rewrite (List.map_ext _ _ capitalize_charAt_slice).
  induction (map capitalize _) as [|p l IH]; [reflexivity|].
  cbn [join fold_right]. rewrite IH. reflexivity.
Qed.

Lemma synthesized_nonempty (key path : string) :
  method_key key -> synthesized key path <> EmptyString.
Proof.
  unfold method_key, synthesized. intros Hin.
  simpl in Hin.
  repeat (destruct Hin as [<-|Hin]; [discriminate|]). contradiction.
Qed.

Lemma truthy_string (s : string) :
  s <> EmptyString -> truthy (VStr s) = true.
Proof. destruct s; [congruence|reflexivity]. Qed.

(** What [fixOperation] leaves behind on an object *)
Lemma fixOperation_object (path key : string) (value : jsval) (c : counters) :
  has_properties value -> method_key key ->
  has_properties (fixOperation path key value c).1 /\
  (isArray value = isArray (fixOperation path key value c).1) /\
  nonempty_array (get (fixOperation path key value c).1 "tags") /\
  truthy (get (fixOperation path key value c).1 "operationId") = true /\
  (truthy (get value "operationId") = false ->
     get (fixOperation path key value c).1 "operationId" =
       VStr (synthesized key path)).
Proof.
  intros Hp Hk. unfold fixOperation.
  set (tagged := negb (truthy (get value "tags")) ||
                 negb (isArray (get value "tags")) ||
                 empty_array (get value "tags")).
  assert (Ht : exists value1 c1,
    (if tagged
     then (set value "tags" (VArr [VStr "Default"] []), count_fixed c)
     else (value, c)) = (value1, c1) /\
    has_properties value1 /\ isArray value = isArray value1 /\
    nonempty_array (get value1 "tags") /\
    get value1 "operationId" = get value "operationId").
  { destruct tagged eqn:E; eexists _, _; (split; [reflexivity|]).
    - split; [apply set_has_properties, Hp|].
      split; [destruct value; reflexivity|].
      rewrite get_set_same by exact Hp. split; [repeat eexists|].
      apply get_set_other. discriminate.
    - split; [exact Hp|]. split; [reflexivity|]. split; [|reflexivity].
      subst tagged. destruct (get value "tags") as [| | | | |[|e es] extra|];
        simpl in E; rewrite ?orb_false_r, ?orb_true_r in E; try discriminate.
      repeat eexists. }
  destruct Ht as (value1 & c1 & -> & Hp1 & Ha1 & Ht1 & Ho1). simpl.
  rewrite Ho1.
  destruct (truthy (get value "operationId")) eqn:Eo; simpl.
  - split; [exact Hp1|]. split; [exact Ha1|]. split; [exact Ht1|].
    split; [rewrite Ho1; exact Eo|discriminate].
  - split; [apply set_has_properties, Hp1|].
    split; [destruct value1; simpl in *; try contradiction; exact Ha1|].
    rewrite get_set_other by discriminate.
    split; [exact Ht1|].
    rewrite get_set_same by exact Hp1.
    rewrite synthesized_operationIdFor.
    split; [apply truthy_string, synthesized_nonempty, Hk|].
    reflexivity.
Qed.

Lemma fixEntries_repaired (path : string) entries :
  forall c key value,
    In (key, value) (fixEntries path entries c).1 -> method_key key ->
    repaired_value value.
Proof.
  induction entries as [|[k0 v0] rest IH]; intros c key value Hin Hk;
    [contradiction|].
  cbn [fixEntries] in Hin.
  destruct (includes httpMethods (toLowerCase k0)) eqn:Em.
  - apply method_key_includes in Em.
    destruct v0;
      try (apply IH in Hin; [exact Hin|exact Hk]);
      cbn [is_object_type typeof negb] in Hin.
    1-3: destruct (fixEntries path rest c) as [rest' c'] eqn:Er;
         destruct Hin as [[= <- <-]|Hin];
         [repeat split; try discriminate; contradiction
         |apply (IH c key value); [rewrite Er; exact Hin|exact Hk]].
    1-2: match type of Hin with
         | context [fixOperation ?p ?k ?v ?c0] =>
             pose proof (fixOperation_object p k v c0 I Em)
               as (Hp & _ & Ht & Ho & _);
             destruct (fixOperation p k v c0) as [value' c1] eqn:Ef
         end;
         destruct (fixEntries path rest c1) as [rest' c2] eqn:Er;
         destruct Hin as [[= <- <-]|Hin];
         [simpl in *; repeat split;
            try (destruct value'; try contradiction; discriminate); assumption
         |apply (IH c1 key value); [rewrite Er; exact Hin|exact Hk]].
  - destruct (fixEntries path rest c) as [rest' c'] eqn:Er.
    destruct Hin as [[= <- <-]|Hin].
    + apply method_key_includes in Hk. congruence.
    + apply (IH c key value); [rewrite Er; exact Hin|exact Hk].
Qed.

Lemma fixPathItem_repaired (path : string) (pathItem : jsval) (c : counters) :
  forall key value,
    In (key, value) (named_entries (fixPathItem path pathItem c).1) ->
    method_key key -> repaired_value value.
Proof.
  intros key value. unfold fixPathItem.
  destruct pathItem as [| | | | |es extra|ps]; simpl; try contradiction.
  1-3: match goal with
       | |- context [if ?b then _ else _] => destruct b
       end; simpl; contradiction.
  - destruct (fixEntries path extra c) as [extra' c'] eqn:E. simpl.
    intros Hin. apply (fixEntries_repaired path extra c). rewrite E. exact Hin.
  - destruct (fixEntries path ps c) as [ps' c'] eqn:E. simpl.
    intros Hin. apply (fixEntries_repaired path ps c). rewrite E. exact Hin.
Qed.

(** A method value of the output is an array only if it was one *)
Lemma fixEntries_isArray (path : string) entries :
  forall c key value',
    In (key, value') (fixEntries path entries c).1 -> method_key key ->
    exists value, In (key, value) entries /\ isArray value' = isArray value.
Proof.
  induction entries as [|[k0 v0] rest IH]; intros c key value' Hin Hk;
    [contradiction|].
  assert (Hrest : forall c0, In (key, value') (fixEntries path rest c0).1 ->
    exists value, In (key, value) ((k0, v0) :: rest) /\
                  isArray value' = isArray value).
  { intros c0 H. destruct (IH c0 key value' H Hk) as (v & Hv & Ha).
    exists v. split; [right; exact Hv|exact Ha]. }
  assert (Hkeep : forall c0 v,
    isArray v = isArray v0 ->
    In (key, value')
      (let '(rest', c') := fixEntries path rest c0 in ((k0, v) :: rest', c')).1 ->
    exists value, In (key, value) ((k0, v0) :: rest) /\
                  isArray value' = isArray value).
  { intros c0 v Hv H. destruct (fixEntries path rest c0) as [rest' c'] eqn:Er.
    destruct H as [[= <- <-]|H].
    - exists v0. split; [left; reflexivity|exact Hv].
    - apply (Hrest c0). rewrite Er. exact H. }
  cbn [fixEntries] in Hin.
  destruct (includes httpMethods (toLowerCase k0)) eqn:Em.
  - apply method_key_includes in Em.
    destruct v0; cbn [is_object_type typeof negb] in Hin;
      try (apply Hrest in Hin; exact Hin);
      try (apply Hkeep in Hin; [exact Hin|reflexivity]).
    all: match type of Hin with
         | context [fixOperation ?p ?k ?v ?c0] =>
             pose proof (fixOperation_object p k v c0 I Em) as (_ & Ha & _);
             destruct (fixOperation p k v c0) as [value1 c1]
         end;
         apply Hkeep in Hin; [exact Hin|symmetry; exact Ha].
  - apply Hkeep in Hin; [exact Hin|reflexivity].
Qed.

Lemma fixPathItem_isArray (path : string) (pathItem : jsval) (c : counters) :
  forall key value',
    In (key, value') (named_entries (fixPathItem path pathItem c).1) ->
    method_key key ->
    exists value,
      In (key, value) (named_entries pathItem) /\
      isArray value' = isArray value.
Proof.
  intros key value'. unfold fixPathItem.
  destruct pathItem as [| | | | |es extra|ps]; simpl; try contradiction.
  1-3: match goal with
       | |- context [if ?b then _ else _] => destruct b
       end; simpl; contradiction.
  - destruct (fixEntries path extra c) as [extra' c'] eqn:E. simpl.
    intros Hin. apply (fixEntries_isArray path extra c). rewrite E. exact Hin.
  - destruct (fixEntries path ps c) as [ps' c'] eqn:E. simpl.
    intros Hin. apply (fixEntries_isArray path ps c). rewrite E. exact Hin.
Qed.

Lemma fixPathEntries_origin entries :
  forall c pathItem',
    In pathItem' (map snd (fixPathEntries entries c).1) ->
    exists path pathItem c',
      In pathItem (map snd entries) /\
      pathItem' = (fixPathItem path pathItem c').1.
Proof.
  induction entries as [|[path pathItem] rest IH]; intros c pathItem' Hin;
    [contradiction|].
  cbn [fixPathEntries] in Hin.
  destruct (fixPathItem path pathItem c) as [item' c1] eqn:Ei.
  destruct (fixPathEntries rest c1) as [rest' c2] eqn:Er.
  destruct Hin as [<-|Hin].
  - exists path, pathItem, c. split; [left; reflexivity|].
    rewrite Ei. reflexivity.
  - destruct (IH c1 pathItem') as (p & i & c' & Hi & He);
      [rewrite Er; exact Hin|].
    exists p, i, c'. split; [right; exact Hi|exact He].
Qed.

Lemma fixPathElems_origin elems :
  forall index c pathItem',
    In pathItem' (fixPathElems index elems c).1 ->
    exists path pathItem c',
      In pathItem elems /\ pathItem' = (fixPathItem path pathItem c').1.
Proof.
  induction elems as [|pathItem rest IH]; intros index c pathItem' Hin;
    [contradiction|].
  cbn [fixPathElems] in Hin.
  destruct (fixPathItem _ pathItem c) as [item' c1] eqn:Ei.
  destruct (fixPathElems (S index) rest c1) as [rest' c2] eqn:Er.
  destruct Hin as [<-|Hin].
  - eexists _, pathItem, c. split; [left; reflexivity|].
    rewrite Ei. reflexivity.
  - destruct (IH (S index) c1 pathItem') as (p & i & c' & Hi & He);
      [rewrite Er; exact Hin|].
    exists p, i, c'. split; [right; exact Hi|exact He].
Qed.

Lemma fixPaths_origin (paths : jsval) (c : counters) (pathItem' : jsval) :
  In pathItem' (own_values (fixPaths paths c).1) ->
  exists path pathItem c',
    In pathItem (own_values paths) /\
    pathItem' = (fixPathItem path pathItem c').1.
Proof.
  unfold fixPaths. destruct paths as [| | | | |es extra|ps]; simpl;
    try contradiction.
  - destruct (fixPathElems 0 es c) as [es' c1] eqn:Ee.
    destruct (fixPathEntries extra c1) as [extra' c2] eqn:Ex. simpl.
    intros Hin. apply in_app_or in Hin as [Hin|Hin].
    + destruct (fixPathElems_origin es 0 c pathItem')
        as (p & i & c' & Hi & He); [rewrite Ee; exact Hin|].
      exists p, i, c'. split; [apply in_or_app; left; exact Hi|exact He].
    + destruct (fixPathEntries_origin extra c1 pathItem')
        as (p & i & c' & Hi & He); [rewrite Ex; exact Hin|].
      exists p, i, c'. split; [apply in_or_app; right; exact Hi|exact He].
  - destruct (fixPathEntries ps c) as [ps' c'] eqn:E. simpl.
    intros Hin. apply (fixPathEntries_origin ps c). rewrite E. exact Hin.
Qed.

Lemma fixPaths_has_properties (paths : jsval) (c : counters) :
  has_properties paths -> has_properties (fixPaths paths c).1.
Proof.
  destruct paths as [| | | | |es extra|ps]; simpl; try contradiction; intros _.
  - destruct (fixPathElems 0 es c) as [es' c1].
    destruct (fixPathEntries extra c1) as [extra' c2]. exact I.
  - destruct (fixPathEntries ps c) as [ps' c']. exact I.
Qed.

Lemma ensureTags_spec (spec : jsval) :
  has_properties spec ->
  has_properties (ensureTags spec) /\
  isArray (get (ensureTags spec) "tags") = true /\
  forall k, k <> "tags" -> get (ensureTags spec) k = get spec k.
Proof.
  intros Hp. unfold ensureTags.
  destruct (negb (truthy (get spec "tags")) || negb (isArray (get spec "tags")))
    eqn:E.
  - split; [apply set_has_properties, Hp|]. split.
    + rewrite get_set_same by exact Hp. reflexivity.
    + intros k Hk. apply get_set_other. congruence.
  - split; [exact Hp|]. split; [|reflexivity].
    apply orb_false_elim in E as [_ E]. apply negb_false_iff in E. exact E.
Qed.

(** The document [normalize] returns, spelled out *)
Lemma normalize_result (spec spec' : jsval) (c : counters) :
  normalize spec = Normal (spec', c) ->
  validate spec = Normal tt /\
  spec' = set (ensureTags spec) "paths"
            (fixPaths (get (ensureTags spec) "paths") no_fixes).1 /\
  c = (fixPaths (get (ensureTags spec) "paths") no_fixes).2.
Proof.
  unfold normalize. destruct (validate spec) as [[]|e]; simpl; [|discriminate].
  destruct (fixPaths (get (ensureTags spec) "paths") no_fixes) as [paths' c'].
  intros [= <- <-]. repeat split.
Qed.

Lemma normalize_paths (spec spec' : jsval) (c : counters) :
  normalize spec = Normal (spec', c) ->
  has_properties spec /\
  get spec' "paths" = (fixPaths (get spec "paths") no_fixes).1 /\
  isArray (get spec' "tags") = true.
Proof.
  intros Hn. apply normalize_result in Hn as (Hv & -> & _).
  apply validate_passes in Hv as (Hp & _).
  destruct (ensureTags_spec spec Hp) as (Hp' & Ht & Hk).
  split; [exact Hp|].
  rewrite get_set_same by exact Hp'.
  rewrite get_set_other by discriminate.
  rewrite (Hk "paths") by discriminate. split; [reflexivity|exact Ht].
Qed.




Lemma fixEntries_lookup (path key : string) (value : jsval) entries :
  method_key key -> has_properties value ->
  forall c,
    lookup_own key entries = Some value ->
    exists c',
      lookup_own key (fixEntries path entries c).1 =
        Some (fixOperation path key value c').1.
Proof.
  intros Hk Hp.
  induction entries as [|[k0 v0] rest IH]; intros c Hl; [discriminate|].
  cbn [lookup_own] in Hl. cbn [fixEntries].
  destruct (String.eqb key k0) eqn:Ek.
  - apply String.eqb_eq in Ek. subst k0. injection Hl as ->.
    apply method_key_includes in Hk. rewrite Hk.
    exists c. destruct value; try contradiction; cbn [is_object_type typeof negb];
      destruct (fixOperation path key _ c) as [value' c1];
      destruct (fixEntries path rest c1) as [rest' c2];
      cbn [fst lookup_own]; rewrite String.eqb_refl; reflexivity.
  - assert (Hskip : forall c0 v,
      lookup_own key
        (let '(rest', c') := fixEntries path rest c0 in ((k0, v) :: rest', c')).1
      = lookup_own key (fixEntries path rest c0).1).
    { intros c0 v. destruct (fixEntries path rest c0) as [rest' c'].
      cbn [fst lookup_own]. rewrite Ek. reflexivity. }
    destruct (includes httpMethods (toLowerCase k0)).
    + destruct v0; cbn [is_object_type typeof negb];
        try (apply IH; exact Hl);
        try (rewrite Hskip; apply IH; exact Hl);
        destruct (fixOperation path k0 _ c) as [value' c1];
        rewrite Hskip; apply IH; exact Hl.
    + rewrite Hskip. apply IH. exact Hl.
Qed.

Lemma fixPathEntries_lookup (path : string) (pathItem : jsval) entries :
  forall c,
    lookup_own path entries = Some pathItem ->
    exists c',
      lookup_own path (fixPathEntries entries c).1 =
        Some (fixPathItem path pathItem c').1.
Proof.
  induction entries as [|[p0 i0] rest IH]; intros c Hl; [discriminate|].
  cbn [lookup_own] in Hl. cbn [fixPathEntries].
  destruct (fixPathItem p0 i0 c) as [item' c1] eqn:Ei.
  destruct (fixPathEntries rest c1) as [rest' c2] eqn:Er.
  cbn [fst lookup_own].
  destruct (String.eqb path p0) eqn:Ep.
  - apply String.eqb_eq in Ep. subst p0. injection Hl as ->.
    exists c. rewrite Ei. reflexivity.
  - destruct (IH c1 Hl) as [c' Hc']. exists c'. rewrite Er in Hc'. exact Hc'.
Qed.



(** Induction over a value and the values it holds *)
Lemma jsval_nested_ind (P : jsval -> Prop) :
  P VUndefined -> P VNull -> (forall b, P (VBool b)) ->
  (forall n, P (VNum n)) -> (forall s, P (VStr s)) ->
  (forall es extra,
     Forall P es -> Forall (fun p => P p.2) extra -> P (VArr es extra)) ->
  (forall ps, Forall (fun p => P p.2) ps -> P (VObj ps)) ->
  forall v, P v.
Proof.
  intros Hu Hn Hb Hnum Hs Ha Ho.
  fix IH 1.
  intros [| | | | |es extra|ps];
    [exact Hu|exact Hn|apply Hb|apply Hnum|apply Hs| |].
  - apply Ha.
    + induction es as [|e es IHes]; constructor; [apply IH|exact IHes].
    + induction extra as [|[k x] extra IHx]; constructor;
        [apply IH|exact IHx].
  - apply Ho.
    induction ps as [|[k x] ps IHps]; constructor; [apply IH|exact IHps].
Qed.

(** Reading back what was printed gives the same document when the
    document is one [JSON.parse] could have returned *)
Lemma reload_json (v : jsval) : json v = true -> reload v = v.
Proof.
  induction v as [| | | | |es extra Hes _|ps Hps] using jsval_nested_ind;
    cbn [json reload]; try reflexivity; try discriminate.
  - destruct n; [discriminate|discriminate|reflexivity].
  - intros H. apply andb_prop in H as [Hj He].
    destruct extra; [|discriminate]. f_equal.
    induction Hes as [|e es He' _ IHes]; [reflexivity|].
    cbn [forallb] in Hj. apply andb_prop in Hj as [Hj1 Hj2].
    cbn [map]. rewrite (He' Hj1), (IHes Hj2). reflexivity.
  - intros H. f_equal.
    induction Hps as [|[k x] ps Hx _ IHps]; [reflexivity|].
    cbn [forallb] in H. apply andb_prop in H as [Hj1 Hj2].
    cbn [snd] in Hx, Hj1.
    destruct x; try discriminate Hj1; cbn [reload_members];
      rewrite (IHps Hj2), (Hx Hj1); reflexivity.
Qed.

(** What is read back prints as what was printed *)
Lemma ser_reload (v : jsval) :
  forall stepback, v <> VUndefined -> ser stepback (reload v) = ser stepback v.
Proof.
  induction v as [| | | | |es extra Hes _|ps Hps] using jsval_nested_ind;
    intros stepback Hv; try reflexivity; try congruence.
  - destruct n; reflexivity.
  - cbn [reload ser]. do 2 f_equal. clear Hv.
    induction Hes as [|e es He _ IHes]; [reflexivity|].
    cbn [map]. rewrite IHes. f_equal.
    destruct e; try (rewrite He by discriminate; reflexivity). reflexivity.
  - cbn [reload ser]. do 2 f_equal. clear Hv.
    induction Hps as [|[k x] ps Hx _ IHps]; [reflexivity|].
    cbn [snd] in Hx.
    destruct x; cbn [reload_members members_of];
      try (rewrite IHps, (Hx _ ltac:(discriminate)); reflexivity).
    exact IHps.
Qed.

Lemma JSON_stringify_reload (v : jsval) :
  v <> VUndefined -> JSON_stringify (reload v) = JSON_stringify v.
Proof. apply ser_reload. Qed.


(** ** A second run *)

Lemma json_set_own (k : string) (x : jsval) ps :
  json x = true -> forallb (fun p => json p.2) ps = true ->
  forallb (fun p => json p.2) (set_own k x ps) = true.
Proof.
  intros Hx. induction ps as [|[k' v] ps IH]; cbn [set_own forallb snd].
  - intros _. rewrite Hx. reflexivity.
  - intros H. apply andb_prop in H as [Hv Hps].
    destruct (String.eqb k k'); cbn [forallb snd].
    + rewrite Hx, Hps. reflexivity.
    + rewrite Hv, (IH Hps). reflexivity.
Qed.

Lemma json_set (v : jsval) (k : string) (x : jsval) :
  isArray v = false -> json v = true -> json x = true ->
  json (set v k x) = true.
Proof.
  destruct v; cbn [set]; try (intros; assumption); [discriminate|].
  intros _ Hv Hx. cbn [json] in *. apply json_set_own; assumption.
Qed.

Lemma fixOperation_json (path key : string) (value : jsval) (c : counters) :
  isArray value = false -> json value = true ->
  json (fixOperation path key value c).1 = true.
Proof.
  intros Ha Hj. unfold fixOperation.
  destruct (negb (truthy (get value "tags")) ||
            negb (isArray (get value "tags")) ||
            empty_array (get value "tags")); cbn [fst].
  - assert (Hj1 : json (set value "tags" (VArr [VStr "Default"] [])) = true)
      by (apply json_set; [exact Ha|exact Hj|reflexivity]).
    assert (Ha1 : isArray (set value "tags" (VArr [VStr "Default"] [])) = false)
      by (destruct value; try reflexivity; discriminate Ha).
    destruct (negb (truthy (get (set value "tags" _) "operationId")));
      [|exact Hj1].
    apply json_set; [exact Ha1|exact Hj1|reflexivity].
  - destruct (negb (truthy (get value "operationId"))); [|exact Hj].
    apply json_set; [exact Ha|exact Hj|reflexivity].
Qed.

Lemma fixEntries_json (path : string) entries :
  forallb (fun p => json p.2) entries = true ->
  (forall key value, In (key, value) entries -> method_key key ->
     isArray value = false) ->
  forall c, forallb (fun p => json p.2) (fixEntries path entries c).1 = true.
Proof.
  induction entries as [|[k0 v0] rest IH]; intros Hj Hna c; [reflexivity|].
  cbn [forallb snd] in Hj. apply andb_prop in Hj as [Hv Hrest].
  assert (IH' : forall c0,
    forallb (fun p => json p.2) (fixEntries path rest c0).1 = true).
  { apply IH; [exact Hrest|]. intros k v Hin. apply Hna. right. exact Hin. }
  assert (Hkeep : forall c0 v, json v = true ->
    forallb (fun p => json p.2)
      (let '(rest', c') := fixEntries path rest c0 in ((k0, v) :: rest', c')).1
    = true).
  { intros c0 v Hjv. specialize (IH' c0).
    destruct (fixEntries path rest c0) as [rest' c']. cbn [fst forallb snd] in *.
    rewrite Hjv, IH'. reflexivity. }
  cbn [fixEntries].
  destruct (includes httpMethods (toLowerCase k0)) eqn:Em;
    [|apply Hkeep; exact Hv].
  apply method_key_includes in Em.
  assert (Ha : isArray v0 = false) by (apply (Hna k0); [left; reflexivity|exact Em]).
  destruct v0; cbn [is_object_type typeof negb];
    try apply IH'; try (apply Hkeep; exact Hv); try discriminate Ha.
  pose proof (fixOperation_json path k0 (VObj props) c Ha Hv) as Hf.
  destruct (fixOperation path k0 (VObj props) c) as [value' c1].
  apply Hkeep. exact Hf.
Qed.

Lemma fixPathItem_json (path : string) (pathItem : jsval) (c : counters) :
  json pathItem = true ->
  (forall key value, In (key, value) (named_entries pathItem) ->
     method_key key -> isArray value = false) ->
  json (fixPathItem path pathItem c).1 = true.
Proof.
  intros Hj Hna. unfold fixPathItem.
  destruct (truthy pathItem && is_object_type pathItem); [|exact Hj].
  destruct pathItem as [| | | | |es extra|ps]; try exact Hj.
  - cbn [json] in Hj. apply andb_prop in Hj as [Hes Hx].
    destruct extra; [|discriminate]. cbn. rewrite Hes. reflexivity.
  - pose proof (fixEntries_json path ps Hj Hna c) as Hf.
    destruct (fixEntries path ps c) as [ps' c']. exact Hf.
Qed.

Lemma fixPaths_json (paths : jsval) (c : counters) :
  json paths = true ->
  (forall pathItem key value,
     In pathItem (own_values paths) ->
     In (key, value) (named_entries pathItem) -> method_key key ->
     isArray value = false) ->
  json (fixPaths paths c).1 = true.
Proof.
  intros Hj Hna. unfold fixPaths.
  destruct paths as [| | | | |es extra|ps]; try exact Hj.
  - cbn [json] in Hj. apply andb_prop in Hj as [Hes Hx].
    destruct extra; [|discriminate]. cbn [fixPathEntries].
    assert (He : forall index c0,
      forallb json (fixPathElems index es c0).1 = true).
    { cbn [own_values map] in Hna. rewrite app_nil_r in Hna.
      clear -Hes Hna. induction es as [|e es IH]; intros index c0;
        [reflexivity|].
      cbn [forallb] in Hes. apply andb_prop in Hes as [He Hes].
      cbn [fixPathElems].
      pose proof (fixPathItem_json (number_to_string (Int (Z.of_nat index)))
                    e c0 He (fun k v => Hna e k v (or_introl eq_refl))) as Hf.
      destruct (fixPathItem _ e c0) as [e' c1].
      specialize (IH Hes (fun i k v Hi => Hna i k v (or_intror Hi)) (S index) c1).
      destruct (fixPathElems (S index) es c1) as [es' c2].
      cbn [fst forallb] in *. rewrite Hf, IH. reflexivity. }
    specialize (He 0%nat c). destruct (fixPathElems 0 es c) as [es' c1].
    cbn [fst json] in *. rewrite He. reflexivity.
  - cbn [json]. cbn [own_values] in Hna.
    assert (He : forall c0,
      forallb (fun p => json p.2) (fixPathEntries ps c0).1 = true).
    { clear -Hj Hna. cbn [json] in Hj.
      induction ps as [|[p i] ps IH]; intros c0; [reflexivity|].
      cbn [forallb snd] in Hj. apply andb_prop in Hj as [Hi Hps].
      cbn [fixPathEntries].
      pose proof (fixPathItem_json p i c0 Hi
                    (fun k v => Hna i k v (or_introl eq_refl))) as Hf.
      destruct (fixPathItem p i c0) as [i' c1].
      specialize (IH Hps (fun i0 k v Hi0 => Hna i0 k v (or_intror Hi0)) c1).
      destruct (fixPathEntries ps c1) as [ps' c2].
      cbn [fst forallb snd] in *. rewrite Hf, IH. reflexivity. }
    specialize (He c). destruct (fixPathEntries ps c) as [ps' c'].
    exact He.
Qed.

Lemma fixOperation_settled (path key : string) (value : jsval) (c : counters) :
  nonempty_array (get value "tags") ->
  truthy (get value "operationId") = true ->
  fixOperation path key value c = (value, c).
Proof.
  intros (e & es & extra & Ht) Ho. unfold fixOperation.
  rewrite Ht. cbn [truthy isArray empty_array negb orb]. rewrite Ho.
  reflexivity.
Qed.

Lemma fixEntries_settled (path : string) entries :
  (forall key value, In (key, value) entries -> method_key key ->
     repaired_value value /\ isArray value = false) ->
  forall c, fixEntries path entries c = (entries, c).
Proof.
  induction entries as [|[k0 v0] rest IH]; intros Hs c; [reflexivity|].
  assert (IH' : forall c0, fixEntries path rest c0 = (rest, c0)).
  { apply IH. intros k v Hin. apply Hs. right. exact Hin. }
  cbn [fixEntries].
  destruct (includes httpMethods (toLowerCase k0)) eqn:Em;
    [|rewrite IH'; reflexivity].
  apply method_key_includes in Em.
  destruct (Hs k0 v0 (or_introl eq_refl) Em) as ((Hn & Hu & Hobj) & Ha).
  destruct v0; try congruence; cbn [is_object_type typeof negb];
    try (rewrite IH'; reflexivity); try discriminate Ha.
  destruct (Hobj I) as [Ht Ho].
  rewrite (fixOperation_settled path k0 _ c Ht Ho), IH'. reflexivity.
Qed.

Lemma fixPathItem_settled (path : string) (pathItem : jsval) (c : counters) :
  (forall key value, In (key, value) (named_entries pathItem) ->
     method_key key -> repaired_value value /\ isArray value = false) ->
  fixPathItem path pathItem c = (pathItem, c).
Proof.
  intros Hs. unfold fixPathItem.
  destruct (truthy pathItem && is_object_type pathItem); [|reflexivity].
  destruct pathItem as [| | | | |es extra|ps]; try reflexivity.
  - rewrite (fixEntries_settled path extra Hs). reflexivity.
  - rewrite (fixEntries_settled path ps Hs). reflexivity.
Qed.

Lemma fixPathEntries_settled entries :
  (forall pathItem key value,
     In pathItem (map snd entries) ->
     In (key, value) (named_entries pathItem) -> method_key key ->
     repaired_value value /\ isArray value = false) ->
  forall c, fixPathEntries entries c = (entries, c).
Proof.
  induction entries as [|[p i] rest IH]; intros Hs c; [reflexivity|].
  cbn [fixPathEntries].
  rewrite (fixPathItem_settled p i c (fun k v => Hs i k v (or_introl eq_refl))).
  rewrite (IH (fun i0 k v Hi => Hs i0 k v (or_intror Hi))). reflexivity.
Qed.

Lemma fixPathElems_settled elems :
  (forall pathItem key value,
     In pathItem elems ->
     In (key, value) (named_entries pathItem) -> method_key key ->
     repaired_value value /\ isArray value = false) ->
  forall index c, fixPathElems index elems c = (elems, c).
Proof.
  induction elems as [|i rest IH]; intros Hs index c; [reflexivity|].
  cbn [fixPathElems].
  rewrite (fixPathItem_settled _ i c (fun k v => Hs i k v (or_introl eq_refl))).
  rewrite (IH (fun i0 k v Hi => Hs i0 k v (or_intror Hi))). reflexivity.
Qed.

Lemma fixPaths_settled (paths : jsval) (c : counters) :
  (forall pathItem key value,
     In pathItem (own_values paths) ->
     In (key, value) (named_entries pathItem) -> method_key key ->
     repaired_value value /\ isArray value = false) ->
  fixPaths paths c = (paths, c).
Proof.
  intros Hs. unfold fixPaths.
  destruct paths as [| | | | |es extra|ps]; try reflexivity;
    cbn [own_values] in Hs.
  - rewrite (fixPathElems_settled es
               (fun i k v Hi => Hs i k v (in_or_app _ _ _ (or_introl Hi)))).
    rewrite (fixPathEntries_settled extra
               (fun i k v Hi => Hs i k v (in_or_app _ _ _ (or_intror Hi)))).
    reflexivity.
  - rewrite (fixPathEntries_settled ps Hs). reflexivity.
Qed.

Lemma set_own_twice (k : string) (x : jsval) ps :
  set_own k x (set_own k x ps) = set_own k x ps.
Proof.
  induction ps as [|[k' v] ps IH]; cbn [set_own].
  - rewrite String.eqb_refl. reflexivity.
  - destruct (String.eqb k k') eqn:E; cbn [set_own]; rewrite E;
      [reflexivity|rewrite IH; reflexivity].
Qed.

Lemma set_twice (v : jsval) (k : string) (x : jsval) :
  set (set v k x) k x = set v k x.
Proof. destruct v; cbn [set]; try reflexivity; rewrite set_own_twice; reflexivity. Qed.

Lemma validate_intro (spec : jsval) :
  has_properties spec ->
  truthy (get spec "openapi") = true -> truthy (get spec "info") = true ->
  truthy (get spec "paths") = true ->
  is_object_type (get spec "paths") = true ->
  truthy (get spec "components") = true ->
  is_object_type (get spec "components") = true ->
  validate spec = Normal tt.
Proof.
  intros Hp Ho Hi Hpa Hpo Hc Hco. unfold validate, read.
  destruct spec; try contradiction; cbn [mbind completion_bind];
    rewrite Ho, Hi, Hpa, Hpo, Hc, Hco; reflexivity.
Qed.

Lemma truthy_object_has_properties (v : jsval) :
  truthy v = true -> is_object_type v = true -> has_properties v.
Proof. destruct v; simpl; try discriminate; auto. Qed.

Lemma has_properties_truthy_object (v : jsval) :
  has_properties v -> truthy v = true /\ is_object_type v = true.
Proof. destruct v; simpl; try contradiction; auto. Qed.

(** A normalized document goes through the normalizer unchanged, provided
    no method key holds an array *)
Lemma normalize_settled (spec spec1 : jsval) (c1 : counters) :
  normalize spec = Normal (spec1, c1) -> no_array_operation spec ->
  normalize spec1 = Normal (spec1, no_fixes).
Proof.
  intros Hn Hna.
  destruct (normalize_paths _ _ _ Hn) as (Hp & Hpaths1 & Htags1).
  destruct (normalize_result _ _ _ Hn) as (Hv & Hspec1 & _).
  destruct (validate_passes _ Hv) as (_ & Ho & Hi & Hpa & Hpo & Hc & Hco).
  destruct (ensureTags_spec spec Hp) as (Hp' & _ & Hk).
  assert (Hother : forall k, k <> "tags" -> k <> "paths" ->
                             get spec1 k = get spec k).
  { intros k Hk1 Hk2. rewrite Hspec1, get_set_other by congruence.
    apply Hk. exact Hk1. }
  assert (Hpp : has_properties (get spec1 "paths")).
  { rewrite Hpaths1. apply fixPaths_has_properties.
    apply truthy_object_has_properties; assumption. }
  assert (Hp1 : has_properties spec1)
    by (rewrite Hspec1; apply set_has_properties, Hp').
  assert (Hv1 : validate spec1 = Normal tt).
  { destruct (has_properties_truthy_object _ Hpp) as [Ht1 Ht2].
    apply validate_intro; try assumption;
      rewrite Hother by discriminate; assumption. }
  assert (He1 : ensureTags spec1 = spec1).
  { unfold ensureTags. rewrite Htags1.
    destruct (get spec1 "tags"); try discriminate Htags1. reflexivity. }
  assert (Hs : fixPaths (get spec1 "paths") no_fixes =
               (get spec1 "paths", no_fixes)).
  { apply fixPaths_settled. intros pathItem key value Hitem Hentry Hmk.
    rewrite Hpaths1 in Hitem.
    apply fixPaths_origin in Hitem as (path & item0 & c' & Hitem0 & ->).
    split; [exact (fixPathItem_repaired path item0 c' key value Hentry Hmk)|].
    destruct (fixPathItem_isArray path item0 c' key value Hentry Hmk)
      as (value0 & Hentry0 & ->).
    exact (Hna item0 key value0 Hitem0 Hentry0 Hmk). }
  unfold normalize. rewrite Hv1. cbn [mbind completion_bind].
  rewrite He1, Hs. cbn [fst].
  rewrite Hpaths1 at 1. rewrite Hspec1 at 1.
  rewrite (Hk "paths") by discriminate. rewrite set_twice.
  rewrite <- (Hk "paths") by discriminate. rewrite <- Hspec1. reflexivity.
Qed.

Lemma json_lookup_own (k : string) ps (v : jsval) :
  forallb (fun p => json p.2) ps = true -> lookup_own k ps = Some v ->
  json v = true.
Proof.
  induction ps as [|[k' x] ps IH]; cbn [forallb lookup_own snd];
    [discriminate|].
  intros H. apply andb_prop in H as [Hx Hps].
  destruct (String.eqb k k'); [intros [= <-]; exact Hx|apply IH, Hps].
Qed.

Lemma normalize_json (spec spec1 : jsval) (c1 : counters) :
  json spec = true -> no_array_operation spec ->
  normalize spec = Normal (spec1, c1) -> json spec1 = true.
Proof.
  intros Hj Hna Hn.
  destruct (normalize_result _ _ _ Hn) as (Hv & -> & _).
  destruct (validate_passes _ Hv) as (Hp & Ho & _ & Hpa & _).
  destruct spec as [| | | | |es extra|ps]; try contradiction.
  { cbn [json] in Hj. apply andb_prop in Hj as [_ Hx].
    destruct extra; discriminate. }
  assert (Hje : json (ensureTags (VObj ps)) = true).
  { unfold ensureTags. destruct (_ || _); [|exact Hj].
    apply json_set; [reflexivity|exact Hj|reflexivity]. }
  assert (Hae : isArray (ensureTags (VObj ps)) = false).
  { unfold ensureTags. destruct (_ || _); reflexivity. }
  apply json_set; [exact Hae|exact Hje|].
  destruct (ensureTags_spec (VObj ps) I) as (_ & _ & Hk).
  rewrite (Hk "paths") by discriminate.
  apply fixPaths_json; [|exact Hna].
  cbn [get] in *. destruct (lookup_own "paths" ps) as [v|] eqn:El;
    [|discriminate Hpa].
  exact (json_lookup_own "paths" ps v Hj El).
Qed.

Lemma normalize_total (spec : jsval) :
  validate spec = Normal tt -> exists spec1 c1, normalize spec = Normal (spec1, c1).
Proof.
  intros Hv. unfold normalize. rewrite Hv. cbn [mbind completion_bind].
  destruct (fixPaths _ no_fixes) as [paths' c]. eauto.
Qed.

Lemma serialize_object (v : jsval) :
  has_properties v -> exists text, serialize v = Normal text.
Proof.
  unfold serialize, JSON_stringify.
  destruct v; try contradiction; intros _; cbn [ser]; eauto.
Qed.

Lemma pre_generate_success (spec spec1 : jsval) (c1 : counters) (text : string) :
  normalize spec = Normal (spec1, c1) -> serialize spec1 = Normal text ->
  pre_generate spec =
    {| exit_code := 0; written := Some text; diagnostic := None;
       counts := Some c1; document := Some spec1 |}.
Proof.
  intros Hn Hs. unfold pre_generate. rewrite Hn. cbn [mbind completion_bind].
  rewrite Hs. reflexivity.
Qed.




End Normalizer.

Section Patcher.
Import JS PostGenerate Spec.

(** C4. A model file that reads exactly
    [export type CompteTransfertIntraRequest = ;] is rewritten to
    [export type CompteTransfertIntraRequest = <body>;], the body being
    the entry of the correction table - [txId: string] and
    [montant: number] required, [motif], [payeurNumero], [payeNumero],
    [payeurAlias] and [payeAlias] optional strings - and one fix is
    counted.  A second run over the repaired file replaces nothing, the
    empty-body pattern matching nowhere in it. *)
Theorem known_empty_type_is_repaired_once :
  lookup_fix "CompteTransfertIntraRequest" =
    Some (object_type CompteTransfertIntraRequest_members) /\
  patch empty_CompteTransfertIntraRequest =
    Some {| fixes := 1;
            rewritten := Some repaired_CompteTransfertIntraRequest |} /\
  fixEmptyTypes
    [("CompteTransfertIntraRequest.ts", empty_CompteTransfertIntraRequest)] 0 =
    Some ([("CompteTransfertIntraRequest.ts",
            repaired_CompteTransfertIntraRequest)], 1%nat) /\
  patch repaired_CompteTransfertIntraRequest =
    Some {| fixes := 0; rewritten := None |} /\
  exec_emptyType repaired_CompteTransfertIntraRequest 0 = None /\
  emptyTypeNames repaired_CompteTransfertIntraRequest = [].
Proof. repeat split; vm_compute; reflexivity. Qed.

(** ** Lengths of what the patterns leave *)

Lemma strip_prefix_length (p s rest : string) :
  strip_prefix p s = Some rest ->
  String.length s = (String.length p + String.length rest)%nat.
Proof.
  revert s. induction p as [|a p IH]; intros s; cbn [strip_prefix].
  - intros [= ->]. reflexivity.
  - destruct s as [|b s]; [discriminate|].
    destruct (Ascii.eqb a b); [|discriminate].
    intros H. apply IH in H. cbn [String.length]. lia.
Qed.

Lemma span_length (p : ascii -> bool) (s a b : string) :
  span p s = (a, b) ->
  String.length s = (String.length a + String.length b)%nat.
Proof.
  revert a b. induction s as [|c s IH]; intros a b; cbn [span].
  - intros [= <- <-]. reflexivity.
  - destruct (p c).
    + destruct (span p s) as [a' b'] eqn:E. intros [= <- <-].
      cbn [String.length]. rewrite (IH a' b' eq_refl). reflexivity.
    + intros [= <- <-]. reflexivity.
Qed.

Lemma match_emptyType_shorter (s name rest : string) :
  match_emptyType s = Some (name, rest) ->
  (String.length rest < String.length s)%nat.
Proof.
  unfold match_emptyType.
  destruct (strip_prefix "export type " s) as [r1|] eqn:E1; [|discriminate].
  cbn [mbind option_bind].
  destruct (span is_word r1) as [n r2] eqn:E2.
  destruct (String.eqb n EmptyString); [discriminate|].
  destruct (strip_prefix " = " r2) as [r3|] eqn:E3; [|discriminate].
  cbn [mbind option_bind].
  destruct (span is_space r3) as [w r4] eqn:E4.
  destruct (strip_prefix ";" r4) as [r5|] eqn:E5; [|discriminate].
  cbn [mbind option_bind]. intros [= <- <-].
  apply strip_prefix_length in E1, E3, E5.
  apply span_length in E2, E4. cbn [String.length] in *. lia.
Qed.

Lemma search_emptyType_found (s : string) :
  forall pos name next,
    search_emptyType s pos = Some (name, next) ->
    In name (emptyTypeNames s) /\
    (pos < next <= pos + String.length s)%nat.
Proof.
  induction s as [|c s IH]; intros pos name next; cbn [search_emptyType].
  - destruct (match_emptyType EmptyString) as [[n r]|] eqn:E; [|discriminate].
    apply match_emptyType_shorter in E. cbn [String.length] in E. lia.
  - cbn [emptyTypeNames].
    destruct (match_emptyType (String c s)) as [[n r]|] eqn:E.
    + intros [= <- <-]. apply match_emptyType_shorter in E.
      split; [left; reflexivity|]. cbn [String.length] in *. lia.
    + intros H. apply IH in H as [Hin Hb]. split; [exact Hin|].
      cbn [String.length]. lia.
Qed.

Lemma emptyTypeNames_drop (n : nat) :
  forall (s name : string),
    In name (emptyTypeNames (drop n s)) -> In name (emptyTypeNames s).
Proof.
  induction n as [|n IH]; intros s name; [destruct s; auto|].
  destruct s as [|c s]; cbn [drop]; [auto|].
  intros H. cbn [emptyTypeNames]. apply in_or_app. right. apply IH, H.
Qed.

Lemma drop_length (n : nat) :
  forall s, (n <= String.length s)%nat ->
    String.length (drop n s) = (String.length s - n)%nat.
Proof.
  induction n as [|n IH]; intros s Hn; [destruct s; cbn; lia|].
  destruct s as [|c s]; cbn [String.length drop] in *; [lia|].
  apply IH. lia.
Qed.

Lemma exec_emptyType_found (text : string) (lastIndex : nat)
    (name : string) (next : nat) :
  exec_emptyType text lastIndex = Some (name, next) ->
  In name (emptyTypeNames text) /\
  (lastIndex < next <= String.length text)%nat.
Proof.
  unfold exec_emptyType.
  destruct (String.length text <? lastIndex)%nat eqn:E; [discriminate|].
  apply Nat.ltb_ge in E. intros H.
  apply search_emptyType_found in H as [Hin Hb].
  split; [eapply emptyTypeNames_drop, Hin|].
  rewrite drop_length in Hb by exact E. lia.
Qed.

(** The loop leaves alone a file none of whose empty aliases has a fix *)
Lemma emptyTypeLoop_nothing_to_fix (st : pass) :
  Forall (fun name => lookup_fix name = None) (emptyTypeNames (content st)) ->
  forall fuel lastIndex,
    (lastIndex <= String.length (content st))%nat ->
    (String.length (content st) < fuel + lastIndex)%nat ->
    emptyTypeLoop fuel lastIndex st = Some st.
Proof.
  intros Hnone. induction fuel as [|fuel IH]; intros lastIndex Hle Hfuel;
    [lia|].
  cbn [emptyTypeLoop].
  destruct (exec_emptyType (content st) lastIndex) as [[name next]|] eqn:E;
    [|reflexivity].
  apply exec_emptyType_found in E as [Hin Hb].
  rewrite Forall_forall in Hnone. rewrite (Hnone name); [|apply list_elem_of_In; exact Hin].
  apply IH; lia.
Qed.



(** ** The inline [remise] rule *)

Lemma app_cons (c : ascii) (a b : string) :
  String c a +:+ b = String c (a +:+ b).
Proof. reflexivity. Qed.

Lemma app_assoc (a b c : string) : (a +:+ b) +:+ c = a +:+ (b +:+ c).
Proof.
  induction a as [|x a IH]; [reflexivity|].
  rewrite !app_cons, IH. reflexivity.
Qed.

Lemma strip_prefix_sound (p s rest : string) :
  strip_prefix p s = Some rest -> s = p +:+ rest.
Proof.
  revert s. induction p as [|a p IH]; intros s; cbn [strip_prefix].
  - intros [= ->]. reflexivity.
  - destruct s as [|b s]; [discriminate|].
    destruct (Ascii.eqb a b) eqn:E; [|discriminate].
    apply Ascii.eqb_eq in E. subst b.
    intros H. rewrite app_cons, <- (IH s H). reflexivity.
Qed.

Lemma strip_prefix_app (p rest : string) :
  strip_prefix p (p +:+ rest) = Some rest.
Proof.
  induction p as [|a p IH]; [destruct rest; reflexivity|].
  rewrite app_cons. cbn [strip_prefix]. rewrite Ascii.eqb_refl. exact IH.
Qed.

Lemma span_sound (s a b : string) :
  span is_space s = (a, b) -> s = a +:+ b /\ all_space a = true.
Proof.
  revert a b. induction s as [|c s IH]; intros a b; cbn [span].
  - intros [= <- <-]. split; reflexivity.
  - destruct (is_space c) eqn:Ec.
    + destruct (span is_space s) as [a' b'] eqn:E. intros [= <- <-].
      destruct (IH a' b' eq_refl) as [-> Ha].
      split; [reflexivity|]. cbn [all_space]. rewrite Ec, Ha. reflexivity.
    + intros [= <- <-]. split; reflexivity.
Qed.

(** A run of white space ends where something else begins *)
Lemma span_app_stop (ws : string) (c : ascii) (rest : string) :
  all_space ws = true -> is_space c = false ->
  span is_space (ws +:+ String c rest) = (ws, String c rest).
Proof.
  intros Hws Hc. induction ws as [|x ws IH].
  - change (EmptyString +:+ String c rest) with (String c rest).
    cbn [span]. rewrite Hc. reflexivity.
  - cbn [all_space] in Hws. apply andb_prop in Hws as [Hx Hws].
    rewrite app_cons. cbn [span]. rewrite Hx, (IH Hws). reflexivity.
Qed.

Lemma field_text_app (f : remise_field) (after : string) :
  field_text f +:+ after =
    leading f +:+
    String "r" ("emise" +:+
      (if question_mark f then "?" else EmptyString) +:+
      String ":" (inner f +:+ String ";" after)).
Proof.
  unfold field_text. rewrite !app_assoc.
  destruct (question_mark f); reflexivity.
Qed.

(** The pattern matches where a field stands *)
Lemma match_remiseField_complete (f : remise_field) (after : string) :
  well_formed f ->
  match_remiseField (field_text f +:+ after) = Some (leading f, after).
Proof.
  intros (Hne & Hl & Hi). rewrite field_text_app. unfold match_remiseField.
  rewrite (span_app_stop (leading f) "r" _ Hl eq_refl).
  destruct (String.eqb (leading f) EmptyString) eqn:E;
    [apply String.eqb_eq in E; contradiction|].
  change (String "r" ("emise" +:+ ?x)) with ("remise" +:+ x).
  rewrite strip_prefix_app. cbn [mbind option_bind].
  assert (Hq : default
            ((if question_mark f then "?" else EmptyString) +:+
             String ":" (inner f +:+ String ";" after))
            (strip_prefix "?"
               ((if question_mark f then "?" else EmptyString) +:+
                String ":" (inner f +:+ String ";" after)))
          = ":" +:+ (inner f +:+ String ";" after))
    by (destruct (question_mark f); reflexivity).
  rewrite Hq, strip_prefix_app. cbn [mbind option_bind].
  rewrite (span_app_stop (inner f) ";" after Hi eq_refl).
  reflexivity.
Qed.

(** Where the pattern matches, a field stands *)
Lemma match_remiseField_sound (s ws rest : string) :
  match_remiseField s = Some (ws, rest) ->
  exists f, well_formed f /\ leading f = ws /\ s = field_text f +:+ rest.
Proof.
  unfold match_remiseField.
  destruct (span is_space s) as [l r1] eqn:E1.
  destruct (String.eqb l EmptyString) eqn:El; [discriminate|].
  destruct (strip_prefix "remise" r1) as [r2|] eqn:E2; [|discriminate].
  cbn [mbind option_bind].
  destruct (strip_prefix ":" (default r2 (strip_prefix "?" r2))) as [r3|] eqn:E3;
    [|discriminate].
  cbn [mbind option_bind].
  destruct (span is_space r3) as [i r4] eqn:E4.
  destruct (strip_prefix ";" r4) as [r5|] eqn:E5; [|discriminate].
  cbn [mbind option_bind]. intros [= <- <-].
  apply span_sound in E1 as [-> Hl]. apply span_sound in E4 as [-> Hi].
  apply strip_prefix_sound in E2, E3, E5. subst r1 r4.
  apply String.eqb_neq in El.
  destruct (strip_prefix "?" r2) as [r2'|] eqn:Eq; cbn in E3.
  - apply strip_prefix_sound in Eq. subst r2 r2'.
    exists {| leading := l; question_mark := true; inner := i |}.
    split; [repeat split; assumption|]. split; [reflexivity|].
    rewrite field_text_app. reflexivity.
  - subst r2.
    exists {| leading := l; question_mark := false; inner := i |}.
    split; [repeat split; assumption|]. split; [reflexivity|].
    rewrite field_text_app. reflexivity.
Qed.

Lemma app_length (a b : string) :
  String.length (a +:+ b) = (String.length a + String.length b)%nat.
Proof.
  induction a as [|c a IH]; [reflexivity|].
  rewrite app_cons. cbn [String.length]. rewrite IH. reflexivity.
Qed.

Lemma field_text_not_empty (f : remise_field) (after : string) :
  field_text f +:+ after <> EmptyString.
Proof.
  rewrite field_text_app. destruct (leading f); discriminate.
Qed.

Lemma match_remiseField_shorter (s ws rest : string) :
  match_remiseField s = Some (ws, rest) ->
  (String.length rest < String.length s)%nat.
Proof.
  intros H. apply match_remiseField_sound in H as (f & _ & _ & ->).
  rewrite app_length.
  pose proof (field_text_not_empty f EmptyString) as Hne.
  destruct (field_text f) as [|c t]; [contradiction|].
  cbn [String.length]. lia.
Qed.

Lemma replace_remiseField_upto_enough (fuel1 : nat) :
  forall fuel2 s,
    (String.length s < fuel1)%nat -> (String.length s < fuel2)%nat ->
    replace_remiseField_upto fuel1 s = replace_remiseField_upto fuel2 s.
Proof.
  induction fuel1 as [|fuel1 IH]; intros fuel2 s H1 H2; [lia|].
  destruct fuel2 as [|fuel2]; [lia|].
  cbn [replace_remiseField_upto].
  destruct (match_remiseField s) as [[ws rest]|] eqn:E.
  - apply match_remiseField_shorter in E.
    rewrite (IH fuel2 rest) by lia. reflexivity.
  - destruct s as [|c r]; [reflexivity|].
    cbn [String.length] in *. rewrite (IH fuel2 r) by lia. reflexivity.
Qed.

Lemma replace_remiseField_match (s ws rest : string) :
  match_remiseField s = Some (ws, rest) ->
  replace_remiseField s =
    remiseField_replacement ws +:+ replace_remiseField rest.
Proof.
  intros E. unfold replace_remiseField at 1.
  cbn [replace_remiseField_upto]. rewrite E.
  apply match_remiseField_shorter in E.
  rewrite (replace_remiseField_upto_enough _ (S (String.length rest)) rest)
    by lia.
  reflexivity.
Qed.

Lemma replace_remiseField_skip (c : ascii) (r : string) :
  match_remiseField (String c r) = None ->
  replace_remiseField (String c r) = String c (replace_remiseField r).
Proof.
  intros E. unfold replace_remiseField at 1.
  cbn [replace_remiseField_upto]. rewrite E.
  rewrite (replace_remiseField_upto_enough _ (S (String.length r)) r)
    by (cbn [String.length]; lia).
  reflexivity.
Qed.

Lemma no_field_empty : ~ has_field EmptyString.
Proof.
  intros (before & f & after & _ & H).
  destruct before; [|discriminate H].
  symmetry in H. exact (field_text_not_empty f after H).
Qed.

Lemma no_field_cons (c : ascii) (g : string) :
  ~ has_field g ->
  (forall f after, well_formed f -> String c g <> field_text f +:+ after) ->
  ~ has_field (String c g).
Proof.
  intros Hg Hhead (before & f & after & Hf & H).
  destruct before as [|c' before].
  - exact (Hhead f after Hf H).
  - rewrite app_cons in H. injection H as _ H.
    apply Hg. exists before, f, after. split; [exact Hf|exact H].
Qed.

(** A text cut at the matches of the pattern, and what the replacement
    makes of it *)
Lemma remise_fields_cut (n : nat) :
  forall s, (String.length s < n)%nat ->
  exists pieces rest,
    Forall (fun p => ~ has_field p.1 /\ well_formed p.2) pieces /\
    ~ has_field rest /\
    s = assemble field_text pieces rest /\
    replace_remiseField s = assemble field_repaired pieces rest /\
    test_remiseField s = match pieces with [] => false | _ => true end.
Proof.
  induction n as [|n IH]; intros s Hn; [lia|].
  destruct (match_remiseField s) as [[ws after]|] eqn:E.
  - pose proof (match_remiseField_shorter _ _ _ E) as Hlt.
    pose proof (replace_remiseField_match _ _ _ E) as Hr.
    destruct (match_remiseField_sound _ _ _ E) as (f & Hf & <- & ->).
    destruct (IH after ltac:(lia)) as (pieces & rest & Hp & Hrest & Ha & Hb & _).
    exists ((EmptyString, f) :: pieces), rest.
    split; [constructor; [split; [exact no_field_empty|exact Hf]|exact Hp]|].
    split; [exact Hrest|]. cbn [assemble].
    split; [rewrite <- Ha; reflexivity|].
    split; [rewrite Hr, Hb; reflexivity|].
    destruct (field_text f +:+ after); cbn [test_remiseField]; rewrite E;
      reflexivity.
  - destruct s as [|c r].
    { exists [], EmptyString. split; [constructor|].
      split; [exact no_field_empty|]. repeat split. }
    cbn [String.length] in Hn.
    destruct (IH r ltac:(lia)) as (pieces & rest & Hp & Hrest & Ha & Hb & Ht).
    assert (Hhead : forall f after tail, well_formed f ->
              String c r <> (field_text f +:+ after) +:+ tail).
    { intros f after tail Hf Habs. rewrite app_assoc in Habs.
      rewrite Habs, (match_remiseField_complete f _ Hf) in E. discriminate E. }
    rewrite (replace_remiseField_skip c r E).
    assert (Htest : test_remiseField (String c r) = test_remiseField r)
      by (cbn [test_remiseField]; rewrite E; reflexivity).
    destruct pieces as [|[g f1] pieces].
    + cbn [assemble] in Ha, Hb. exists [], (String c rest).
      split; [constructor|]. split.
      * apply no_field_cons; [exact Hrest|]. intros f after Hf Habs.
        apply (Hhead f after EmptyString Hf). rewrite Ha, Habs.
        clear. induction (field_text f +:+ after) as [|x t IHt];
          [reflexivity|]. rewrite app_cons, <- IHt. reflexivity.
      * cbn [assemble]. rewrite Ha at 1. rewrite Hb, Htest, Ht.
        repeat split.
    + cbn [assemble] in Ha, Hb. inversion Hp as [|? ? [Hg Hf1] Hp']; subst.
      exists ((String c g, f1) :: pieces), rest.
      split; [constructor; [split; [|exact Hf1]|exact Hp']|].
      * apply no_field_cons; [exact Hg|]. intros f after Hf Habs.
        apply (Hhead f after
                 (field_text f1 +:+ assemble field_text pieces rest) Hf).
        rewrite <- Habs, app_cons. reflexivity.
      * split; [exact Hrest|]. cbn [assemble]. rewrite !app_cons.
        rewrite Hb, Htest, Ht. repeat split.
Qed.

(** ** The standalone rule leaves the repaired fields alone *)

Lemma match_remiseType_shorter (s rest : string) :
  match_remiseType s = Some rest ->
  (String.length rest < String.length s)%nat.
Proof.
  unfold match_remiseType.
  destruct (strip_prefix "remise:" s) as [r1|] eqn:E1; [|discriminate].
  cbn [mbind option_bind].
  destruct (span is_space r1) as [w r2] eqn:E2. intros E3.
  apply strip_prefix_length in E1, E3. apply span_length in E2.
  cbn [String.length] in *. lia.
Qed.

Lemma replace_remiseType_upto_enough (fuel1 : nat) :
  forall fuel2 s,
    (String.length s < fuel1)%nat -> (String.length s < fuel2)%nat ->
    replace_remiseType_upto fuel1 s = replace_remiseType_upto fuel2 s.
Proof.
  induction fuel1 as [|fuel1 IH]; intros fuel2 s H1 H2; [lia|].
  destruct fuel2 as [|fuel2]; [lia|].
  cbn [replace_remiseType_upto].
  destruct (match_remiseType s) as [rest|] eqn:E.
  - apply match_remiseType_shorter in E.
    rewrite (IH fuel2 rest) by lia. reflexivity.
  - destruct s as [|c r]; [reflexivity|].
    cbn [String.length] in *. rewrite (IH fuel2 r) by lia. reflexivity.
Qed.

Lemma replace_remiseType_match (s rest : string) :
  match_remiseType s = Some rest ->
  replace_remiseType s =
    "remise: " +:+ remise_body +:+ replace_remiseType rest.
Proof.
  intros E. unfold replace_remiseType at 1.
  cbn [replace_remiseType_upto]. rewrite E.
  apply match_remiseType_shorter in E.
  rewrite (replace_remiseType_upto_enough _ (S (String.length rest)) rest)
    by lia.
  reflexivity.
Qed.

Lemma replace_remiseType_skip (c : ascii) (r : string) :
  match_remiseType (String c r) = None ->
  replace_remiseType (String c r) = String c (replace_remiseType r).
Proof.
  intros E. unfold replace_remiseType at 1.
  cbn [replace_remiseType_upto]. rewrite E.
  rewrite (replace_remiseType_upto_enough _ (S (String.length r)) r)
    by (cbn [String.length]; lia).
  reflexivity.
Qed.

Lemma clash_strip_prefix (p t after : string) :
  clash p t = true -> strip_prefix p (t +:+ after) = None.
Proof.
  revert t. induction p as [|a p IH]; intros t; [discriminate|].
  destruct t as [|b t]; [discriminate|].
  rewrite app_cons. cbn [clash strip_prefix].
  destruct (Ascii.eqb a b); [apply IH|reflexivity].
Qed.

Lemma inert_replace (s after : string) :
  inert s = true ->
  replace_remiseType (s +:+ after) = s +:+ replace_remiseType after.
Proof.
  induction s as [|c s IH]; [reflexivity|].
  cbn [inert]. intros H. apply andb_prop in H as [Hc Hs].
  rewrite !app_cons, replace_remiseType_skip, (IH Hs); [reflexivity|].
  unfold match_remiseType. rewrite <- app_cons.
  rewrite (clash_strip_prefix _ _ _ Hc). reflexivity.
Qed.

Lemma space_is_not_r (c : ascii) : is_space c = true -> Ascii.eqb "r" c = false.
Proof.
  destruct c as [[] [] [] [] [] [] [] []]; try reflexivity; discriminate.
Qed.

Lemma all_space_inert (ws : string) : all_space ws = true -> inert ws = true.
Proof.
  induction ws as [|c ws IH]; [reflexivity|].
  cbn [all_space inert clash]. intros H. apply andb_prop in H as [Hc Hws].
  rewrite (space_is_not_r c Hc), (IH Hws). reflexivity.
Qed.

Lemma inert_app (a b : string) :
  inert a = true -> inert b = true ->
  (forall t, t <> EmptyString -> clash "remise:" t = true ->
             clash "remise:" (t +:+ b) = true) ->
  inert (a +:+ b) = true.
Proof.
  intros Ha Hb Hext. induction a as [|c a IH]; [exact Hb|].
  cbn [inert] in Ha. apply andb_prop in Ha as [Hc Ha].
  rewrite app_cons. cbn [inert]. rewrite (IH Ha), andb_true_r.
  rewrite <- app_cons. apply Hext; [discriminate|exact Hc].
Qed.

Lemma clash_app (p t b : string) :
  clash p t = true -> clash p (t +:+ b) = true.
Proof.
  revert t. induction p as [|a p IH]; intros t; [destruct t; discriminate|].
  destruct t as [|c t]; [discriminate|].
  rewrite app_cons. cbn [clash].
  destruct (Ascii.eqb a c); [apply IH|reflexivity].
Qed.

(** A repaired field goes through the standalone rule untouched *)
Lemma field_repaired_inert (f : remise_field) :
  well_formed f -> inert (field_repaired f) = true.
Proof.
  intros (_ & Hl & _). unfold field_repaired.
  apply inert_app; [apply all_space_inert, Hl|vm_compute; reflexivity|].
  intros t _. apply clash_app.
Qed.

Lemma strip_prefix_app_some (p g rest after : string) :
  strip_prefix p g = Some rest ->
  strip_prefix p (g +:+ after) = Some (rest +:+ after).
Proof.
  revert g. induction p as [|a p IH]; intros g; cbn [strip_prefix].
  - intros [= ->]. destruct (rest +:+ after); reflexivity.
  - destruct g as [|b g]; [discriminate|]. rewrite app_cons.
    cbn [strip_prefix]. destruct (Ascii.eqb a b); [apply IH|discriminate].
Qed.

Lemma strip_prefix_app_none (p g : string) (w : ascii) (after : string) :
  avoids w p = true -> strip_prefix p g = None ->
  strip_prefix p (g +:+ String w after) = None.
Proof.
  revert g. induction p as [|a p IH]; intros g; cbn [avoids strip_prefix];
    [discriminate|].
  intros H. apply andb_prop in H as [Ha Hp]. apply negb_true_iff in Ha.
  destruct g as [|b g].
  - intros _. change (EmptyString +:+ String w after) with (String w after).
    cbn [strip_prefix]. rewrite Ha. reflexivity.
  - rewrite app_cons. cbn [strip_prefix].
    destruct (Ascii.eqb a b); [apply IH, Hp|reflexivity].
Qed.

Lemma span_app_more (g a b after : string) (c : ascii) :
  span is_space g = (a, String c b) ->
  span is_space (g +:+ after) = (a, String c b +:+ after).
Proof.
  revert a. induction g as [|x g IH]; intros a; cbn [span]; [discriminate|].
  rewrite app_cons. cbn [span]. destruct (is_space x) eqn:Ex.
  - destruct (span is_space g) as [a' b'] eqn:E. intros [= <- ->].
    rewrite (IH a' eq_refl). reflexivity.
  - intros [= <- <- <-]. rewrite <- app_cons. reflexivity.
Qed.

Lemma all_space_app (a b : string) :
  all_space a = true -> all_space b = true -> all_space (a +:+ b) = true.
Proof.
  intros Ha Hb. induction a as [|c a IH]; [exact Hb|].
  cbn [all_space] in Ha. apply andb_prop in Ha as [Hc Ha].
  rewrite app_cons. cbn [all_space]. rewrite Hc, (IH Ha). reflexivity.
Qed.

Lemma space_avoids_remise (w : ascii) :
  is_space w = true -> avoids w "remise:" = true.
Proof.
  destruct w as [[] [] [] [] [] [] [] []]; try reflexivity; discriminate.
Qed.

(** Before white space that runs up to an [r], the standalone pattern
    matches in [g] or not at all *)
Lemma match_remiseType_app (g ws after : string) (w : ascii) :
  is_space w = true -> all_space ws = true ->
  match_remiseType (g +:+ String w (ws +:+ String "r" after)) =
    match match_remiseType g with
    | Some rest => Some (rest +:+ String w (ws +:+ String "r" after))
    | None => None
    end.
Proof.
  intros Hw Hws. unfold match_remiseType.
  destruct (strip_prefix "remise:" g) as [r1|] eqn:E1.
  - rewrite (strip_prefix_app_some _ _ _ _ E1). cbn [mbind option_bind].
    destruct (span is_space r1) as [a b] eqn:E2.
    destruct b as [|c b].
    + destruct (span_sound _ _ _ E2) as [-> Ha].
      rewrite app_assoc.
      change (EmptyString +:+ String w (ws +:+ String "r" after))
        with (String w ws +:+ String "r" after).
      rewrite <- app_assoc.
      rewrite (span_app_stop (a +:+ String w ws) "r" after);
        [reflexivity| |reflexivity].
      apply all_space_app; [exact Ha|].
      cbn [all_space]. rewrite Hw, Hws. reflexivity.
    + rewrite (span_app_more _ _ _ _ _ E2). rewrite app_cons.
      cbn [strip_prefix]. destruct (Ascii.eqb ";" c); [|reflexivity].
      destruct b; reflexivity.
  - rewrite (strip_prefix_app_none _ _ _ _ (space_avoids_remise w Hw) E1).
    reflexivity.
Qed.

Lemma replace_remiseType_gap (n : nat) (ws after : string) (w : ascii) :
  is_space w = true -> all_space ws = true ->
  forall g, (String.length g < n)%nat ->
  exists g',
    replace_remiseType (g +:+ String w (ws +:+ String "r" after)) =
      g' +:+ replace_remiseType (String w (ws +:+ String "r" after)).
Proof.
  intros Hw Hws. induction n as [|n IH]; intros g Hn; [lia|].
  pose proof (match_remiseType_app g ws after w Hw Hws) as Hm.
  destruct (match_remiseType g) as [g1|] eqn:E.
  - destruct (IH g1) as [g1' Hg1];
      [apply match_remiseType_shorter in E; lia|].
    exists ("remise: " +:+ remise_body +:+ g1').
    rewrite (replace_remiseType_match _ _ Hm), Hg1, !app_assoc. reflexivity.
  - destruct g as [|c g0]; [exists EmptyString; reflexivity|].
    cbn [String.length] in Hn. destruct (IH g0 ltac:(lia)) as [g0' Hg0].
    exists (String c g0'). rewrite app_cons in Hm |- *.
    rewrite (replace_remiseType_skip _ _ Hm), Hg0. reflexivity.
Qed.

Lemma field_repaired_shape (f : remise_field) (after : string) :
  well_formed f ->
  exists w ws rest,
    is_space w = true /\ all_space ws = true /\
    field_repaired f +:+ after = String w (ws +:+ String "r" rest).
Proof.
  intros (Hne & Hl & _). unfold field_repaired.
  destruct (leading f) as [|w ws]; [contradiction|].
  cbn [all_space] in Hl. apply andb_prop in Hl as [Hw Hws].
  exists w, ws. eexists. split; [exact Hw|]. split; [exact Hws|].
  rewrite !app_assoc, app_cons. reflexivity.
Qed.

(** The standalone rule changes nothing in the fields the inline rule has
    repaired: it can only rewrite what stands between them *)
Lemma replace_remiseType_keeps_fields pieces (rest : string) :
  Forall (fun p => well_formed p.2) pieces ->
  exists pieces' rest',
    same_fields pieces' pieces /\
    replace_remiseType (assemble field_repaired pieces rest) =
      assemble field_repaired pieces' rest'.
Proof.
  induction 1 as [|[g f] pieces Hf _ IH].
  - exists [], (replace_remiseType rest). split; reflexivity.
  - destruct IH as (pieces' & rest' & Hsame & Hr). cbn [snd] in Hf.
    cbn [assemble].
    destruct (field_repaired_shape f (assemble field_repaired pieces rest) Hf)
      as (w & ws & z & Hw & Hws & Hshape).
    destruct (replace_remiseType_gap (S (String.length g)) ws z w Hw Hws g)
      as [g' Hg]; [lia|].
    exists ((g', f) :: pieces'), rest'.
    split; [unfold same_fields in *; cbn [map snd]; rewrite Hsame; reflexivity|].
    cbn [assemble]. rewrite Hshape, Hg, <- Hshape.
    rewrite (inert_replace _ _ (field_repaired_inert f Hf)), Hr. reflexivity.
Qed.



End Patcher.

(* ===================================================================== *)
(** * Further properties *)
(* ===================================================================== *)

Section QueryBuilderBehaviour.
Import JS QueryBuilder Behaviour.

(** X1. [size(n)] for a whole number [n] succeeds exactly when
    [1 <= n <= 100], storing [n] as a number under [size]; below 1 and
    above 100 it throws, each with its own message.  [NaN] passes both
    comparisons and is stored. *)
Theorem size_bounds (n : Z) (b : builder) :
  ((1 <= n <= 100)%Z ->
     size (Int n) b = Ok (with_param "size" (PNum (Int n)) b)) /\
  ((n < 1)%Z -> size (Int n) b = Failed "Page size must be at least 1") /\
  ((100 < n)%Z -> size (Int n) b = Failed "Page size cannot exceed 100") /\
  size NaN b = Ok (with_param "size" (PNum NaN) b).
Proof.
  unfold size, Int, lt_int, gt_int. cbn [Z.leb Z.opp].
  change (0 <=? 0)%Z with true. cbn iota.
  rewrite Z.pow_0_r, Z.mul_1_r.
  repeat split.
  - intros [H1 H2].
    destruct (Z.ltb_spec n 1); [lia|]. destruct (Z.ltb_spec 100 n); [lia|].
    reflexivity.
  - intros H. destruct (Z.ltb_spec n 1); [reflexivity|lia].
  - intros H. destruct (Z.ltb_spec n 1); [lia|].
    destruct (Z.ltb_spec 100 n); [reflexivity|lia].
Qed.

Lemma size_bounds_witness :
  size (Int 50) new = Ok (with_param "size" (PNum (Int 50)) new) /\
  size (Int 0) new = Failed "Page size must be at least 1" /\
  size (Int 101) new = Failed "Page size cannot exceed 100".
Proof.
  destruct (size_bounds 50 new) as (H1 & _).
  destruct (size_bounds 0 new) as (_ & H2 & _).
  destruct (size_bounds 101 new) as (_ & _ & H3 & _).
  split; [apply H1; lia|]. split; [apply H2; lia|apply H3; lia].
Defined.

Lemma add_filters_lookup fs :
  forall (m : gmap string param_value) (k : string),
    add_filters fs m !! k =
      match last_filter k fs with
      | Some o => Some (PStr (String_of (value o)))
      | None => m !! k
      end.
Proof.
  induction fs as [|[field [op v]] fs IH]; intros m k; [reflexivity|].
  cbn [add_filters last_filter]. rewrite IH.
  destruct (last_filter k fs) as [o'|]; [reflexivity|].
  unfold filter_key. cbn [operator value].
  destruct (is_str op "eq") eqn:Eeq.
  - rewrite lookup_insert.
    destruct (String.eqb_spec field k) as [->|Hne].
    + rewrite decide_True by reflexivity. reflexivity.
    + rewrite decide_False by exact Hne. reflexivity.
  - assert (Hkey :
      (if is_str op "exists"
       then <[field +:+ "[exists]" := PStr (String_of v)]> m
       else <[field +:+ "[" +:+ String_of op +:+ "]" :=
               PStr match v with
                    | AList l => join_with "," l
                    | _ => String_of v
                    end]> m)
      = <[field +:+ "[" +:+ String_of op +:+ "]" := PStr (String_of v)]> m).
    { destruct (is_str op "exists") eqn:Eex.
      - destruct op as [s| | |]; try discriminate Eex.
        apply String.eqb_eq in Eex. subst s. reflexivity.
      - destruct v; reflexivity. }
    rewrite Hkey, lookup_insert.
    destruct (String.eqb_spec (field +:+ "[" +:+ String_of op +:+ "]") k)
      as [->|Hne].
    + rewrite decide_True by reflexivity. reflexivity.
    + rewrite decide_False by exact Hne. reflexivity.
Qed.


Lemma map_set_keys (k : string) (o : FilterOptions) m :
  (In k (map fst m) -> map fst (map_set k o m) = map fst m) /\
  (~ In k (map fst m) -> map fst (map_set k o m) = (map fst m ++ [k])%list).
Proof.
  induction m as [|[k' o'] m [IH1 IH2]]; cbn [map_set map fst].
  - split; [contradiction|reflexivity].
  - destruct (String.eqb_spec k k') as [->|Hne]; cbn [map fst].
    + split; [reflexivity|]. intros H. exfalso. apply H. left. reflexivity.
    + split.
      * intros [H|H]; [congruence|]. rewrite (IH1 H). reflexivity.
      * intros H. rewrite IH2; [reflexivity|]. intros Hin. apply H.
        right. exact Hin.
Qed.

Lemma map_get_set_other (k k' : string) (o : FilterOptions) m :
  k <> k' -> map_get k' (map_set k o m) = map_get k' m.
Proof.
  intros Hne. induction m as [|[k0 o0] m IH]; cbn [map_set map_get].
  - destruct (String.eqb_spec k' k); [congruence|reflexivity].
  - destruct (String.eqb_spec k k0) as [->|Hk]; cbn [map_get].
    + destruct (String.eqb_spec k' k0); [congruence|reflexivity].
    + destruct (String.eqb k' k0); [reflexivity|exact IH].
Qed.

Lemma map_set_NoDup (k : string) (o : FilterOptions) m :
  NoDup (map fst m) -> NoDup (map fst (map_set k o m)).
Proof.
  intros Hnd. destruct (map_set_keys k o m) as [H1 H2].
  destruct (in_dec string_dec k (map fst m)) as [Hin|Hnin].
  - rewrite (H1 Hin). exact Hnd.
  - rewrite (H2 Hnin). apply NoDup_app. split; [exact Hnd|]. split.
    + intros x Hx [->|[]]%list_elem_of_In. apply Hnin, list_elem_of_In, Hx.
    + apply NoDup_singleton.
Qed.

(** X3. However a builder is driven - by [filter], [sort], [page],
    [size], [param] and [reset] in any order, failed calls included - no
    field is filtered twice: a filter on a field that has one takes its
    place, where it stood, and the other filters are as they were. *)
Theorem filters_hold_each_field_once (calls : list call) :
  forall b b',
    NoDup (map fst (filters b)) ->
    foldl (fun acc c => acc ≫= perform c) (Ok b) calls = Ok b' ->
    NoDup (map fst (filters b')).
Proof.
  induction calls as [|c calls IH] using rev_ind; intros b b' Hnd.
  - intros [= <-]. exact Hnd.
  - rewrite foldl_app. cbn [foldl].
    destruct (foldl (fun acc c0 => acc ≫= perform c0) (Ok b) calls)
      as [b1|msg] eqn:E; [|discriminate].
    specialize (IH b b1 Hnd E). cbn [mbind outcome_bind].
    destruct c as [field x v| | |n| |]; cbn [perform].
    + unfold filter.
      destruct v as [v|]; [intros [= <-]; apply map_set_NoDup, IH|].
      destruct x as [s| | |]; try (intros [= <-]; apply map_set_NoDup, IH).
      destruct (isOperator s); [discriminate|].
      intros [= <-]. apply map_set_NoDup, IH.
    + intros [= <-]. exact IH.
    + intros [= <-]. exact IH.
    + unfold size. destruct (lt_int n 1); [discriminate|].
      destruct (gt_int n 100); [discriminate|]. intros [= <-]. exact IH.
    + intros [= <-]. exact IH.
    + intros [= <-]. constructor.
Qed.

Lemma filters_hold_each_field_once_witness :
  NoDup (map fst (filters
    (with_filter "statut"
       {| operator := AStr "eq"; value := AStr "IRREVOCABLE" |}
       (with_filter "statut"
          {| operator := AStr "eq"; value := AStr "ENVOYE" |} new)))).
Proof.
  apply (filters_hold_each_field_once
           [ CFilter "statut" (AStr "ENVOYE") None;
             CFilter "statut" (AStr "eq") (Some (AStr "IRREVOCABLE")) ]
           new).
  - constructor.
  - reflexivity.
Defined.

(** X4. A second filter on a field replaces the first and keeps its place
    among the fields; a filter on a new field goes last; and a filter
    never touches what is stored for another field. *)
Theorem filter_replaces_in_place (field : string) (o : FilterOptions)
    (b : builder) :
  map_get field (filters (with_filter field o b)) = Some o /\
  (forall other, other <> field ->
     map_get other (filters (with_filter field o b)) =
       map_get other (filters b)) /\
  (In field (map fst (filters b)) ->
     map fst (filters (with_filter field o b)) = map fst (filters b)) /\
  (~ In field (map fst (filters b)) ->
     map fst (filters (with_filter field o b)) =
       (map fst (filters b) ++ [field])%list).
Proof.
  cbn [with_filter filters]. split; [|split; [|split]].
  - induction (filters b) as [|[k' o'] m IH]; cbn [map_set map_get].
    + rewrite String.eqb_refl. reflexivity.
    + destruct (String.eqb field k') eqn:E; cbn [map_get]; rewrite E;
        [reflexivity|exact IH].
  - intros other Hne. apply map_get_set_other. congruence.
  - apply map_set_keys.
  - apply map_set_keys.
Qed.

Lemma filter_replaces_in_place_witness :
  map fst (filters (with_filter "a"
             {| operator := AStr "gt"; value := ANum (Int 2) |}
             (with_filter "b" {| operator := AStr "eq"; value := AStr "x" |}
                (with_filter "a"
                   {| operator := AStr "eq"; value := ANum (Int 1) |} new))))
  = ["a"; "b"].
Proof.
  set (b := with_filter "b" {| operator := AStr "eq"; value := AStr "x" |}
              (with_filter "a"
                 {| operator := AStr "eq"; value := ANum (Int 1) |} new)).
  destruct (filter_replaces_in_place "a"
              {| operator := AStr "gt"; value := ANum (Int 2) |} b)
    as (_ & _ & H & _).
  rewrite H; [reflexivity|left; reflexivity].
Defined.

End QueryBuilderBehaviour.

Section ErrorMapperBehaviour.
Import JS ErrorHandler Behaviour.

Lemma handleApiError_raised (error : jsval) (e : sdk_error) :
  handleApiError error = Throws (Raised e) ->
  isApiError error = true.
Proof.
  unfold handleApiError. destruct (isApiError error); [reflexivity|discriminate].
Qed.



(** X6. What an error raised by [handleApiError] carries: the status and
    the status text of the failure, always; never a [retryAfter]; the
    [errors] of the body ([invalidParams], else [errors]) on a validation
    error only; [type] and [detail] on validation and generic errors,
    [instance] on generic errors only.  A class other than the generic one
    is given for a status that is a number, never for the string
    ["404"]. *)
Theorem raised_fields (error : jsval) (e : sdk_error) :
  handleApiError error = Throws (Raised e) ->
  statusCode e = get error "status" /\
  statusText e = get error "statusText" /\
  retryAfter e = VUndefined /\
  (name e <> PiSpiValidationError -> errors e = VUndefined) /\
  (name e = PiSpiValidationError ->
     errors e = or_else (get_opt (get error "body") "invalidParams")
                        (get_opt (get error "body") "errors")) /\
  (name e = PiSpiAuthError \/ name e = PiSpiNotFoundError \/
   name e = PiSpiRateLimitError ->
     type e = VUndefined /\ detail e = VUndefined) /\
  (name e <> PiSpiError -> instance e = VUndefined) /\
  (name e = PiSpiError ->
     type e = get_opt (get error "body") "type" /\
     instance e = get_opt (get error "body") "instance") /\
  (name e <> PiSpiError -> exists n, get error "status" = VNum n).
Proof.
  intros H. pose proof (handleApiError_raised _ _ H) as Hs.
  unfold handleApiError in H. rewrite Hs in H.
  assert (Hnum : forall z, strict_eq_int (get error "status") z = true ->
                           exists n, get error "status" = VNum n).
  { intros z. destruct (get error "status"); try discriminate. eauto. }
  destruct (strict_eq_int (get error "status") 400) eqn:E400;
    [|destruct (strict_eq_int (get error "status") 401) eqn:E401;
      [|destruct (strict_eq_int (get error "status") 403) eqn:E403;
        [|destruct (strict_eq_int (get error "status") 404) eqn:E404;
          [|destruct (strict_eq_int (get error "status") 429) eqn:E429]]]];
    injection H as <-;
    cbn [name statusCode statusText retryAfter errors type detail instance
         new_PiSpiError new_PiSpiValidationError new_PiSpiAuthError
         new_PiSpiNotFoundError new_PiSpiRateLimitError
         set_name set_errors set_retryAfter];
    repeat match goal with |- _ /\ _ => split end;
    first [ reflexivity
          | intros Hn; exfalso; apply Hn; reflexivity
          | intros Hn; discriminate Hn
          | intros [Hn|[Hn|Hn]]; discriminate Hn
          | intros _; split; reflexivity
          | intros _; eauto ].
Qed.

Lemma raised_fields_witness :
  handleApiError
    (VObj [ ("status", VStr "404"); ("statusText", VStr "Not Found");
            ("body", VObj [("instance", VStr "/comptes/1")]) ])
  = Throws (Raised (new_PiSpiError (VStr "Not Found") (VStr "404")
                      (VStr "Not Found") VUndefined VUndefined
                      (VStr "/comptes/1"))) /\
  statusCode (new_PiSpiError (VStr "Not Found") (VStr "404")
                (VStr "Not Found") VUndefined VUndefined
                (VStr "/comptes/1")) = VStr "404".
Proof.
  split; [reflexivity|].
  exact (proj1 (raised_fields
    (VObj [ ("status", VStr "404"); ("statusText", VStr "Not Found");
            ("body", VObj [("instance", VStr "/comptes/1")]) ])
    (new_PiSpiError (VStr "Not Found") (VStr "404") (VStr "Not Found")
       VUndefined VUndefined (VStr "/comptes/1")) eq_refl)).
Defined.

(** X7. An error the SDK has raised is not mapped a second time: thrown
    inside an operation that [execute] wraps, it comes out as it is, for it
    has a [statusText] but neither a [status] nor a [body].  So does the
    plain [Error] of a service that is not generated yet; and what an
    operation resolves with is returned. *)
Theorem execute_maps_once (e : sdk_error) :
  handleApiError (to_object e) = Throws (Rethrown (to_object e)) /\
  (forall operation,
     execute operation = Throws (Raised e) ->
     exists error, operation = Rejected error /\
       execute (Rejected (to_object e)) = Throws (Rethrown (to_object e))) /\
  execute (Rejected not_generated) = Throws (Rethrown not_generated) /\
  (forall v, execute (Fulfilled v) = Returns v).
Proof.
  assert (H : handleApiError (to_object e) = Throws (Rethrown (to_object e))).
  { unfold handleApiError.
    assert (Hs : isApiError (to_object e) = false)
      by (destruct e as [[] ? ? ? ? ? ? ? ?]; reflexivity).
    rewrite Hs. reflexivity. }
  split; [exact H|]. split; [|split; [reflexivity|reflexivity]].
  intros [v|error]; cbn [execute]; [discriminate|].
  intros _. exists error. split; [reflexivity|exact H].
Qed.

Lemma execute_maps_once_witness :
  execute (Rejected Spec.not_found_failure)
  = Throws (Raised (new_PiSpiNotFoundError (VStr "missing")
                      (VNum (Int 404)) (VStr "Not Found"))) /\
  execute (Rejected (to_object
             (new_PiSpiNotFoundError (VStr "missing")
                (VNum (Int 404)) (VStr "Not Found"))))
  = Throws (Rethrown (to_object
             (new_PiSpiNotFoundError (VStr "missing")
                (VNum (Int 404)) (VStr "Not Found")))).
Proof.
  split; [reflexivity|].
  destruct (proj1 (proj2 (execute_maps_once
              (new_PiSpiNotFoundError (VStr "missing")
                 (VNum (Int 404)) (VStr "Not Found"))))
              (Rejected Spec.not_found_failure) eq_refl)
    as (error & _ & H).
  exact H.
Defined.

End ErrorMapperBehaviour.

Section NormalizerBehaviour.
Import JS PreGenerate Spec Behaviour.


Lemma fixOperation_count (path key : string) (value : jsval) (c : counters) :
  (fixOperation path key value c).2 =
    if untagged value then count_fixed c else c.
Proof.
  unfold fixOperation, untagged.
  destruct (negb (truthy (get value "tags")) || negb (isArray (get value "tags"))
            || empty_array (get value "tags")); reflexivity.
Qed.

Lemma fixEntries_counts (path : string) (es : list (string * jsval)) :
  forall c,
    removedNullOps (fixEntries path es c).2 =
      (removedNullOps c + List.length (List.filter null_operation es))%nat /\
    fixedPaths (fixEntries path es c).2 =
      (fixedPaths c + List.length (List.filter untagged_operation es))%nat.
Proof.
  induction es as [|[key value] rest IH]; intros c.
  - cbn. split; lia.
  - cbn [fixEntries List.filter].
    change (null_operation (key, value))
      with (is_method key && nullish value).
    change (untagged_operation (key, value))
      with (is_method key && negb (nullish value) && is_object_type value
            && untagged value).
    change (includes httpMethods (toLowerCase key)) with (is_method key).
    destruct (is_method key); cbn [andb].
    + destruct value as [| |b|n|s|elems extra|props];
        cbn [nullish is_object_type typeof negb andb].
      1, 2: destruct (IH (count_removed c)) as [IH1 IH2]; rewrite IH1, IH2;
        cbn [List.length count_removed removedNullOps fixedPaths]; split; lia.
      1, 2, 3: pose proof (IH c) as H;
        destruct (fixEntries path rest c) as [rest' c']; exact H.
      all: match goal with
           | |- context [fixOperation ?p ?k ?v ?c0] =>
               pose proof (fixOperation_count p k v c0) as Hc;
               destruct (fixOperation p k v c0) as [value' c1];
               cbn [snd] in Hc; subst c1;
               pose proof (IH (if untagged v then count_fixed c0 else c0)) as H;
               destruct (fixEntries p rest
                           (if untagged v then count_fixed c0 else c0))
                 as [rest' c2];
               cbn [snd] in H |- *;
               destruct (untagged v);
               cbn [List.length count_fixed removedNullOps fixedPaths] in H |- *;
               destruct H as [H1 H2]; rewrite H1, H2; split; lia
           end.
    + pose proof (IH c) as H. destruct (fixEntries path rest c) as [rest' c'].
      exact H.
Qed.

Lemma fixPathItem_counts (path : string) (pathItem : jsval) (c : counters) :
  removedNullOps (fixPathItem path pathItem c).2 =
    (removedNullOps c +
     List.length (List.filter null_operation (named_entries pathItem)))%nat /\
  fixedPaths (fixPathItem path pathItem c).2 =
    (fixedPaths c +
     List.length (List.filter untagged_operation (named_entries pathItem)))%nat.
Proof.
  unfold fixPathItem.
  destruct pathItem as [| |b|n|s|es extra|ps]; cbn;
    try (destruct b); try (destruct (number_truthy n));
    try (destruct (negb (String.eqb s EmptyString)));
    cbn; try (split; lia).
  - pose proof (fixEntries_counts path extra c) as H.
    destruct (fixEntries path extra c) as [extra' c']. exact H.
  - pose proof (fixEntries_counts path ps c) as H.
    destruct (fixEntries path ps c) as [ps' c']. exact H.
Qed.

Lemma fixPathEntries_counts (entries : list (string * jsval)) :
  forall c,
    removedNullOps (fixPathEntries entries c).2 =
      (removedNullOps c +
       list_sum (map (fun pathItem =>
                        List.length (List.filter null_operation
                                       (named_entries pathItem)))
                     (map snd entries)))%nat /\
    fixedPaths (fixPathEntries entries c).2 =
      (fixedPaths c +
       list_sum (map (fun pathItem =>
                        List.length (List.filter untagged_operation
                                       (named_entries pathItem)))
                     (map snd entries)))%nat.
Proof.
  induction entries as [|[path pathItem] rest IH]; intros c.
  - cbn. split; lia.
  - cbn [fixPathEntries map snd list_sum fold_right].
    pose proof (fixPathItem_counts path pathItem c) as [H1 H2].
    destruct (fixPathItem path pathItem c) as [item' c1]. cbn [snd] in H1, H2.
    specialize (IH c1). destruct (fixPathEntries rest c1) as [rest' c2].
    cbn [snd] in IH |- *. destruct IH as [IH1 IH2].
    rewrite IH1, IH2, H1, H2. unfold list_sum. split; lia.
Qed.

Lemma fixPathElems_counts (elems : list jsval) :
  forall index c,
    removedNullOps (fixPathElems index elems c).2 =
      (removedNullOps c +
       list_sum (map (fun pathItem =>
                        List.length (List.filter null_operation
                                       (named_entries pathItem)))
                     elems))%nat /\
    fixedPaths (fixPathElems index elems c).2 =
      (fixedPaths c +
       list_sum (map (fun pathItem =>
                        List.length (List.filter untagged_operation
                                       (named_entries pathItem)))
                     elems))%nat.
Proof.
  induction elems as [|pathItem rest IH]; intros index c.
  - cbn. split; lia.
  - cbn [fixPathElems map list_sum fold_right].
    pose proof (fixPathItem_counts
                  (number_to_string (Int (Z.of_nat index))) pathItem c)
      as [H1 H2].
    destruct (fixPathItem _ pathItem c) as [item' c1]. cbn [snd] in H1, H2.
    specialize (IH (S index) c1).
    destruct (fixPathElems (S index) rest c1) as [rest' c2].
    cbn [snd] in IH |- *. destruct IH as [IH1 IH2].
    rewrite IH1, IH2, H1, H2. unfold list_sum. split; lia.
Qed.

Lemma fixPaths_counts (paths : jsval) :
  removedNullOps (fixPaths paths no_fixes).2 = tally null_operation paths /\
  fixedPaths (fixPaths paths no_fixes).2 = tally untagged_operation paths.
Proof.
  unfold fixPaths, tally.
  destruct paths as [| | | | |es extra|ps]; try (split; reflexivity).
  - pose proof (fixPathElems_counts es 0 no_fixes) as [H1 H2].
    destruct (fixPathElems 0 es no_fixes) as [es' c1]. cbn [snd] in H1, H2.
    pose proof (fixPathEntries_counts extra c1) as [H3 H4].
    destruct (fixPathEntries extra c1) as [extra' c2]. cbn [snd] in H3, H4 |- *.
    cbn [own_values]. rewrite !map_app, !list_sum_app, H3, H4, H1, H2.
    cbn. split; lia.
  - pose proof (fixPathEntries_counts ps no_fixes) as [H1 H2].
    destruct (fixPathEntries ps no_fixes) as [ps' c']. cbn [snd] in H1, H2 |- *.
    cbn [own_values]. rewrite H1, H2. cbn. split; lia.
Qed.

(** X9. The two counts the script reports are those of the document it
    read: the null operations it removed are the entries of the path items
    that have a method name for key and [null] for value, and the
    operations it fixed are those whose value is an object without a list
    of tags that is not empty.  An operation that only lacked its
    [operationId] is not counted. *)
Theorem reported_counts (spec spec' : jsval) (c : counters) :
  normalize spec = Normal (spec', c) ->
  removedNullOps c = tally null_operation (get spec "paths") /\
  fixedPaths c = tally untagged_operation (get spec "paths").
Proof.
  intros Hn. destruct (normalize_result _ _ _ Hn) as (Hv & _ & ->).
  destruct (validate_passes _ Hv) as (Hp & _).
  destruct (ensureTags_spec spec Hp) as (_ & _ & Hk).
  rewrite (Hk "paths") by discriminate. apply fixPaths_counts.
Qed.

Lemma reported_counts_witness :
  removedNullOps {| fixedPaths := 1; removedNullOps := 1 |} =
    tally null_operation
      (get (spec_with [ ("/comptes",
              VObj [ ("get", VObj [("operationId", VStr "lister")]);
                     ("delete", VNull);
                     ("post", VObj [("tags", VArr [VStr "Comptes"] [])]) ]) ])
           "paths").
Proof.
  exact (proj1 (reported_counts
    (spec_with [ ("/comptes",
        VObj [ ("get", VObj [("operationId", VStr "lister")]);
               ("delete", VNull);
               ("post", VObj [("tags", VArr [VStr "Comptes"] [])]) ]) ])
    (set (set (spec_with [ ("/comptes",
        VObj [ ("get", VObj [("operationId", VStr "lister")]);
               ("delete", VNull);
               ("post", VObj [("tags", VArr [VStr "Comptes"] [])]) ]) ])
            "tags" (VArr [] []))
       "paths"
       (VObj [ ("/comptes",
          VObj [ ("get", VObj [("operationId", VStr "lister");
                               ("tags", VArr [VStr "Default"] [])]);
                 ("post", VObj [("tags", VArr [VStr "Comptes"] []);
                                ("operationId", VStr "postComptes")]) ]) ]))
    {| fixedPaths := 1; removedNullOps := 1 |} eq_refl)).
Defined.

(** X10. Outside [paths] and [tags] the normalizer leaves the top level of
    the document as it was; [tags] is kept when it is an array, whatever it
    holds, and is the empty array otherwise. *)
Theorem normalize_frame (spec spec' : jsval) (c : counters) :
  normalize spec = Normal (spec', c) ->
  (forall k, k <> "tags" -> k <> "paths" -> get spec' k = get spec k) /\
  get spec' "tags" =
    if isArray (get spec "tags") then get spec "tags" else VArr [] [].
Proof.
  intros Hn. destruct (normalize_result _ _ _ Hn) as (Hv & -> & _).
  destruct (validate_passes _ Hv) as (Hp & _).
  destruct (ensureTags_spec spec Hp) as (_ & _ & Hk).
  split.
  - intros k Ht Hpa. rewrite get_set_other by congruence. apply Hk, Ht.
  - rewrite get_set_other by discriminate. unfold ensureTags.
    destruct (get spec "tags") eqn:Et; cbn [truthy isArray negb orb];
      rewrite ?orb_true_r;
      try (rewrite get_set_same by exact Hp; reflexivity).
    exact Et.
Qed.

Lemma normalize_frame_witness :
  get (set (set (spec_with []) "tags" (VArr [] [])) "paths" (VObj []))
      "openapi"
  = get (spec_with []) "openapi".
Proof.
  exact (proj1 (normalize_frame (spec_with [])
                  (set (set (spec_with []) "tags" (VArr [] []))
                       "paths" (VObj []))
                  no_fixes eq_refl) "openapi" ltac:(discriminate)
               ltac:(discriminate)).
Defined.

Lemma fixEntries_layout (path : string) (es : list (string * jsval)) :
  forall c, layout_kept es (fixEntries path es c).1.
Proof.
  unfold layout_kept, kept, other_entries.
  induction es as [|[key value] rest IH]; intros c; [split; reflexivity|].
  cbn [fixEntries List.filter].
  change (null_operation (key, value)) with (is_method key && nullish value).
  change (includes httpMethods (toLowerCase key)) with (is_method key).
  cbn [fst].
  destruct (is_method key) eqn:Ek; cbn [andb negb].
  - destruct value as [| |b|n|s|elems extra|props];
      cbn [nullish is_object_type typeof negb].
    1, 2: apply IH.
    1, 2, 3: destruct (IH c) as [H1 H2];
      destruct (fixEntries path rest c) as [rest' c'];
      cbn [fst snd map List.filter] in *; rewrite Ek; cbn [negb];
      split; [f_equal; exact H1|exact H2].
    all: match goal with
         | |- context [fixOperation ?p ?k ?v ?c0] =>
             destruct (fixOperation p k v c0) as [value' c1];
             destruct (IH c1) as [H1 H2];
             destruct (fixEntries p rest c1) as [rest' c2];
             cbn [fst snd map List.filter] in *; rewrite Ek; cbn [negb];
             split; [f_equal; exact H1|exact H2]
         end.
  - destruct (IH c) as [H1 H2]. destruct (fixEntries path rest c) as [rest' c'].
    cbn [fst snd map List.filter] in *. rewrite Ek. cbn [negb].
    split; f_equal; assumption.
Qed.

Lemma fixPathItem_layout (path : string) (pathItem : jsval) (c : counters) :
  same_layout pathItem (fixPathItem path pathItem c).1.
Proof.
  unfold fixPathItem, same_layout.
  destruct pathItem as [| |b|n|s|elems extra|ps]; cbn [truthy is_object_type
    typeof andb]; rewrite ?andb_false_r; try reflexivity.
  - pose proof (fixEntries_layout path extra c) as H.
    destruct (fixEntries path extra c) as [extra' c']. eauto.
  - pose proof (fixEntries_layout path ps c) as H.
    destruct (fixEntries path ps c) as [ps' c']. eauto.
Qed.

Lemma fixPathEntries_layout (entries : list (string * jsval)) :
  forall c,
    map fst (fixPathEntries entries c).1 = map fst entries /\
    Forall2 same_layout (map snd entries)
            (map snd (fixPathEntries entries c).1).
Proof.
  induction entries as [|[path pathItem] rest IH]; intros c.
  - split; [reflexivity|constructor].
  - cbn [fixPathEntries].
    pose proof (fixPathItem_layout path pathItem c) as Hi.
    destruct (fixPathItem path pathItem c) as [item' c1].
    destruct (IH c1) as [H1 H2]. destruct (fixPathEntries rest c1) as [rest' c2].
    cbn [fst snd map] in *. split; [f_equal; exact H1|].
    constructor; assumption.
Qed.

(** X11. The normalizer adds no path, removes none and keeps them in their
    order.  In a path item it removes the null operations and no other
    key, keeps the others in their order, and leaves as they were the
    entries whose key is not a method name ([parameters], [summary] and
    the like); a path item that is not an object is left as it was. *)
Theorem normalize_keeps_layout (spec spec' : jsval) (c : counters)
    (paths : list (string * jsval)) :
  normalize spec = Normal (spec', c) ->
  get spec "paths" = VObj paths ->
  exists paths',
    get spec' "paths" = VObj paths' /\
    map fst paths' = map fst paths /\
    Forall2 same_layout (map snd paths) (map snd paths').
Proof.
  intros Hn Hpaths. destruct (normalize_paths _ _ _ Hn) as (_ & -> & _).
  rewrite Hpaths. cbn [fixPaths].
  destruct (fixPathEntries_layout paths no_fixes) as [H1 H2].
  destruct (fixPathEntries paths no_fixes) as [paths' c']. cbn [fst] in *.
  exists paths'. auto.
Qed.

Lemma normalize_keeps_layout_witness :
  exists paths',
    get (set (set (spec_with [ ("/comptes",
                     VObj [ ("parameters", VArr [] []); ("delete", VNull) ]) ])
                "tags" (VArr [] []))
           "paths" (VObj [ ("/comptes", VObj [ ("parameters", VArr [] []) ]) ]))
        "paths" = VObj paths' /\
    map fst paths' = ["/comptes"] /\
    Forall2 same_layout
      [ VObj [ ("parameters", VArr [] []); ("delete", VNull) ] ]
      (map snd paths').
Proof.
  exact (normalize_keeps_layout
    (spec_with [ ("/comptes",
        VObj [ ("parameters", VArr [] []); ("delete", VNull) ]) ])
    _ {| fixedPaths := 0; removedNullOps := 1 |}
    [ ("/comptes", VObj [ ("parameters", VArr [] []); ("delete", VNull) ]) ]
    eq_refl eq_refl).
Defined.

Lemma split_not_nil (sep : ascii) (s : string) : split sep s <> [].
Proof.
  destruct s as [|c r]; cbn [split]; [discriminate|].
  destruct (Ascii.eqb c sep); [discriminate|].
  destruct (split sep r); discriminate.
Qed.

Lemma split_app (sep : ascii) (a b : string) :
  split sep (a +:+ String sep b) = (split sep a ++ split sep b)%list.
Proof.
  induction a as [|c a IH].
  - change (EmptyString +:+ String sep b) with (String sep b).
    cbn [split]. rewrite Ascii.eqb_refl. reflexivity.
  - rewrite app_cons. cbn [split]. rewrite IH.
    destruct (Ascii.eqb c sep); [reflexivity|].
    destruct (split sep a) as [|h t] eqn:E; [|reflexivity].
    exfalso. exact (split_not_nil sep a E).
Qed.

Lemma split_no_slash (s : string) :
  no_slash s = true -> split "/" s = [s].
Proof.
  induction s as [|c s IH]; [reflexivity|].
  cbn [no_slash split]. intros H. apply andb_prop in H as [Hc Hs].
  apply negb_true_iff in Hc. rewrite Hc, (IH Hs). reflexivity.
Qed.

Lemma no_slash_app (a b : string) :
  no_slash a = true -> no_slash b = true -> no_slash (a +:+ b) = true.
Proof.
  intros Ha Hb. induction a as [|c a IH]; [exact Hb|].
  cbn [no_slash] in Ha. apply andb_prop in Ha as [Hc Ha].
  rewrite app_cons. cbn [no_slash]. rewrite Hc, (IH Ha). reflexivity.
Qed.

Lemma app_empty_r (a : string) : a +:+ EmptyString = a.
Proof.
  induction a as [|c a IH]; [reflexivity|]. rewrite app_cons, IH. reflexivity.
Qed.

Lemma pathParts_parameter (name : string) :
  no_slash name = true ->
  List.filter
    (fun p => negb (String.eqb p EmptyString) && negb (startsWith p "{"))
    (split "/" (parameter name)) = [].
Proof.
  intros Hn. rewrite split_no_slash.
  - unfold parameter.
    change ("{" +:+ (name +:+ "}")) with (String "{" (name +:+ "}")).
    cbn [List.filter String.eqb negb andb startsWith].
    destruct (name +:+ "}"); reflexivity.
  - unfold parameter. change ("{" +:+ (name +:+ "}")) with (String "{" (name +:+ "}")).
    cbn [no_slash]. rewrite no_slash_app; [reflexivity|exact Hn|reflexivity].
Qed.

(** X12. A path parameter adds nothing to a synthesized [operationId]:
    the path with a segment [{name}] gets the identifier of the path
    without it, so that [/comptes] and [/comptes/{id}] are given the same
    one for the same method. *)
Theorem operationId_ignores_parameters (key before name after : string) :
  no_slash name = true -> at_boundary after = true ->
  operationIdFor key (before +:+ String "/" (parameter name +:+ after)) =
  operationIdFor key (before +:+ after).
Proof.
  intros Hn Hb. unfold operationIdFor, pathParts. do 3 f_equal.
  destruct after as [|c after].
  - rewrite !app_empty_r, split_app, List.filter_app, pathParts_parameter
      by exact Hn.
    apply app_nil_r.
  - cbn [at_boundary] in Hb. apply Ascii.eqb_eq in Hb. subst c.
    rewrite !split_app, !List.filter_app, pathParts_parameter by exact Hn.
    reflexivity.
Qed.

Lemma operationId_ignores_parameters_witness :
  operationIdFor "get" "/comptes/{id}/soldes" =
  operationIdFor "get" "/comptes/soldes".
Proof.
  exact (operationId_ignores_parameters "get" "/comptes" "id" "/soldes"
           eq_refl eq_refl).
Defined.

End NormalizerBehaviour.

Section UtilitiesBehaviour.
Import JS PostGenerate Utils Behaviour.

Lemma span_all_of (p : ascii -> bool) (s a b : string) :
  span p s = (a, b) -> s = a +:+ b /\ all_of p a = true.
Proof.
  revert a b. induction s as [|c s IH]; intros a b; cbn [span].
  - intros [= <- <-]. split; reflexivity.
  - destruct (p c) eqn:Ec.
    + destruct (span p s) as [a' b'] eqn:E. intros [= <- <-].
      destruct (IH a' b' eq_refl) as [-> Ha].
      split; [reflexivity|]. cbn [all_of]. rewrite Ec, Ha. reflexivity.
    + intros [= <- <-]. split; reflexivity.
Qed.

Lemma span_whole (p : ascii -> bool) (a : string) :
  all_of p a = true -> span p a = (a, EmptyString).
Proof.
  induction a as [|c a IH]; [reflexivity|]. cbn [all_of span].
  intros H. apply andb_prop in H as [Hc Ha]. rewrite Hc, (IH Ha). reflexivity.
Qed.

Lemma span_app_other (p : ascii -> bool) (a : string) (c : ascii) (b : string) :
  all_of p a = true -> p c = false ->
  span p (a +:+ String c b) = (a, String c b).
Proof.
  intros Ha Hc. induction a as [|x a IH].
  - change (EmptyString +:+ String c b) with (String c b).
    cbn [span]. rewrite Hc. reflexivity.
  - cbn [all_of] in Ha. apply andb_prop in Ha as [Hx Ha].
    rewrite app_cons. cbn [span]. rewrite Hx, (IH Ha). reflexivity.
Qed.

Lemma digit_not_upper (c : ascii) : is_digit c = true -> is_upper c = false.
Proof.
  unfold is_digit, is_upper. intros H. apply andb_prop in H as [_ H].
  apply Nat.leb_le in H. apply andb_false_iff. left.
  apply Nat.leb_gt. lia.
Qed.

(** X13. [isValidAccountNumber] accepts exactly two or three capital
    letters followed by 19 to 22 digits and nothing else: 21 to 25
    characters in all, no space around them, no letter in lower case. *)
Theorem account_number_format (accountNumber : string) :
  isValidAccountNumber accountNumber = true <->
  exists letters digits,
    accountNumber = letters +:+ digits /\
    all_of is_upper letters = true /\ all_of is_digit digits = true /\
    (2 <= String.length letters <= 3)%nat /\
    (19 <= String.length digits <= 22)%nat.
Proof.
  unfold isValidAccountNumber. split.
  - destruct (span is_upper accountNumber) as [letters rest] eqn:E1.
    destruct (span is_digit rest) as [digits tail] eqn:E2.
    intros H. repeat (apply andb_prop in H as [H ?]).
    apply span_all_of in E1 as [-> Hl]. apply span_all_of in E2 as [-> Hd].
    match goal with Ht : String.eqb tail _ = true |- _ =>
      apply String.eqb_eq in Ht; subst tail end.
    rewrite app_empty_r.
    repeat match goal with
           | Hx : (_ <=? _)%nat = true |- _ => apply Nat.leb_le in Hx
           end.
    exists letters, digits. repeat split; assumption.
  - intros (letters & digits & -> & Hl & Hd & [Hl1 Hl2] & [Hd1 Hd2]).
    destruct digits as [|d digits]; [cbn [String.length] in Hd1; lia|].
    pose proof Hd as Hd'. cbn [all_of] in Hd'. apply andb_prop in Hd' as [Hd0 _].
    rewrite (span_app_other is_upper letters d digits Hl (digit_not_upper d Hd0)).
    rewrite (span_whole is_digit _ Hd).
    apply Nat.leb_le in Hl1, Hl2, Hd1, Hd2.
    rewrite Hl1, Hl2, Hd1, Hd2. reflexivity.
Qed.

Lemma is_hex_upper (c : ascii) : is_hex (upper_char c) = is_hex c.
Proof. destruct c as [[] [] [] [] [] [] [] []]; reflexivity. Qed.

Lemma is_hex_lower (c : ascii) : is_hex (lower_char c) = is_hex c.
Proof. destruct c as [[] [] [] [] [] [] [] []]; reflexivity. Qed.

Lemma hyphen_upper (c : ascii) : Ascii.eqb "-" (upper_char c) = Ascii.eqb "-" c.
Proof. destruct c as [[] [] [] [] [] [] [] []]; reflexivity. Qed.

Lemma hyphen_lower (c : ascii) : Ascii.eqb "-" (lower_char c) = Ascii.eqb "-" c.
Proof. destruct c as [[] [] [] [] [] [] [] []]; reflexivity. Qed.

Lemma take_map_string (f : ascii -> ascii) (p : ascii -> bool) (n : nat) :
  (forall c, p (f c) = p c) ->
  forall s, take p n (map_string f s) = map_string f <$> take p n s.
Proof.
  intros Hf. induction n as [|n IH]; intros s; [reflexivity|].
  destruct s as [|c s]; [reflexivity|].
  cbn [map_string take]. rewrite Hf. destruct (p c); [apply IH|reflexivity].
Qed.

Lemma strip_hyphen_map_string (f : ascii -> ascii) (s : string) :
  (forall c, Ascii.eqb "-" (f c) = Ascii.eqb "-" c) ->
  strip_prefix "-" (map_string f s) = map_string f <$> strip_prefix "-" s.
Proof.
  intros Hf. destruct s as [|c s]; [reflexivity|].
  cbn [map_string strip_prefix]. rewrite Hf.
  destruct (Ascii.eqb "-" c); [|reflexivity]. destruct s; reflexivity.
Qed.

Lemma isValidShidAlias_map_string (f : ascii -> ascii) (alias : string) :
  (forall c, is_hex (f c) = is_hex c) ->
  (forall c, Ascii.eqb "-" (f c) = Ascii.eqb "-" c) ->
  isValidShidAlias (map_string f alias) = isValidShidAlias alias.
Proof.
  intros Hh Hy. unfold isValidShidAlias.
  rewrite (take_map_string f is_hex 8 Hh).
  destruct (take is_hex 8 alias) as [r1|]; [|reflexivity].
  cbn [fmap option_fmap option_map mbind option_bind].
  rewrite (strip_hyphen_map_string f r1 Hy).
  destruct (strip_prefix "-" r1) as [r2|]; [|reflexivity].
  cbn [fmap option_fmap option_map mbind option_bind].
  rewrite (take_map_string f is_hex 4 Hh).
  destruct (take is_hex 4 r2) as [r3|]; [|reflexivity].
  cbn [fmap option_fmap option_map mbind option_bind].
  rewrite (strip_hyphen_map_string f r3 Hy).
  destruct (strip_prefix "-" r3) as [r4|]; [|reflexivity].
  cbn [fmap option_fmap option_map mbind option_bind].
  rewrite (take_map_string f is_hex 4 Hh).
  destruct (take is_hex 4 r4) as [r5|]; [|reflexivity].
  cbn [fmap option_fmap option_map mbind option_bind].
  rewrite (strip_hyphen_map_string f r5 Hy).
  destruct (strip_prefix "-" r5) as [r6|]; [|reflexivity].
  cbn [fmap option_fmap option_map mbind option_bind].
  rewrite (take_map_string f is_hex 4 Hh).
  destruct (take is_hex 4 r6) as [r7|]; [|reflexivity].
  cbn [fmap option_fmap option_map mbind option_bind].
  rewrite (strip_hyphen_map_string f r7 Hy).
  destruct (strip_prefix "-" r7) as [r8|]; [|reflexivity].
  cbn [fmap option_fmap option_map mbind option_bind].
  rewrite (take_map_string f is_hex 12 Hh).
  destruct (take is_hex 12 r8) as [[|c r9]|]; reflexivity.
Qed.


Lemma remove_separators_app (a b : string) :
  remove_separators (a +:+ b) = remove_separators a +:+ remove_separators b.
Proof.
  induction a as [|c a IH]; [reflexivity|].
  rewrite app_cons. cbn [remove_separators]. rewrite IH.
  destruct (is_separator c); reflexivity.
Qed.

(** X15. [isValidPhoneNumber] ignores spaces, line breaks and hyphens
    wherever they stand: a number with one more of them, before, inside
    or after it, is accepted or rejected as the number without it. *)
Theorem phone_number_separators (before : string) (c : ascii) (after : string) :
  is_separator c = true ->
  isValidPhoneNumber (before +:+ String c after) =
  isValidPhoneNumber (before +:+ after).
Proof.
  intros Hc. unfold isValidPhoneNumber.
  rewrite !remove_separators_app. cbn [remove_separators]. rewrite Hc.
  reflexivity.
Qed.

Lemma phone_number_separators_witness :
  isValidPhoneNumber "+225 0708091011" = isValidPhoneNumber "+2250708091011".
Proof.
  exact (phone_number_separators "+225" " " "0708091011" eq_refl).
Defined.

Lemma attempts_resolve {T : Type} (fn : nat -> attempt T)
    (maxRetries initialDelay : Z) (k : nat) (v : T) :
  (forall j, (j < k)%nat -> exists e, fn j = Rejects e) ->
  fn k = Resolves v ->
  forall remaining i lastError,
    Z.of_nat (i + remaining) = maxRetries ->
    (i <= k < i + remaining)%nat ->
    attempts fn maxRetries initialDelay remaining i lastError =
      {| settles := inl v; calls := S k;
         sleeps := map (fun j => (initialDelay * 2 ^ Z.of_nat j)%Z)
                       (seq i (k - i)) |}.
Proof.
  intros Hrej Hres. induction remaining as [|r IH]; intros i lastError HM Hk;
    [lia|].
  cbn [attempts].
  destruct (Nat.eq_dec i k) as [->|Hne].
  - rewrite Hres, Nat.sub_diag. reflexivity.
  - destruct (Hrej i ltac:(lia)) as [e He]. rewrite He.
    rewrite (IH (S i) (Some (as_error e))) by lia.
    replace (Z.of_nat i <? maxRetries - 1)%Z with true
      by (symmetry; apply Z.ltb_lt; lia).
    cbn [settles calls sleeps].
    replace (k - i)%nat with (S (k - S i)) by lia. reflexivity.
Qed.

Lemma attempts_reject {T : Type} (fn : nat -> attempt T)
    (maxRetries initialDelay : Z) (n : nat) (last : rejection) :
  (forall j, (j < n)%nat -> exists e, fn j = Rejects e) ->
  fn n = Rejects last ->
  forall remaining i lastError,
    Z.of_nat (i + remaining) = maxRetries ->
    (i + remaining = S n)%nat -> (0 < remaining)%nat ->
    attempts fn maxRetries initialDelay remaining i lastError =
      {| settles := inr (as_error last); calls := S n;
         sleeps := map (fun j => (initialDelay * 2 ^ Z.of_nat j)%Z)
                       (seq i (n - i)) |}.
Proof.
  intros Hrej Hlast. induction remaining as [|r IH];
    intros i lastError HM Hn Hpos; [lia|].
  cbn [attempts].
  destruct r as [|r].
  - assert (i = n) by lia. subst i. rewrite Hlast. cbn [attempts].
    replace (Z.of_nat n <? maxRetries - 1)%Z with false
      by (symmetry; apply Z.ltb_ge; lia).
    rewrite Nat.sub_diag. reflexivity.
  - destruct (Hrej i ltac:(lia)) as [e He]. rewrite He.
    rewrite (IH (S i) (Some (as_error e))) by lia.
    replace (Z.of_nat i <? maxRetries - 1)%Z with true
      by (symmetry; apply Z.ltb_lt; lia).
    cbn [settles calls sleeps].
    replace (n - i)%nat with (S (n - S i)) by lia. reflexivity.
Qed.





End UtilitiesBehaviour.

Section PatcherBehaviour.
Import JS PostGenerate Spec Behaviour.

Lemma after_last_apostrophe_sound (line t : string) :
  after_last_apostrophe line = Some t ->
  exists value,
    line = value +:+ String apostrophe t /\ after_last_apostrophe t = None.
Proof.
  revert t. induction line as [|c r IH]; intros t; cbn [after_last_apostrophe];
    [discriminate|].
  destruct (after_last_apostrophe r) as [t'|] eqn:E.
  - intros [= ->]. destruct (IH t eq_refl) as (value & -> & Ht).
    exists (String c value). split; [reflexivity|exact Ht].
  - destruct (Ascii.eqb c apostrophe) eqn:Ec; [|discriminate].
    intros [= ->]. apply Ascii.eqb_eq in Ec. subst c.
    exists EmptyString. split; [reflexivity|exact E].
Qed.

Lemma all_of_app (p : ascii -> bool) (a b : string) :
  all_of p (a +:+ b) = all_of p a && all_of p b.
Proof.
  induction a as [|c a IH]; [reflexivity|].
  rewrite app_cons. cbn [all_of]. rewrite IH, andb_assoc. reflexivity.
Qed.

Lemma span_rest (p : ascii -> bool) (s a b : string) :
  span p s = (a, b) ->
  b = EmptyString \/ exists c b', b = String c b' /\ p c = false.
Proof.
  revert a b. induction s as [|c s IH]; intros a b; cbn [span].
  - intros [= <- <-]. left. reflexivity.
  - destruct (p c) eqn:Ec.
    + destruct (span p s) as [a' b'] eqn:E. intros [= <- <-].
      apply (IH a' b' eq_refl).
    + intros [= <- <-]. right. eauto.
Qed.

Lemma match_assignment_sound (key s rest : string) :
  match_assignment key s = Some rest ->
  exists value,
    s = assignment_start key +:+ value +:+ String apostrophe rest /\
    all_of not_line_terminator value = true /\
    after_last_apostrophe (line_of rest) = None.
Proof.
  unfold match_assignment.
  destruct (strip_prefix (key +:+ ": " +:+ str1 apostrophe) s) as [r|] eqn:E1;
    [|discriminate].
  cbn [mbind option_bind].
  destruct (span not_line_terminator r) as [line after] eqn:E2.
  destruct (after_last_apostrophe line) as [t|] eqn:E3; [|discriminate].
  cbn [mbind option_bind]. intros [= <-].
  apply strip_prefix_sound in E1. subst s.
  destruct (span_all_of _ _ _ _ E2) as [-> Hline].
  destruct (after_last_apostrophe_sound _ _ E3) as (value & -> & Ht).
  rewrite all_of_app in Hline. apply andb_prop in Hline as [Hv Hq].
  cbn [all_of] in Hq. apply andb_prop in Hq as [_ Htl].
  exists value. split; [|split; [exact Hv|]].
  - unfold assignment_start. rewrite (app_assoc value). reflexivity.
  - unfold line_of.
    destruct (span_rest _ _ _ _ E2) as [->|(c & b' & -> & Hc)].
    + rewrite app_empty_r, (span_whole _ _ Htl). exact Ht.
    + rewrite (span_app_other _ _ _ _ Htl Hc). exact Ht.
Qed.


Lemma match_remiseField_unfold (s : string) :
  match_remiseField s =
    let '(ws, rest) := span is_space s in
    if String.eqb ws EmptyString then None
    else r ← remiseField_tail rest; Some (ws, r).
Proof.
  unfold match_remiseField, remiseField_tail.
  destruct (span is_space s) as [ws rest].
  destruct (String.eqb ws EmptyString); [reflexivity|].
  destruct (strip_prefix "remise" rest) as [r1|]; [|reflexivity].
  cbn [mbind option_bind].
  destruct (strip_prefix ":" (default r1 (strip_prefix "?" r1))) as [r2|];
    [|reflexivity].
  cbn [mbind option_bind].
  destruct (span is_space r2) as [w r3]. reflexivity.
Qed.

Lemma span_black (w x : string) :
  all_space w = true -> starts_black x = true ->
  span is_space (w +:+ x) = (w, x).
Proof.
  intros Hw Hx. induction w as [|c w IH].
  - change (EmptyString +:+ x) with x. destruct x as [|c r]; [reflexivity|].
    cbn [starts_black] in Hx. apply negb_true_iff in Hx.
    cbn [span]. rewrite Hx. reflexivity.
  - cbn [all_space] in Hw. apply andb_prop in Hw as [Hc Hw].
    rewrite app_cons. cbn [span]. rewrite Hc, (IH Hw). reflexivity.
Qed.

Lemma span_starts_black (s a b : string) :
  span is_space s = (a, b) -> starts_black b = true.
Proof.
  intros H. destruct (span_rest _ _ _ _ H) as [->|(c & b' & -> & Hc)];
    [reflexivity|]. cbn [starts_black]. rewrite Hc. reflexivity.
Qed.

Lemma match_remiseField_black (x : string) :
  starts_black x = true -> match_remiseField x = None.
Proof.
  intros Hx. rewrite match_remiseField_unfold.
  pose proof (span_black EmptyString x eq_refl Hx) as H.
  change (EmptyString +:+ x) with x in H. rewrite H. reflexivity.
Qed.

Lemma match_remiseField_spaces (w x : string) :
  all_space w = true -> starts_black x = true ->
  match_remiseField (w +:+ x) =
    if String.eqb w EmptyString then None
    else r ← remiseField_tail x; Some (w, r).
Proof.
  intros Hw Hx. rewrite match_remiseField_unfold, (span_black w x Hw Hx).
  reflexivity.
Qed.

Lemma replace_remiseField_empty : replace_remiseField EmptyString = EmptyString.
Proof. reflexivity. Qed.

Lemma replace_remiseField_head (c : ascii) (r : string) :
  exists r', replace_remiseField (String c r) = String c r'.
Proof.
  destruct (match_remiseField (String c r)) as [[ws rest]|] eqn:E.
  - rewrite (replace_remiseField_match _ _ _ E).
    rewrite match_remiseField_unfold in E. cbn [span] in E.
    destruct (is_space c).
    + destruct (span is_space r) as [a b].
      cbn [String.eqb] in E.
      destruct (remiseField_tail b) as [t|]; [|discriminate].
      cbn [mbind option_bind] in E. injection E as <- <-.
      eexists. unfold remiseField_replacement. rewrite !app_cons. reflexivity.
    + discriminate.
  - rewrite (replace_remiseField_skip _ _ E). eauto.
Qed.

Lemma replace_remiseField_black (c : ascii) (r : string) :
  is_space c = false ->
  replace_remiseField (String c r) = String c (replace_remiseField r).
Proof.
  intros Hc. apply replace_remiseField_skip, match_remiseField_black.
  cbn [starts_black]. rewrite Hc. reflexivity.
Qed.

Lemma replace_remiseField_starts_black (x : string) :
  starts_black x = true -> starts_black (replace_remiseField x) = true.
Proof.
  destruct x as [|c r]; [reflexivity|]. intros H.
  destruct (replace_remiseField_head c r) as [r' ->]. exact H.
Qed.

Lemma strip_prefix_replace_remiseField (p : string) :
  all_of black p = true ->
  forall x,
    strip_prefix p (replace_remiseField x) =
      replace_remiseField <$> strip_prefix p x.
Proof.
  induction p as [|a p IH]; intros Hp x.
  - cbn [strip_prefix]. reflexivity.
  - cbn [all_of] in Hp. apply andb_prop in Hp as [Ha Hp].
    destruct x as [|b x]; [reflexivity|].
    destruct (Ascii.eqb a b) eqn:E.
    + apply Ascii.eqb_eq in E. subst b.
      unfold black in Ha. apply negb_true_iff in Ha.
      rewrite (replace_remiseField_black a x Ha).
      cbn [strip_prefix]. rewrite Ascii.eqb_refl. apply IH, Hp.
    + destruct (replace_remiseField_head b x) as [r' ->].
      cbn [strip_prefix]. rewrite E. reflexivity.
Qed.

Lemma replace_remiseField_spaces (w x : string) :
  all_space w = true -> starts_black x = true ->
  remiseField_tail x = None ->
  replace_remiseField (w +:+ x) = w +:+ replace_remiseField x.
Proof.
  intros Hw Hx Ht. induction w as [|c w IH]; [reflexivity|].
  pose proof Hw as Hw'. cbn [all_space] in Hw'.
  apply andb_prop in Hw' as [Hc Hw'].
  rewrite !app_cons. rewrite replace_remiseField_skip.
  - rewrite (IH Hw'). reflexivity.
  - rewrite <- app_cons, (match_remiseField_spaces _ _ Hw Hx), Ht.
    reflexivity.
Qed.

Lemma remiseField_replacement_tail (y : string) :
  starts_black (remiseField_replacement EmptyString +:+ y) = true /\
  remiseField_tail (remiseField_replacement EmptyString +:+ y) = None /\
  strip_prefix ";" (remiseField_replacement EmptyString +:+ y) = None /\
  test_remiseField (remiseField_replacement EmptyString +:+ y) =
    test_remiseField y.
Proof. repeat split; vm_compute; reflexivity. Qed.

Lemma remiseField_replacement_app (ws y : string) :
  remiseField_replacement ws +:+ y =
    ws +:+ (remiseField_replacement EmptyString +:+ y).
Proof. unfold remiseField_replacement. rewrite app_assoc. reflexivity. Qed.

Lemma match_remiseField_group (s ws rest : string) :
  match_remiseField s = Some (ws, rest) ->
  all_space ws = true /\ ws <> EmptyString.
Proof.
  rewrite match_remiseField_unfold.
  destruct (span is_space s) as [a b] eqn:E.
  destruct (String.eqb a EmptyString) eqn:Ea; [discriminate|].
  destruct (remiseField_tail b); [|discriminate].
  cbn [mbind option_bind]. intros [= <- <-].
  apply span_sound in E as [_ Ha]. split; [exact Ha|].
  intros ->. discriminate.
Qed.

Lemma remiseType_tail_replace_remiseField (y : string) :
  remiseType_tail y = None ->
  remiseType_tail (replace_remiseField y) = None.
Proof.
  unfold remiseType_tail.
  destruct (span is_space y) as [w x] eqn:E. intros H.
  pose proof (span_starts_black _ _ _ E) as Hx.
  destruct (span_sound _ _ _ E) as [-> Hw].
  destruct (match_remiseField (w +:+ x)) as [[ws rest]|] eqn:Em.
  - rewrite (replace_remiseField_match _ _ _ Em), remiseField_replacement_app.
    destruct (match_remiseField_group _ _ _ Em) as [Hws _].
    destruct (remiseField_replacement_tail (replace_remiseField rest))
      as (Hb & _ & Hs & _).
    rewrite (span_black _ _ Hws Hb). exact Hs.
  - rewrite (match_remiseField_spaces _ _ Hw Hx) in Em.
    assert (Hr : replace_remiseField (w +:+ x) = w +:+ replace_remiseField x).
    { destruct w as [|c w]; [reflexivity|].
      cbn [String.eqb] in Em.
      destruct (remiseField_tail x) eqn:Et; [discriminate|].
      apply replace_remiseField_spaces; assumption. }
    rewrite Hr, (span_black _ _ Hw (replace_remiseField_starts_black _ Hx)).
    rewrite (strip_prefix_replace_remiseField ";" eq_refl), H. reflexivity.
Qed.

Lemma remiseField_tail_replace_remiseField (x : string) :
  remiseField_tail x = None ->
  remiseField_tail (replace_remiseField x) = None.
Proof.
  unfold remiseField_tail.
  rewrite (strip_prefix_replace_remiseField "remise" eq_refl).
  destruct (strip_prefix "remise" x) as [y|]; [|reflexivity].
  cbn [fmap option_fmap option_map mbind option_bind].
  rewrite (strip_prefix_replace_remiseField "?" eq_refl).
  assert (Hd : default (replace_remiseField y)
                 (replace_remiseField <$> strip_prefix "?" y)
               = replace_remiseField (default y (strip_prefix "?" y)))
    by (destruct (strip_prefix "?" y); reflexivity).
  rewrite Hd. rewrite (strip_prefix_replace_remiseField ":" eq_refl).
  destruct (strip_prefix ":" (default y (strip_prefix "?" y))) as [z|];
    [|reflexivity].
  cbn [fmap option_fmap option_map mbind option_bind].
  apply remiseType_tail_replace_remiseField.
Qed.

Lemma match_remiseField_replace_remiseField (s : string) :
  match_remiseField s = None ->
  match_remiseField (replace_remiseField s) = None.
Proof.
  destruct (span is_space s) as [w x] eqn:E. intros H.
  pose proof (span_starts_black _ _ _ E) as Hx.
  destruct (span_sound _ _ _ E) as [-> Hw].
  rewrite (match_remiseField_spaces _ _ Hw Hx) in H.
  destruct w as [|c w].
  - apply match_remiseField_black, replace_remiseField_starts_black, Hx.
  - cbn [String.eqb] in H.
    destruct (remiseField_tail x) eqn:Et; [discriminate|].
    rewrite (replace_remiseField_spaces _ _ Hw Hx Et).
    rewrite (match_remiseField_spaces _ _ Hw
               (replace_remiseField_starts_black _ Hx)).
    rewrite (remiseField_tail_replace_remiseField _ Et). reflexivity.
Qed.

Lemma test_remiseField_spaces (w x : string) :
  all_space w = true -> starts_black x = true ->
  remiseField_tail x = None ->
  test_remiseField (w +:+ x) = test_remiseField x.
Proof.
  intros Hw Hx Ht. induction w as [|c w IH]; [reflexivity|].
  pose proof Hw as Hw'. cbn [all_space] in Hw'.
  apply andb_prop in Hw' as [_ Hw'].
  rewrite app_cons. cbn [test_remiseField].
  rewrite <- app_cons, (match_remiseField_spaces _ _ Hw Hx), Ht.
  cbn [String.eqb mbind option_bind]. apply IH, Hw'.
Qed.

Lemma test_replace_remiseField (n : nat) :
  forall s, (String.length s < n)%nat ->
    test_remiseField (replace_remiseField s) = false.
Proof.
  induction n as [|n IH]; intros s Hn; [lia|].
  destruct (match_remiseField s) as [[ws rest]|] eqn:E.
  - rewrite (replace_remiseField_match _ _ _ E), remiseField_replacement_app.
    destruct (match_remiseField_group _ _ _ E) as [Hws _].
    destruct (remiseField_replacement_tail (replace_remiseField rest))
      as (Hb & Ht & _ & Hk).
    rewrite (test_remiseField_spaces _ _ Hws Hb Ht), Hk.
    apply IH. apply match_remiseField_shorter in E. lia.
  - destruct s as [|c r]; [reflexivity|].
    pose proof (match_remiseField_replace_remiseField _ E) as E'.
    rewrite (replace_remiseField_skip _ _ E) in E' |- *.
    cbn [test_remiseField]. rewrite E'.
    apply IH. cbn [String.length] in Hn. lia.
Qed.

(** X19. The rule for inline [remise] fields finds nothing left once it
    has run: whatever the text, run on its own result it changes nothing
    and counts nothing more. *)
Theorem fixRemiseFields_settles (st : pass) :
  fixRemiseFields (fixRemiseFields st) = fixRemiseFields st.
Proof.
  unfold fixRemiseFields at 2 3.
  destruct (test_remiseField (content st)) eqn:E.
  - unfold fixRemiseFields. cbn [content].
    rewrite (test_replace_remiseField _ _ (Nat.lt_succ_diag_r _)). reflexivity.
  - unfold fixRemiseFields. rewrite E. reflexivity.
Qed.

Lemma replace_remiseType_head (c : ascii) (r : string) :
  exists r', replace_remiseType (String c r) = String c r'.
Proof.
  destruct (match_remiseType (String c r)) as [rest|] eqn:E.
  - rewrite (replace_remiseType_match _ _ E).
    unfold match_remiseType in E. cbn [strip_prefix] in E.
    destruct (Ascii.eqb "r" c) eqn:Ec; [|discriminate].
    apply Ascii.eqb_eq in Ec. subst c. eexists. reflexivity.
  - rewrite (replace_remiseType_skip _ _ E). eauto.
Qed.

Lemma replace_remiseType_not_r (c : ascii) (r : string) :
  Ascii.eqb "r" c = false ->
  replace_remiseType (String c r) = String c (replace_remiseType r).
Proof.
  intros Hc. apply replace_remiseType_skip.
  unfold match_remiseType. cbn [strip_prefix]. rewrite Hc. reflexivity.
Qed.

Lemma strip_prefix_replace_remiseType (p : string) :
  all_of not_r p = true ->
  forall x,
    strip_prefix p (replace_remiseType x) =
      replace_remiseType <$> strip_prefix p x.
Proof.
  induction p as [|a p IH]; intros Hp x.
  - cbn [strip_prefix]. reflexivity.
  - cbn [all_of] in Hp. apply andb_prop in Hp as [Ha Hp].
    destruct x as [|b x]; [reflexivity|].
    destruct (Ascii.eqb a b) eqn:E.
    + apply Ascii.eqb_eq in E. subst b.
      unfold not_r in Ha. apply negb_true_iff in Ha.
      rewrite (replace_remiseType_not_r a x Ha).
      cbn [strip_prefix]. rewrite Ascii.eqb_refl. apply IH, Hp.
    + destruct (replace_remiseType_head b x) as [r' ->].
      cbn [strip_prefix]. rewrite E. reflexivity.
Qed.

Lemma strip_prefix_two (p q y : string) :
  strip_prefix (p +:+ q) y = strip_prefix p y ≫= strip_prefix q.
Proof.
  revert y. induction p as [|a p IH]; intros y.
  - change (EmptyString +:+ q) with q. destruct q; reflexivity.
  - rewrite app_cons. destruct y as [|b y]; [reflexivity|].
    cbn [strip_prefix]. destruct (Ascii.eqb a b); [apply IH|reflexivity].
Qed.

Lemma strip_space_semicolon (y : string) :
  remiseType_tail y = None ->
  strip_prefix " ;" (replace_remiseType y) = None.
Proof.
  intros H. destruct y as [|c y]; [reflexivity|].
  destruct (Ascii.eqb " " c) eqn:Ec.
  - apply Ascii.eqb_eq in Ec. subst c.
    rewrite (replace_remiseType_not_r " " y eq_refl).
    assert (Hs : forall z, strip_prefix " ;" (String " " z) = strip_prefix ";" z)
      by reflexivity.
    rewrite Hs, (strip_prefix_replace_remiseType ";" eq_refl).
    destruct (strip_prefix ";" y) as [z|] eqn:Ez; [|reflexivity].
    apply strip_prefix_sound in Ez. subst y.
    discriminate H.
  - destruct (replace_remiseType_head c y) as [r' ->].
    cbn [strip_prefix]. rewrite Ec. reflexivity.
Qed.

Lemma literal_after_replace_remiseType (s : string) :
  match_remiseType s = None ->
  strip_prefix "remise: ;" (replace_remiseType s) = None.
Proof.
  intros E. destruct s as [|c r]; [reflexivity|].
  rewrite (replace_remiseType_skip _ _ E).
  assert (Hs : forall p z,
             strip_prefix (String "r" p) (String c z) =
               if Ascii.eqb "r" c then strip_prefix p z else None)
    by reflexivity.
  unfold match_remiseType in E. rewrite Hs in E |- *.
  destruct (Ascii.eqb "r" c); [|reflexivity].
  change "emise: ;" with ("emise:" +:+ " ;").
  rewrite strip_prefix_two, (strip_prefix_replace_remiseType "emise:" eq_refl).
  destruct (strip_prefix "emise:" r) as [y|]; [|reflexivity].
  cbn [fmap option_fmap option_map mbind option_bind] in E |- *.
  apply strip_space_semicolon. exact E.
Qed.

Lemma remiseType_replacement_includes (y : string) :
  str_includes "remise: ;" ("remise: " +:+ remise_body +:+ y) =
  str_includes "remise: ;" y.
Proof. vm_compute. reflexivity. Qed.

Lemma includes_replace_remiseType (n : nat) :
  forall s, (String.length s < n)%nat ->
    str_includes "remise: ;" (replace_remiseType s) = false.
Proof.
  induction n as [|n IH]; intros s Hn; [lia|].
  destruct (match_remiseType s) as [rest|] eqn:E.
  - rewrite (replace_remiseType_match _ _ E), remiseType_replacement_includes.
    apply IH. apply match_remiseType_shorter in E. lia.
  - destruct s as [|c r]; [reflexivity|].
    pose proof (literal_after_replace_remiseType _ E) as E'.
    rewrite (replace_remiseType_skip _ _ E) in E' |- *.
    cbn [str_includes]. rewrite E'.
    apply IH. cbn [String.length] in Hn. lia.
Qed.

(** X20. The rule for [remise: ;] finds nothing left once it has run:
    whatever the text, run on its own result it changes nothing and
    counts nothing more. *)
Theorem fixRemiseTypes_settles (st : pass) :
  fixRemiseTypes (fixRemiseTypes st) = fixRemiseTypes st.
Proof.
  unfold fixRemiseTypes at 2 3.
  destruct (str_includes "remise: ;" (content st)) eqn:E.
  - unfold fixRemiseTypes. cbn [content].
    rewrite (includes_replace_remiseType _ _ (Nat.lt_succ_diag_r _)).
    reflexivity.
  - unfold fixRemiseTypes. rewrite E. reflexivity.
Qed.

Lemma emptyTypeLoop_counted (n fuel : nat) :
  forall lastIndex st,
    emptyTypeLoop fuel lastIndex (counted_from n st) =
      counted_from n <$> emptyTypeLoop fuel lastIndex st.
Proof.
  induction fuel as [|fuel IH]; intros lastIndex st; [reflexivity|].
  cbn [emptyTypeLoop]. change (content (counted_from n st)) with (content st).
  destruct (exec_emptyType (content st) lastIndex) as [[typeName next]|];
    [|reflexivity].
  destruct (lookup_fix typeName) as [body|]; [|apply IH].
  rewrite <- IH. reflexivity.
Qed.

Lemma fixRemise_counted (n : nat) (st : pass) :
  fixRemiseTypes (fixRemiseFields (counted_from n st)) =
    counted_from n (fixRemiseTypes (fixRemiseFields st)).
Proof.
  unfold fixRemiseFields.
  change (content (counted_from n st)) with (content st).
  destruct (test_remiseField (content st)); unfold fixRemiseTypes;
    cbn [content counted_from];
    match goal with
    | |- context [str_includes ?l ?c] => destruct (str_includes l c)
    end; reflexivity.
Qed.

Lemma fixFile_counted (fuel : nat) (text : string) (n : nat) :
  fixFile fuel text n = counted_from n <$> fixFile fuel text 0.
Proof.
  unfold fixFile.
  change {| content := text; fixedCount := n; modified := false |}
    with (counted_from n {| content := text; fixedCount := 0; modified := false |}).
  rewrite emptyTypeLoop_counted.
  destruct (emptyTypeLoop fuel 0 _) as [st|]; [|reflexivity].
  cbn [fmap option_fmap option_map mbind option_bind].
  rewrite fixRemise_counted. reflexivity.
Qed.

(** X21. Over the models directory the patcher is the patcher of one file,
    file by file: as long as the loop of each [.ts] file comes to its end,
    the pass does, every file keeps its name and its place, a file that
    does not end in [.ts] keeps its text, a [.ts] file gets the text the
    patcher gives it on its own, and the total is the sum of the fixes of
    the files. *)
Theorem fixEmptyTypes_file_by_file (files : list (string * string)) :
  Forall patchable files ->
  forall n,
    fixEmptyTypes files n =
      Some (map patched files, (n + list_sum (map fixes_in files))%nat).
Proof.
  induction 1 as [|[file text] rest Hp _ IH]; intros n.
  - cbn. rewrite Nat.add_0_r. reflexivity.
  - cbn [fixEmptyTypes map].
    change (list_sum (fixes_in (file, text) :: map fixes_in rest))
      with (fixes_in (file, text) + list_sum (map fixes_in rest))%nat.
    unfold patched at 1, fixes_in at 1. unfold patchable in Hp.
    cbn [fst snd] in *.
    destruct (endsWith_ts file); cbn [negb].
    + destruct (Hp eq_refl) as [r Hr]. rewrite Hr.
      unfold patch in Hr. rewrite fixFile_counted.
      destruct (fixFile (fuel_for text) text 0) as [st|]; [|discriminate].
      cbn [fmap option_fmap option_map mbind option_bind] in Hr |- *.
      injection Hr as <-. rewrite IH.
      cbn [mbind option_bind default on_disk fixes rewritten counted_from
           fixedCount modified content].
      unfold id. replace (n + (fixedCount st + list_sum (map fixes_in rest)))%nat
        with (fixedCount st + n + list_sum (map fixes_in rest))%nat by lia.
      destruct (modified st); reflexivity.
    + rewrite IH. cbn [mbind option_bind]. reflexivity.
Qed.

Lemma fixEmptyTypes_file_by_file_witness :
  fixEmptyTypes
    [ ("README.md", "remise: ;"); ("Remise.ts", "export type remise = ;") ] 0
  = Some ([ ("README.md", "remise: ;");
            ("Remise.ts", declaration "remise" remise_body) ], 1%nat).
Proof.
  apply (fixEmptyTypes_file_by_file
           [ ("README.md", "remise: ;");
             ("Remise.ts", "export type remise = ;") ]).
  repeat constructor.
  - intros H. discriminate H.
  - intros _. exact (ex_intro _ _ eq_refl).
Defined.

Lemma str_includes_through (needle before rest : string) :
  (forall i, (i < String.length before)%nat ->
             strip_prefix needle (drop i before +:+ rest) = None) ->
  str_includes needle (before +:+ rest) = str_includes needle rest.
Proof.
  induction before as [|c before IH]; intros H; [reflexivity|].
  rewrite app_cons. cbn [str_includes].
  pose proof (H 0%nat ltac:(cbn [String.length]; lia)) as H0.
  cbn [drop] in H0. rewrite app_cons in H0. rewrite H0.
  apply IH. intros i Hi. apply (H (S i)). cbn [String.length]. lia.
Qed.

Lemma test_remiseField_through (before rest : string) :
  (forall i, (i < String.length before)%nat ->
             match_remiseField (drop i before +:+ rest) = None) ->
  test_remiseField (before +:+ rest) = test_remiseField rest.
Proof.
  induction before as [|c before IH]; intros H; [reflexivity|].
  rewrite app_cons. cbn [test_remiseField].
  pose proof (H 0%nat ltac:(cbn [String.length]; lia)) as H0.
  cbn [drop] in H0. rewrite app_cons in H0. rewrite H0.
  apply IH. intros i Hi. apply (H (S i)). cbn [String.length]. lia.
Qed.

Lemma str_includes_spaces (a : ascii) (needle w : string) :
  is_space a = false -> Ascii.eqb a ";" = false -> all_space w = true ->
  str_includes (String a needle) (w +:+ ";") = false.
Proof.
  intros Ha Hs Hw.
  assert (Hstep : forall b z,
             strip_prefix (String a needle) (String b z) =
               if Ascii.eqb a b then strip_prefix needle z else None)
    by reflexivity.
  induction w as [|c w IH].
  - change (EmptyString +:+ ";") with ";". cbn [str_includes].
    rewrite Hstep, Hs. reflexivity.
  - cbn [all_space] in Hw. apply andb_prop in Hw as [Hc Hw].
    rewrite app_cons. cbn [str_includes]. rewrite Hstep.
    destruct (Ascii.eqb a c) eqn:E; [|apply IH, Hw].
    apply Ascii.eqb_eq in E. congruence.
Qed.

Lemma replace_first_absent (needle replacement s : string) :
  str_includes needle s = false -> replace_first needle replacement s = s.
Proof.
  induction s as [|c s IH]; cbn [str_includes replace_first].
  - destruct (strip_prefix needle EmptyString); [discriminate|reflexivity].
  - destruct (strip_prefix needle (String c s)); [discriminate|].
    intros H. rewrite (IH H). reflexivity.
Qed.

Lemma drop_all (s : string) : drop (String.length s) s = EmptyString.
Proof. induction s as [|c s IH]; [reflexivity|exact IH]. Qed.

Lemma emptyTypeLoop_counts_once (text typeName body : string) :
  match_emptyType text = Some (typeName, EmptyString) ->
  lookup_fix typeName = Some body ->
  str_includes (declaration typeName EmptyString) text = false ->
  emptyTypeLoop (fuel_for text) 0
    {| content := text; fixedCount := 0; modified := false |} =
  Some {| content := text; fixedCount := 1; modified := true |}.
Proof.
  intros Hm Hl Ha.
  assert (Hlen : (0 < String.length text)%nat).
  { apply match_emptyType_shorter in Hm. lia. }
  unfold fuel_for. destruct (String.length text) as [|k] eqn:Ek; [lia|].
  cbn [emptyTypeLoop content]. unfold exec_emptyType at 1.
  assert (Hd : drop 0 text = text) by (destruct text; reflexivity).
  rewrite Hd. cbn [Nat.ltb Nat.leb].
  destruct text as [|c r]; [discriminate Ek|].
  cbn [search_emptyType]. rewrite Hm, Hl.
  rewrite (replace_first_absent _ _ _ Ha).
  cbn [content fixedCount]. unfold exec_emptyType.
  cbn [String.length] in Ek |- *.
  rewrite Nat.add_0_l, Nat.sub_0_r, Nat.ltb_irrefl.
  change (S (String.length r)) with (String.length (String c r)).
  rewrite drop_all. reflexivity.
Qed.

Lemma match_emptyType_declaration (typeName ws : string) :
  all_of is_word typeName = true -> typeName <> EmptyString ->
  all_space ws = true ->
  match_emptyType (declaration typeName ws) = Some (typeName, EmptyString).
Proof.
  intros Hn Hne Hws. unfold declaration, match_emptyType.
  rewrite strip_prefix_app. cbn [mbind option_bind].
  assert (Hshape : forall X,
             " = " +:+ X = String " " (String "=" (String " " X)))
    by reflexivity.
  rewrite Hshape, (span_app_other is_word typeName " " _ Hn eq_refl).
  destruct (String.eqb typeName EmptyString) eqn:E;
    [apply String.eqb_eq in E; contradiction|].
  change (strip_prefix " = "
            (String " " (String "=" (String " " (ws +:+ ";")))))
    with (Some (ws +:+ ";")).
  cbn [mbind option_bind].
  rewrite (span_black ws ";" Hws eq_refl). reflexivity.
Qed.

Lemma space_is_not_semicolon (c : ascii) :
  is_space c = true -> Ascii.eqb ";" c = false.
Proof.
  destruct c as [[] [] [] [] [] [] [] []]; try reflexivity; discriminate.
Qed.

(** X22. An empty type of the table that is written with more white space
    than one blank before its semicolon is counted as fixed, and the file
    is written back, but with the text it had: the pattern that finds the
    type allows the white space, the text that is replaced does not. *)
Theorem spaced_empty_type_is_counted_not_repaired (typeName ws : string) :
  In typeName (map fst emptyTypeFixes) ->
  all_space ws = true -> ws <> EmptyString ->
  patch (declaration typeName ws) =
    Some {| fixes := 1; rewritten := Some (declaration typeName ws) |}.
Proof.
  intros Hin Hws Hne.
  destruct ws as [|c ws']; [congruence|].
  pose proof Hws as Hws'. cbn [all_space] in Hws'.
  apply andb_prop in Hws' as [Hc _].
  pose proof (space_is_not_semicolon c Hc) as Hsemi.
  assert (Hstep : forall a p b z,
             strip_prefix (String a p) (String b z) =
               if Ascii.eqb a b then strip_prefix p z else None)
    by reflexivity.
  assert (Hw : all_space (" " +:+ String c ws') = true)
    by (rewrite all_space_app; [reflexivity|reflexivity|exact Hws]).
  assert (Hrules :
    forall before body,
      declaration typeName (String c ws') =
        before +:+ ((" " +:+ String c ws') +:+ ";") ->
      declaration typeName EmptyString = before +:+ " ;" ->
      all_of is_word typeName = true -> typeName <> EmptyString ->
      lookup_fix typeName = Some body ->
      (forall i X, (0 < i < String.length before)%nat ->
         strip_prefix (before +:+ " ;") (drop i before +:+ X) = None) ->
      (forall i X, (i < String.length before)%nat ->
         strip_prefix "remise: ;" (drop i before +:+ X) = None) ->
      (forall i X, (i < String.length before)%nat ->
         match_remiseField (drop i before +:+ X) = None) ->
      patch (declaration typeName (String c ws')) =
        Some {| fixes := 1;
                rewritten := Some (declaration typeName (String c ws')) |}).
  { intros before body Htext Hlit Hword Hnn Hl H1 H2 H3.
    assert (Htest : test_remiseField (declaration typeName (String c ws'))
                    = false).
    { rewrite Htext.
      rewrite test_remiseField_through by (intros i Hi; apply H3, Hi).
      rewrite (test_remiseField_spaces _ ";" Hw eq_refl eq_refl).
      reflexivity. }
    assert (Hincl : str_includes "remise: ;"
                      (declaration typeName (String c ws')) = false).
    { rewrite Htext.
      rewrite str_includes_through by (intros i Hi; apply H2, Hi).
      apply (str_includes_spaces "r" _ _ eq_refl eq_refl Hw). }
    unfold patch, fixFile.
    rewrite (emptyTypeLoop_counts_once _ typeName body).
    - cbn [mbind option_bind]. unfold fixRemiseFields. cbn [content].
      rewrite Htest. unfold fixRemiseTypes. cbn [content].
      rewrite Hincl. reflexivity.
    - apply match_emptyType_declaration; assumption.
    - exact Hl.
    - rewrite Hlit, Htext.
      rewrite str_includes_through.
      + destruct before as [|a before'];
          [discriminate Hlit|].
        rewrite app_cons.
        apply (str_includes_spaces a _ _); [| |exact Hw];
          injection Hlit as <- _; reflexivity.
      + intros [|i] Hi; [|apply H1; lia].
        cbn [drop]. rewrite strip_prefix_two, strip_prefix_app.
        cbn [mbind option_bind].
        change ((" " +:+ String c ws') +:+ ";")
          with (String " " (String c (ws' +:+ ";"))).
        rewrite !Hstep, Hsemi. reflexivity. }
  cbn in Hin. destruct Hin as [<-|[<-|[<-|[]]]].
  - apply (Hrules "export type CompteTransfertIntraRequest ="
             CompteTransfertIntraRequest_body); try reflexivity;
      try discriminate;
      intros i X Hi;
      repeat (destruct i as [|i]; [first [lia|vm_compute; reflexivity]|]);
      cbn [String.length] in Hi; lia.
  - apply (Hrules "export type WebhookModificationRequest ="
             WebhookModificationRequest_body); try reflexivity;
      try discriminate;
      intros i X Hi;
      repeat (destruct i as [|i]; [first [lia|vm_compute; reflexivity]|]);
      cbn [String.length] in Hi; lia.
  - apply (Hrules "export type remise =" remise_body); try reflexivity;
      try discriminate;
      intros i X Hi;
      repeat (destruct i as [|i]; [first [lia|vm_compute; reflexivity]|]);
      cbn [String.length] in Hi; lia.
Qed.

Lemma spaced_empty_type_is_counted_not_repaired_witness :
  patch "export type remise =  ;" =
    Some {| fixes := 1; rewritten := Some "export type remise =  ;" |}.
Proof.
  apply (spaced_empty_type_is_counted_not_repaired "remise" " ").
  - right. right. left. reflexivity.
  - reflexivity.
  - discriminate.
Defined.

End PatcherBehaviour.
